(** * json-diff3: the sequence differ and the three-way merge of indices

  A shallow embedding of [src/node-diff3.ts] (ranges, index records,
  [diffIndicesString], [diffIndicesArray], [diffIndices],
  [diff3MergeIndices]) and, further down, of the structural merge
  [diff3] as the specification describes it.

  JavaScript numbers that the program uses as indices and lengths are
  integers here ([Z]); no operation of the program leaves the range in
  which a double is exact. *)

From Stdlib Require Import ZArith List Bool Lia String Ascii PeanoNat.
From Stdlib Require Import DecimalString.
From Stdlib Require Import Permutation Sorted.
Import ListNotations.
Open Scope Z_scope.

(** ** Ranges and index records *)

(** [interface Range { location: number; length: number }] *)
Record Range : Type := makeRange { location : Z; length : Z }.

Definition upperBound (r : Range) : Z := location r + length r.

(** [Index = ConflictIndex | OkIndexA | OkIndexB]; a field of type
  [number | undefined] is an [option]. *)
Inductive Index : Type :=
| conflict (aRange oRange bRange : Range)
| okA (len : Z) (aIndex : Z) (oIndex bIndex : option Z)
| okB (len : Z) (aIndex oIndex : option Z) (bIndex : Z).

(** [interface DiffIndicesResult { a: Range; b: Range }] *)
Module DiffIndicesResult.
Record t : Type := make { a : Range; b : Range }.
End DiffIndicesResult.

(** The tags of the tuples [fastDiff] returns. *)
Inductive DiffOp : Type := EQUAL | INSERT | DELETE.

(** [side: 'a' | 'b'] *)
Inductive Side : Type := SideA | SideB.

Definition Side_eqb (s t : Side) : bool :=
  match s, t with
  | SideA, SideA | SideB, SideB => true
  | _, _ => false
  end.

(** The local [interface Hunk] of [diff3MergeIndices]. *)
Record Hunk : Type := mkHunk { side : Side; oRange : Range; sideRange : Range }.

(** The length of a sequence as the program reads it ([x.length]). *)
Definition zlen {A : Type} (xs : list A) : Z := Z.of_nat (List.length xs).

(** ** The program, over an arbitrary element type *)

Section Program.

(** The elements of the sequences; [undefined] is what an access out of
    range yields. *)
Variable T : Type.
Variable undefined : T.

(** [areReferenceEqual]: JavaScript's [===] on elements.  Nothing is
    assumed about it (it is not reflexive at [NaN]). *)
Variable areReferenceEqual : T -> T -> bool.

(** The two external differs.  [fastDiff] returns tagged pieces of
    text; [diff_core i N j M eq] yields quadruples
    [[aStart, aEnd, bStart, bEnd]]. *)
Variable fastDiff : list T -> list T -> list (DiffOp * list T).
Variable diff_core :
  Z -> Z -> Z -> Z -> (Z -> Z -> bool) -> list (Z * Z * Z * Z).

(** An [ArrayLike<T>] is a primitive string (its elements are its
    one-character substrings) or an object with an identity. *)
Inductive ArrayLike : Type :=
| StringSeq (chars : list T)
| ArraySeq (ref : positive) (items : list T).

Definition elems (s : ArrayLike) : list T :=
  match s with
  | StringSeq chars => chars
  | ArraySeq _ items => items
  end.

(** [xs[i]] *)
Definition get (xs : list T) (i : Z) : T :=
  if i <? 0 then undefined else nth (Z.to_nat i) xs undefined.

Fixpoint sameChars (xs ys : list T) : bool :=
  match xs, ys with
  | [], [] => true
  | x :: xs', y :: ys' => areReferenceEqual x y && sameChars xs' ys'
  | _, _ => false
  end.

(** [a === b] on sequences: strings compare by content, objects by
    identity, and a string is never an object. *)
Definition identical (a b : ArrayLike) : bool :=
  match a, b with
  | StringSeq s, StringSeq t => sameChars s t
  | ArraySeq r _, ArraySeq r' _ => Pos.eqb r r'
  | _, _ => false
  end.

(** *** [diffIndicesString] *)

Record StringScan : Type := mkScan {
  aIndex : Z; bIndex : Z; lastA : Z; lastB : Z;
  scanned : list DiffIndicesResult.t
}.

Definition flush (st : StringScan) : StringScan :=
  if (aIndex st >? lastA st) || (bIndex st >? lastB st) then
    mkScan (aIndex st) (bIndex st) (lastA st) (lastB st)
      (scanned st ++
         [DiffIndicesResult.make
            (makeRange (lastA st) (aIndex st - lastA st))
            (makeRange (lastB st) (bIndex st - lastB st))])
  else st.

Definition scanPiece (st : StringScan) (piece : DiffOp * list T)
  : StringScan :=
  let '(type, str) := piece in
  match type with
  | EQUAL =>
      let st := flush st in
      let aIndex' := aIndex st + zlen str in
      let bIndex' := bIndex st + zlen str in
      mkScan aIndex' bIndex' aIndex' bIndex' (scanned st)
  | INSERT =>
      mkScan (aIndex st) (bIndex st + zlen str) (lastA st) (lastB st)
        (scanned st)
  | DELETE =>
      mkScan (aIndex st + zlen str) (bIndex st) (lastA st) (lastB st)
        (scanned st)
  end.

Definition diffIndicesString (a b : list T) : list DiffIndicesResult.t :=
  scanned (flush (fold_left scanPiece (fastDiff a b) (mkScan 0 0 0 0 []))).

(** *** [diffIndicesArray] *)

(** The first [while]: [fuel] bounds the number of iterations, and
    [zlen a] of them are always enough. *)
Fixpoint commonPrefix (areEqual : T -> T -> bool) (a b : list T)
  (fuel : nat) (offset : Z) : Z :=
  match fuel with
  | O => offset
  | S fuel' =>
      if (offset <? zlen a) && (offset <? zlen b)
         && areEqual (get a offset) (get b offset)
      then commonPrefix areEqual a b fuel' (offset + 1)
      else offset
  end.

(** The second [while], on the pair [(aLength, bLength)]. *)
Fixpoint commonSuffix (areEqual : T -> T -> bool) (a b : list T)
  (offset : Z) (fuel : nat) (aLength bLength : Z) : Z * Z :=
  match fuel with
  | O => (aLength, bLength)
  | S fuel' =>
      if (aLength >? offset) && (bLength >? offset) then
        if negb (areEqual (get a (aLength - 1)) (get b (bLength - 1)))
        then (aLength, bLength)
        else commonSuffix areEqual a b offset fuel' (aLength - 1)
               (bLength - 1)
      else (aLength, bLength)
  end.

Definition pushQuad (q : Z * Z * Z * Z) : DiffIndicesResult.t :=
  let '(aStart, aEnd, bStart, bEnd) := q in
  DiffIndicesResult.make (makeRange aStart (aEnd - aStart))
    (makeRange bStart (bEnd - bStart)).

Definition diffIndicesArray (a b : ArrayLike)
  (areEqual : T -> T -> bool) : list DiffIndicesResult.t :=
  if identical a b then []
  else
    let xs := elems a in
    let ys := elems b in
    let offset := commonPrefix areEqual xs ys (List.length xs) 0 in
    if (offset =? zlen xs) && (offset =? zlen ys) then []
    else
      let '(aLength, bLength) :=
        commonSuffix areEqual xs ys offset (List.length xs)
          (zlen xs) (zlen ys) in
      map pushQuad
        (diff_core offset (aLength - offset) offset (bLength - offset)
           (fun i j => areEqual (get xs i) (get ys j))).

(** *** [diffIndices] *)

Definition diffIndices (a b : ArrayLike) : list DiffIndicesResult.t :=
  match a, b with
  | StringSeq s, StringSeq t => diffIndicesString s t
  | _, _ => diffIndicesArray a b areReferenceEqual
  end.

(** *** [diff3MergeIndices] *)

(** [addHunk] builds the hunk that the source pushes onto [hunks]. *)
Definition addHunk (h : DiffIndicesResult.t) (side : Side) : Hunk :=
  mkHunk side (DiffIndicesResult.a h) (DiffIndicesResult.b h).

(** [hunks.sort((x, y) => x.oRange.location - y.oRange.location)]: the
    sort of an array is stable, so the result is the stable sort by the
    base location, written here as an insertion sort. *)
Fixpoint insertHunk (x : Hunk) (l : list Hunk) : list Hunk :=
  match l with
  | [] => [x]
  | y :: l' =>
      if location (oRange x) <=? location (oRange y) then x :: y :: l'
      else y :: insertHunk x l'
  end.

Definition sortHunks (l : list Hunk) : list Hunk :=
  fold_right insertHunk [] l.

(** The variables the sweep updates: [result], [oOffset], [aOffset],
    [bOffset]. *)
Record MergeState : Type := mkState {
  result : list Index; oOffset : Z; aOffset : Z; bOffset : Z
}.

Definition push (st : MergeState) (i : Index) : MergeState :=
  mkState (result st ++ [i]) (oOffset st) (aOffset st) (bOffset st).

Definition copyCommon (targetOffset : Z) (st : MergeState) : MergeState :=
  let delta := targetOffset - oOffset st in
  if delta >? 0 then
    let st' :=
      push st (okA delta (aOffset st) (Some (oOffset st))
                 (Some (bOffset st))) in
    mkState (result st') (oOffset st + delta) (aOffset st + delta)
      (bOffset st + delta)
  else st.

(** The inner [while]: starting from [regionRhs], it takes the hunks that
    follow as long as they start at or before [regionRhs].  It returns the
    final [regionRhs], the hunks taken (those at [firstHunkIndex + 1 ..
    hunkIndex]) and the hunks that remain (those after [hunkIndex]). *)
Fixpoint extendRegion (regionRhs : Z) (rest : list Hunk)
  : Z * list Hunk * list Hunk :=
  match rest with
  | [] => (regionRhs, [], [])
  | maybeOverlapping :: rest' =>
      let maybeLhs := location (oRange maybeOverlapping) in
      if maybeLhs >? regionRhs then (regionRhs, [], rest)
      else
        let '(rhs, taken, remaining) :=
          extendRegion
            (Z.max regionRhs (upperBound (oRange maybeOverlapping))) rest' in
        (rhs, maybeOverlapping :: taken, remaining)
  end.

(** One entry of [regions]: [[abLhs, abRhs, oLhs, oRhs]]. *)
Definition Extent : Type := (Z * Z * Z * Z)%type.

Record Regions : Type := mkRegions { regions_a : Extent; regions_b : Extent }.

Definition widen (r : Extent) (hunk : Hunk) : Extent :=
  let '(r0, r1, r2, r3) := r in
  let oLhs := location (oRange hunk) in
  let oRhs := upperBound (oRange hunk) in
  let abLhs := location (sideRange hunk) in
  let abRhs := upperBound (sideRange hunk) in
  (Z.min abLhs r0, Z.max abRhs r1, Z.min oLhs r2, Z.max oRhs r3).

Definition widenRegions (regions : Regions) (hunk : Hunk) : Regions :=
  match side hunk with
  | SideA => mkRegions (widen (regions_a regions) hunk) (regions_b regions)
  | SideB => mkRegions (regions_a regions) (widen (regions_b regions) hunk)
  end.

(** The branch [firstHunkIndex === hunkIndex]. *)
Definition mergeSingle (regionRhs : Z) (hunk : Hunk) (st : MergeState)
  : MergeState :=
  let st :=
    if length (sideRange hunk) >? 0 then
      match side hunk with
      | SideA =>
          push st (okA (length (sideRange hunk))
                     (location (sideRange hunk)) None None)
      | SideB =>
          push st (okB (length (sideRange hunk)) None None
                     (location (sideRange hunk)))
      end
    else st in
  let delta := regionRhs - oOffset st in
  mkState (result st) regionRhs
    (match side hunk with
     | SideA => upperBound (sideRange hunk)
     | SideB => aOffset st + delta
     end)
    (match side hunk with
     | SideB => upperBound (sideRange hunk)
     | SideA => bOffset st + delta
     end).

(** The branch of a proper conflict, over the hunks [group] at
    [firstHunkIndex .. hunkIndex]. *)
Definition mergeConflict (oLen aLen bLen : Z) (regionLhs regionRhs : Z)
  (group : list Hunk) (st : MergeState) : MergeState :=
  let regions :=
    fold_left widenRegions group
      (mkRegions (aLen, -1, oLen, -1) (bLen, -1, oLen, -1)) in
  let '(a0, a1, a2, a3) := regions_a regions in
  let '(b0, b1, b2, b3) := regions_b regions in
  let aLhs := a0 + (regionLhs - a2) in
  let aRhs := a1 + (regionRhs - a3) in
  let bLhs := b0 + (regionLhs - b2) in
  let bRhs := b1 + (regionRhs - b3) in
  let st :=
    push st (conflict (makeRange aLhs (aRhs - aLhs))
               (makeRange regionLhs (regionRhs - regionLhs))
               (makeRange bLhs (bRhs - bLhs))) in
  mkState (result st) regionRhs aRhs bRhs.

(** The body of the outer [for], entered with [hunk = hunks[hunkIndex]]
    and [rest] the hunks after it; it returns the hunks after the group it
    has merged. *)
Definition mergeGroup (oLen aLen bLen : Z) (st : MergeState) (hunk : Hunk)
  (rest : list Hunk) : MergeState * list Hunk :=
  let regionLhs := location (oRange hunk) in
  let '(regionRhs, taken, remaining) :=
    extendRegion (upperBound (oRange hunk)) rest in
  let st := copyCommon regionLhs st in
  match taken with
  | [] => (mergeSingle regionRhs hunk st, remaining)
  | _ :: _ =>
      (mergeConflict oLen aLen bLen regionLhs regionRhs (hunk :: taken) st,
       remaining)
  end.

(** The outer [for]; [fuel] bounds the number of groups, and as many as
    there are hunks is always enough. *)
Fixpoint sweep (oLen aLen bLen : Z) (fuel : nat) (st : MergeState)
  (hunks : list Hunk) : MergeState :=
  match fuel, hunks with
  | S fuel', hunk :: rest =>
      let '(st', remaining) := mergeGroup oLen aLen bLen st hunk rest in
      sweep oLen aLen bLen fuel' st' remaining
  | _, _ => st
  end.

(** Everything [diff3MergeIndices] does once [m1] and [m2] are known. *)
Definition mergeHunks (oLen aLen bLen : Z)
  (m1 m2 : list DiffIndicesResult.t) : list Index :=
  let hunks :=
    sortHunks (map (fun h => addHunk h SideA) m1
               ++ map (fun h => addHunk h SideB) m2) in
  let st :=
    sweep oLen aLen bLen (List.length hunks) (mkState [] 0 0 0) hunks in
  result (copyCommon oLen st).

Definition diff3MergeIndices (o a b : ArrayLike) : list Index :=
  let m1 := diffIndices o a in
  let m2 := diffIndices o b in
  mergeHunks (zlen (elems o)) (zlen (elems a)) (zlen (elems b)) m1 m2.

End Program.

Arguments StringSeq {T} chars.
Arguments ArraySeq {T} ref items.
Arguments elems {T} s.
Arguments get {T} undefined xs i.
Arguments identical {T} areReferenceEqual a b.
Arguments diffIndicesString {T} fastDiff a b.
Arguments commonPrefix {T} undefined areEqual a b fuel offset.
Arguments commonSuffix {T} undefined areEqual a b offset fuel aLength bLength.
Arguments diffIndicesArray {T} undefined areReferenceEqual diff_core a b
  areEqual.
Arguments diffIndices {T} undefined areReferenceEqual fastDiff diff_core a b.
Arguments diff3MergeIndices {T} undefined areReferenceEqual fastDiff
  diff_core o a b.

(** ** A concrete instance: JavaScript values and a reference differ

    The values that the examples below put in sequences, with [===] on
    them, and a differ by longest common subsequence that stands for the
    two external packages. *)

Inductive JsValue : Type :=
| JsUndefined
| JsNaN
| JsNumber (n : Z)
| JsText (s : string).

Definition strictEquals (x y : JsValue) : bool :=
  match x, y with
  | JsUndefined, JsUndefined => true
  | JsNumber n, JsNumber m => n =? m
  | JsText s, JsText t => String.eqb s t
  | _, _ => false
  end.

Inductive EditOp : Type := Keep | Del | Ins.

Fixpoint keeps (ops : list EditOp) : nat :=
  match ops with
  | [] => O
  | Keep :: ops' => S (keeps ops')
  | _ :: ops' => keeps ops'
  end.

(** A longest-common-subsequence edit script of the [n] elements from [x]
    against the [m] elements from [y]. *)
Fixpoint lcsScript (eq : Z -> Z -> bool) (n : nat) (x : Z) {struct n}
  : nat -> Z -> list EditOp :=
  fix inner (m : nat) (y : Z) {struct m} : list EditOp :=
    match n with
    | O => repeat Ins m
    | S n' =>
        match m with
        | O => repeat Del n
        | S m' =>
            if eq x y then Keep :: lcsScript eq n' (x + 1) m' (y + 1)
            else
              let d := Del :: lcsScript eq n' (x + 1) m y in
              let i := Ins :: inner m' (y + 1) in
              if (keeps d <? keeps i)%nat then i else d
        end
    end.

Definition closeQuad (pending : option (Z * Z)) (x y : Z)
  : list (Z * Z * Z * Z) :=
  match pending with
  | Some (sx, sy) => [(sx, x, sy, y)]
  | None => []
  end.

Definition openQuad (pending : option (Z * Z)) (x y : Z) : option (Z * Z) :=
  match pending with
  | Some p => Some p
  | None => Some (x, y)
  end.

Fixpoint scriptQuads (ops : list EditOp) (x y : Z)
  (pending : option (Z * Z)) : list (Z * Z * Z * Z) :=
  match ops with
  | [] => closeQuad pending x y
  | Keep :: ops' =>
      closeQuad pending x y ++ scriptQuads ops' (x + 1) (y + 1) None
  | Del :: ops' => scriptQuads ops' (x + 1) y (openQuad pending x y)
  | Ins :: ops' => scriptQuads ops' x (y + 1) (openQuad pending x y)
  end.

(** A differ with the interface of [diff_core]. *)
Definition lcsDiffCore (i N j M : Z) (eq : Z -> Z -> bool)
  : list (Z * Z * Z * Z) :=
  scriptQuads (lcsScript eq (Z.to_nat N) i (Z.to_nat M) j) i j None.

(** A differ with the interface of [fastDiff]: the pieces of the edit
    script, one per run of equal tags. *)
Fixpoint scriptPieces {T : Type} (ops : list EditOp) (a b : list T)
  : list (DiffOp * list T) :=
  match ops with
  | [] => []
  | Keep :: ops' =>
      match scriptPieces ops' (tl a) (tl b) with
      | (EQUAL, str) :: ps => (EQUAL, firstn 1 a ++ str) :: ps
      | ps => (EQUAL, firstn 1 a) :: ps
      end
  | Del :: ops' =>
      match scriptPieces ops' (tl a) b with
      | (DELETE, str) :: ps => (DELETE, firstn 1 a ++ str) :: ps
      | ps => (DELETE, firstn 1 a) :: ps
      end
  | Ins :: ops' =>
      match scriptPieces ops' a (tl b) with
      | (INSERT, str) :: ps => (INSERT, firstn 1 b ++ str) :: ps
      | ps => (INSERT, firstn 1 b) :: ps
      end
  end.

Definition lcsFastDiff (a b : list JsValue) : list (DiffOp * list JsValue) :=
  scriptPieces
    (lcsScript
       (fun i j => strictEquals (get JsUndefined a i) (get JsUndefined b j))
       (List.length a) 0 (List.length b) 0) a b.

Definition numbers (l : list Z) : list JsValue := map JsNumber l.

Definition letters (s : string) : list JsValue :=
  map (fun c => JsText (String c EmptyString)) (list_ascii_of_string s).

(** The program at the concrete instance. *)
Definition jsDiffIndices : ArrayLike JsValue -> ArrayLike JsValue ->
  list DiffIndicesResult.t :=
  diffIndices JsUndefined strictEquals lcsFastDiff lcsDiffCore.

Definition jsDiff3MergeIndices : ArrayLike JsValue -> ArrayLike JsValue ->
  ArrayLike JsValue -> list Index :=
  diff3MergeIndices JsUndefined strictEquals lcsFastDiff lcsDiffCore.


(** ** The run of the sweep, iteration by iteration

    What follows adds nothing to the program: it names the states the
    outer loop goes through, so that statements can speak of "the group the
    sweep forms" and of "the record a group emits". *)

(** The entry of one iteration of the outer loop: the state, the hunk at
    [hunkIndex] and the hunks after it. *)
Record Iteration : Type := mkIteration {
  before : MergeState; first : Hunk; following : list Hunk
}.

Definition regionLhs (it : Iteration) : Z := location (oRange (first it)).

Definition regionRhs (it : Iteration) : Z :=
  fst (fst (extendRegion (upperBound (oRange (first it))) (following it))).

Definition taken (it : Iteration) : list Hunk :=
  snd (fst (extendRegion (upperBound (oRange (first it))) (following it))).

Definition remaining (it : Iteration) : list Hunk :=
  snd (extendRegion (upperBound (oRange (first it))) (following it)).

(** The hunks at [firstHunkIndex .. hunkIndex]. *)
Definition group (it : Iteration) : list Hunk := first it :: taken it.

(** The state once [copyCommon(regionLhs)] has run. *)
Definition atGroup (it : Iteration) : MergeState :=
  copyCommon (regionLhs it) (before it).

Section Run.

Variables oLen aLen bLen : Z.

(** The state at the end of the iteration. *)
Definition after (it : Iteration) : MergeState :=
  fst (mergeGroup oLen aLen bLen (before it) (first it) (following it)).

Fixpoint iterations (fuel : nat) (st : MergeState) (hunks : list Hunk)
  : list Iteration :=
  match fuel, hunks with
  | S fuel', hunk :: rest =>
      let it := mkIteration st hunk rest in
      it :: iterations fuel' (after it) (remaining it)
  | _, _ => []
  end.

End Run.

(** The records appended between two states. *)
Definition newRecords (st st' : MergeState) : list Index :=
  skipn (List.length (result st)) (result st').

(** Where a step of the merge comes from. *)
Inductive Origin : Type :=
| Common
| OneSided (s : Side)
| Conflicting.

(** A step of the merge: the span of the base it consumes and the records
    it appends (none or one). *)
Record Step : Type := mkStep {
  origin : Origin; span : Range; emitted : list Index
}.

Definition commonSteps (targetOffset : Z) (st : MergeState) : list Step :=
  let delta := targetOffset - oOffset st in
  if delta >? 0 then
    [mkStep Common (makeRange (oOffset st) delta)
       (newRecords st (copyCommon targetOffset st))]
  else [].

Definition groupStep (oLen aLen bLen : Z) (it : Iteration) : Step :=
  mkStep
    match taken it with
    | [] => OneSided (side (first it))
    | _ :: _ => Conflicting
    end
    (makeRange (regionLhs it) (regionRhs it - regionLhs it))
    (newRecords (atGroup it) (after oLen aLen bLen it)).

Definition sortedHunks (m1 m2 : list DiffIndicesResult.t) : list Hunk :=
  sortHunks (map (fun h => addHunk h SideA) m1
             ++ map (fun h => addHunk h SideB) m2).

Definition mergeIterations (oLen aLen bLen : Z)
  (m1 m2 : list DiffIndicesResult.t) : list Iteration :=
  let hunks := sortedHunks m1 m2 in
  iterations oLen aLen bLen (List.length hunks) (mkState [] 0 0 0) hunks.

Definition mergeSteps (oLen aLen bLen : Z)
  (m1 m2 : list DiffIndicesResult.t) : list Step :=
  let hunks := sortedHunks m1 m2 in
  flat_map
    (fun it =>
       commonSteps (regionLhs it) (before it)
       ++ [groupStep oLen aLen bLen it])
    (mergeIterations oLen aLen bLen m1 m2)
  ++ commonSteps oLen
       (sweep oLen aLen bLen (List.length hunks) (mkState [] 0 0 0) hunks).

(** ** What the merge expects of a differ *)

(** The hunks [m] of a diff between a sequence of length [lenA] and one of
    length [lenB], read from the positions [(x, y)] on: every gap between
    hunks is as long in one sequence as in the other, and the hunks are in
    order and within the sequences. *)
Fixpoint AlignedFrom (lenA lenB x y : Z) (m : list DiffIndicesResult.t)
  : Prop :=
  match m with
  | [] => x <= lenA /\ lenA - x = lenB - y
  | h :: m' =>
      x <= location (DiffIndicesResult.a h)
      /\ location (DiffIndicesResult.a h) - x
         = location (DiffIndicesResult.b h) - y
      /\ 0 <= length (DiffIndicesResult.a h)
      /\ 0 <= length (DiffIndicesResult.b h)
      /\ AlignedFrom lenA lenB (upperBound (DiffIndicesResult.a h))
           (upperBound (DiffIndicesResult.b h)) m'
  end.

(** Two consecutive hunks are apart: at least one element lies between
    them (a differ reports touching changes as one hunk). *)
Fixpoint Separated (m : list DiffIndicesResult.t) : Prop :=
  match m with
  | h :: ((h' :: _) as m') =>
      upperBound (DiffIndicesResult.a h) < location (DiffIndicesResult.a h')
      /\ Separated m'
  | _ => True
  end.

Definition WellFormedDiff (lenA lenB : Z) (m : list DiffIndicesResult.t)
  : Prop :=
  AlignedFrom lenA lenB 0 0 m /\ Separated m.

(** ** Covering the base *)

(** The spans [rs], in order, cover [[from, to)] exactly once: each starts
    where the one before it ends. *)
Fixpoint Covers (rs : list Range) (from to : Z) : Prop :=
  match rs with
  | [] => from = to
  | r :: rs' =>
      location r = from /\ 0 <= length r /\ Covers rs' (upperBound r) to
  end.

(** The spans of the steps that appended a record. *)
Definition recordSpans (steps : list Step) : list Range :=
  map span
    (filter (fun s => negb (Nat.eqb (List.length (emitted s)) 0)) steps).

Definition sideHunks (s : Side) (hs : list Hunk) : list Hunk :=
  filter (fun h => Side_eqb (side h) s) hs.

Definition toDiff (h : Hunk) : DiffIndicesResult.t :=
  DiffIndicesResult.make (oRange h) (sideRange h).

(** [m] is the least (greatest) element of the non-empty list [l]. *)
Definition IsMin (m : Z) (l : list Z) : Prop := In m l /\ Forall (Z.le m) l.
Definition IsMax (m : Z) (l : list Z) : Prop := In m l /\ Forall (Z.ge m) l.

(** The hunks of a group are chained: each starts at or before the end of
    the region built from those before it. *)
Fixpoint Chained (rhs : Z) (hs : list Hunk) : Prop :=
  match hs with
  | [] => True
  | h :: hs' =>
      location (oRange h) <= rhs
      /\ Chained (Z.max rhs (upperBound (oRange h))) hs'
  end.

(** The end of the region built from [rhs] and the hunks [hs]. *)
Definition regionEnd (rhs : Z) (hs : list Hunk) : Z :=
  fold_left (fun r h => Z.max r (upperBound (oRange h))) hs rhs.

Definition byLocation (x y : Hunk) : Prop :=
  location (oRange x) <= location (oRange y).

Definition diff3Steps {T : Type} (undefined : T)
  (areReferenceEqual : T -> T -> bool)
  (fastDiff : list T -> list T -> list (DiffOp * list T))
  (diff_core : Z -> Z -> Z -> Z -> (Z -> Z -> bool) -> list (Z * Z * Z * Z))
  (o a b : ArrayLike T) : list Step :=
  mergeSteps (zlen (elems o)) (zlen (elems a)) (zlen (elems b))
    (diffIndices undefined areReferenceEqual fastDiff diff_core o a)
    (diffIndices undefined areReferenceEqual fastDiff diff_core o b).

Definition diff3Iterations {T : Type} (undefined : T)
  (areReferenceEqual : T -> T -> bool)
  (fastDiff : list T -> list T -> list (DiffOp * list T))
  (diff_core : Z -> Z -> Z -> Z -> (Z -> Z -> bool) -> list (Z * Z * Z * Z))
  (o a b : ArrayLike T) : list Iteration :=
  mergeIterations (zlen (elems o)) (zlen (elems a)) (zlen (elems b))
    (diffIndices undefined areReferenceEqual fastDiff diff_core o a)
    (diffIndices undefined areReferenceEqual fastDiff diff_core o b).

(** The records the branch of a single hunk appends. *)
Definition singleRecords (hunk : Hunk) : list Index :=
  if length (sideRange hunk) >? 0 then
    match side hunk with
    | SideA =>
        [okA (length (sideRange hunk)) (location (sideRange hunk)) None None]
    | SideB =>
        [okB (length (sideRange hunk)) None None (location (sideRange hunk))]
    end
  else [].


(** The indices a record carries, by the origin of its step. *)
Definition IndicesFollowOrigin (s : Step) : Prop :=
  match origin s with
  | Common =>
      exists len ai oi bi, emitted s = [okA len ai (Some oi) (Some bi)]
  | OneSided SideA =>
      emitted s = [] \/ exists len ai, emitted s = [okA len ai None None]
  | OneSided SideB =>
      emitted s = [] \/ exists len bi, emitted s = [okB len None None bi]
  | Conflicting => exists aR oR bR, emitted s = [conflict aR oR bR]
  end.

(** The hunks of one side among [hs] form a well-formed diff when read
    from the base position [x] and the side position [y]. *)
Definition SideAligned (lenO lenS : Z) (s : Side) (x y : Z)
  (hs : list Hunk) : Prop :=
  AlignedFrom lenO lenS x y (map toDiff (sideHunks s hs))
  /\ Separated (map toDiff (sideHunks s hs)).

(** The invariant of the outer loop, at a state [st] with the hunks [hs]
    still to merge. *)
Record Inv (oLen aLen bLen : Z) (st : MergeState) (hs : list Hunk)
  : Prop := mkInv {
  inv_sorted : StronglySorted byLocation hs;
  inv_a : SideAligned oLen aLen SideA (oOffset st) (aOffset st) hs;
  inv_b : SideAligned oLen bLen SideB (oOffset st) (bOffset st) hs;
  inv_o : 0 <= oOffset st;
  inv_aOffset : 0 <= aOffset st;
  inv_bOffset : 0 <= bOffset st
}.

(** The position a diff ends at: past its last hunk. *)
Definition alignedEnd (x y : Z) (m : list DiffIndicesResult.t) : Z * Z :=
  fold_left
    (fun _ h =>
       (upperBound (DiffIndicesResult.a h), upperBound (DiffIndicesResult.b h)))
    m (x, y).

Definition otherSide (s : Side) : Side :=
  match s with
  | SideA => SideB
  | SideB => SideA
  end.

(** [aOffset] or [bOffset], by side. *)
Definition sideOffset (s : Side) (st : MergeState) : Z :=
  match s with
  | SideA => aOffset st
  | SideB => bOffset st
  end.

(** [regions[side]] once the hunks of the group [g] have been folded in. *)
Definition extentOf (lenO lenS : Z) (s : Side) (g : list Hunk) : Extent :=
  fold_left widen (sideHunks s g) (lenS, -1, lenO, -1).

(** [aLhs]/[bLhs] and [aRhs]/[bRhs]: the ends of a side's extent, moved by
    the distance between the region and the side's own base extent. *)
Definition skewLhs (e : Extent) (regionLhs : Z) : Z :=
  let '(r0, _, r2, _) := e in r0 + (regionLhs - r2).

Definition skewRhs (e : Extent) (regionRhs : Z) : Z :=
  let '(_, r1, _, r3) := e in r1 + (regionRhs - r3).

(** [a.length] or [b.length], by side. *)
Definition sideLen (aLen bLen : Z) (s : Side) : Z :=
  match s with
  | SideA => aLen
  | SideB => bLen
  end.

(** The record of a copied common region and the record of a conflict
    carry the span of the base their step consumes. *)
Definition CarriesSpan (s : Step) : Prop :=
  match origin s with
  | Common =>
      exists ai bi,
        emitted s = [okA (length (span s)) ai (Some (location (span s)))
                       (Some bi)]
  | Conflicting => exists aR bR, emitted s = [conflict aR (span s) bR]
  | OneSided _ => True
  end.

(** Ranges with a location and a length that are not negative; lengths of
    at least one for the other records. *)
Definition NonNegativeRange (r : Range) : Prop :=
  0 <= location r /\ 0 <= length r.

Definition NonNegative (i : Index) : Prop :=
  match i with
  | conflict aR oR bR =>
      NonNegativeRange aR /\ NonNegativeRange oR /\ NonNegativeRange bR
  | okA len _ _ _ => 1 <= len
  | okB len _ _ _ => 1 <= len
  end.

(** [r] is the tightest range around the side ranges of the hunks [hs]
    (all of one side), moved outward at each end by the distance from the
    base ranges of those hunks to the ends [lhs] and [rhs] of the region. *)
Definition SkewedCover (hs : list Hunk) (lhs rhs : Z) (r : Range) : Prop :=
  exists lo hi oLo oHi,
    IsMin lo (map (fun h => location (sideRange h)) hs)
    /\ IsMax hi (map (fun h => upperBound (sideRange h)) hs)
    /\ IsMin oLo (map (fun h => location (oRange h)) hs)
    /\ IsMax oHi (map (fun h => upperBound (oRange h)) hs)
    /\ lhs <= oLo /\ oHi <= rhs
    /\ location r = lo - (oLo - lhs)
    /\ upperBound r = hi + (rhs - oHi).

(** [r] is the base range of the group [g]: the tightest range around the
    base ranges of its hunks. *)
Definition GroupRange (g : list Hunk) (r : Range) : Prop :=
  IsMin (location r) (map (fun h => location (oRange h)) g)
  /\ IsMax (upperBound r) (map (fun h => upperBound (oRange h)) g).

(** A group has hunks of both sides. *)
Definition BothSides (g : list Hunk) : Prop :=
  sideHunks SideA g <> [] /\ sideHunks SideB g <> [].

(** All the hunks of a group are of the side [s]. *)
Definition OnlySide (s : Side) (g : list Hunk) : Prop :=
  Forall (fun h => side h = s) g.

(** What the sweep does with one group: the hunks it takes are chained
    from the first, the region ends where they end, every hunk not taken
    starts beyond the region, and the group emits a conflict record exactly
    when it has hunks of both sides. *)
Definition MaximalTouchingGroup (oLen aLen bLen : Z) (it : Iteration)
  : Prop :=
  Chained (upperBound (oRange (first it))) (taken it)
  /\ regionRhs it = regionEnd (upperBound (oRange (first it))) (taken it)
  /\ Forall (fun h => regionRhs it < location (oRange h)) (remaining it)
  /\ (BothSides (group it) ->
      exists aR bR,
        emitted (groupStep oLen aLen bLen it)
        = [conflict aR
             (makeRange (regionLhs it) (regionRhs it - regionLhs it)) bR])
  /\ (~ BothSides (group it) ->
      forall aR oR bR,
        ~ In (conflict aR oR bR) (emitted (groupStep oLen aLen bLen it))).

(** What the sweep does with a group of one side [s]. *)
Definition OneSidedOutcome (oLen aLen bLen : Z) (it : Iteration) (s : Side)
  : Prop :=
  group it = [first it]
  /\ emitted (groupStep oLen aLen bLen it)
     = (if length (sideRange (first it)) >? 0 then
          [match s with
           | SideA =>
               okA (length (sideRange (first it)))
                 (location (sideRange (first it))) None None
           | SideB =>
               okB (length (sideRange (first it))) None None
                 (location (sideRange (first it)))
           end]
        else [])
  /\ oOffset (atGroup it) = regionLhs it
  /\ regionRhs it = upperBound (oRange (first it))
  /\ oOffset (after oLen aLen bLen it) = regionRhs it
  /\ sideOffset s (after oLen aLen bLen it)
     = upperBound (sideRange (first it))
  /\ sideOffset (otherSide s) (after oLen aLen bLen it)
     - sideOffset (otherSide s) (atGroup it)
     = oOffset (after oLen aLen bLen it) - oOffset (atGroup it)
  /\ oOffset (atGroup it) <= oOffset (after oLen aLen bLen it)
  /\ sideOffset s (atGroup it) <= sideOffset s (after oLen aLen bLen it).

(** What the sweep does with a group of both sides. *)
Definition ConflictOutcome (oLen aLen bLen : Z) (it : Iteration) : Prop :=
  exists aR oR bR,
    emitted (groupStep oLen aLen bLen it) = [conflict aR oR bR]
    /\ GroupRange (group it) oR
    /\ SkewedCover (sideHunks SideA (group it)) (location oR)
         (upperBound oR) aR
    /\ SkewedCover (sideHunks SideB (group it)) (location oR)
         (upperBound oR) bR.

(** ** What [diffIndices] returns *)

Section Regions.

Variable T : Type.
Variable undefined : T.

(** The [n] elements of [xs] from [x] and the [n] elements of [ys] from [y]
    are related pairwise. *)
Definition EqualRun (R : T -> T -> Prop) (xs ys : list T) (x y n : Z)
  : Prop :=
  forall k, 0 <= k < n -> R (get undefined xs (x + k)) (get undefined ys (y + k)).

(** The hunks [m] are the changed regions between [xs] from [x] up to [xe]
    and [ys] from [y] up to [ye]: they are in order, they do not overlap,
    none is empty on both sides, and what lies between them (before the
    first, after the last) is as long on one side as on the other and
    related pairwise by [R]. *)
Fixpoint RegionsUpTo (R : T -> T -> Prop) (xs ys : list T) (x y : Z)
  (m : list DiffIndicesResult.t) (xe ye : Z) : Prop :=
  match m with
  | [] => x <= xe /\ xe - x = ye - y /\ EqualRun R xs ys x y (xe - x)
  | h :: m' =>
      x <= location (DiffIndicesResult.a h)
      /\ location (DiffIndicesResult.a h) - x
         = location (DiffIndicesResult.b h) - y
      /\ EqualRun R xs ys x y (location (DiffIndicesResult.a h) - x)
      /\ 0 <= length (DiffIndicesResult.a h)
      /\ 0 <= length (DiffIndicesResult.b h)
      /\ (0 < length (DiffIndicesResult.a h)
          \/ 0 < length (DiffIndicesResult.b h))
      /\ RegionsUpTo R xs ys (upperBound (DiffIndicesResult.a h))
           (upperBound (DiffIndicesResult.b h)) m' xe ye
  end.

(** The hunks [m] are the changed regions between the whole of [xs] and
    the whole of [ys]. *)
Definition ChangedRegions (R : T -> T -> Prop) (xs ys : list T)
  (m : list DiffIndicesResult.t) : Prop :=
  RegionsUpTo R xs ys 0 0 m (zlen xs) (zlen ys).

(** The same, decided, for a relation that is a boolean function. *)
Definition equalRunb (eq : T -> T -> bool) (xs ys : list T) (x y n : Z)
  : bool :=
  forallb
    (fun k =>
       eq (get undefined xs (x + Z.of_nat k))
         (get undefined ys (y + Z.of_nat k)))
    (seq 0 (Z.to_nat n)).

Fixpoint regionsUpTob (eq : T -> T -> bool) (xs ys : list T) (x y : Z)
  (m : list DiffIndicesResult.t) (xe ye : Z) : bool :=
  match m with
  | [] => (x <=? xe) && (xe - x =? ye - y) && equalRunb eq xs ys x y (xe - x)
  | h :: m' =>
      (x <=? location (DiffIndicesResult.a h))
      && (location (DiffIndicesResult.a h) - x
          =? location (DiffIndicesResult.b h) - y)
      && equalRunb eq xs ys x y (location (DiffIndicesResult.a h) - x)
      && (0 <=? length (DiffIndicesResult.a h))
      && (0 <=? length (DiffIndicesResult.b h))
      && ((0 <? length (DiffIndicesResult.a h))
          || (0 <? length (DiffIndicesResult.b h)))
      && regionsUpTob eq xs ys (upperBound (DiffIndicesResult.a h))
           (upperBound (DiffIndicesResult.b h)) m' xe ye
  end.

(** The text a list of pieces deletes from or keeps of the first string,
    and the text it inserts into or keeps of the second. *)
Fixpoint textBefore (pieces : list (DiffOp * list T)) : list T :=
  match pieces with
  | [] => []
  | (EQUAL, str) :: ps => str ++ textBefore ps
  | (DELETE, str) :: ps => str ++ textBefore ps
  | (INSERT, _) :: ps => textBefore ps
  end.

Fixpoint textAfter (pieces : list (DiffOp * list T)) : list T :=
  match pieces with
  | [] => []
  | (EQUAL, str) :: ps => str ++ textAfter ps
  | (INSERT, str) :: ps => str ++ textAfter ps
  | (DELETE, _) :: ps => textAfter ps
  end.

Variable areReferenceEqual : T -> T -> bool.
Variable fastDiff : list T -> list T -> list (DiffOp * list T).
Variable diff_core :
  Z -> Z -> Z -> Z -> (Z -> Z -> bool) -> list (Z * Z * Z * Z).

(** Two elements are the same: they are one value, or [===] holds of
    them. *)
Definition sameElement (x y : T) : Prop :=
  x = y \/ areReferenceEqual x y = true.

(** Two sequences with one identity have the same elements. *)
Definition SameStore (a b : ArrayLike T) : Prop :=
  match a, b with
  | ArraySeq r xs, ArraySeq r' ys => r = r' -> xs = ys
  | _, _ => True
  end.

(** What [diffIndices a b] expects of the differ it calls: of [fastDiff],
    pieces that spell the two strings; of [diff_core], the changed regions
    of the part of the sequences it is given. *)
Definition DifferCorrect (a b : ArrayLike T) : Prop :=
  match a, b with
  | StringSeq s, StringSeq t =>
      textBefore (fastDiff s t) = s /\ textAfter (fastDiff s t) = t
  | _, _ =>
      let xs := elems a in
      let ys := elems b in
      let offset :=
        commonPrefix undefined areReferenceEqual xs ys (List.length xs) 0 in
      let aLength :=
        fst (commonSuffix undefined areReferenceEqual xs ys offset
               (List.length xs) (zlen xs) (zlen ys)) in
      let bLength :=
        snd (commonSuffix undefined areReferenceEqual xs ys offset
               (List.length xs) (zlen xs) (zlen ys)) in
      regionsUpTob areReferenceEqual xs ys offset offset
        (map pushQuad
           (diff_core offset (aLength - offset) offset (bLength - offset)
              (fun i j =>
                 areReferenceEqual (get undefined xs i) (get undefined ys j))))
        aLength bLength = true
  end.

(** Two sequences are equal: one reference, or as long as each other and
    equal element by element under [===]. *)
Definition EqualSequences (a b : ArrayLike T) : Prop :=
  identical areReferenceEqual a b = true
  \/ (zlen (elems a) = zlen (elems b)
      /\ forall k,
          0 <= k < zlen (elems a) ->
          areReferenceEqual (get undefined (elems a) k)
            (get undefined (elems b) k) = true).

(** On two equal strings [fastDiff] answers with pieces tagged [EQUAL]
    only. *)
Definition FastDiffOnEqual (a b : ArrayLike T) : Prop :=
  match a, b with
  | StringSeq s, StringSeq t => Forall (fun p => fst p = EQUAL) (fastDiff s t)
  | _, _ => True
  end.

End Regions.

Arguments EqualRun {T} undefined R xs ys x y n.
Arguments RegionsUpTo {T} undefined R xs ys x y m xe ye.
Arguments ChangedRegions {T} undefined R xs ys m.
Arguments equalRunb {T} undefined eq xs ys x y n.
Arguments regionsUpTob {T} undefined eq xs ys x y m xe ye.
Arguments textBefore {T} pieces.
Arguments textAfter {T} pieces.
Arguments sameElement {T} areReferenceEqual x y.
Arguments SameStore {T} a b.
Arguments DifferCorrect {T} undefined areReferenceEqual fastDiff diff_core
  a b.
Arguments EqualSequences {T} undefined areReferenceEqual a b.
Arguments FastDiffOnEqual {T} fastDiff a b.

(** The relation a boolean predicate decides. *)
Definition Holds {T : Type} (eq : T -> T -> bool) (u v : T) : Prop :=
  eq u v = true.

(** ** The run of [diff3MergeIndices] on three sequences *)

Section OnSequences.

Context {T : Type}.
Variable undefined : T.
Variable areReferenceEqual : T -> T -> bool.
Variable fastDiff : list T -> list T -> list (DiffOp * list T).
Variable diff_core :
  Z -> Z -> Z -> Z -> (Z -> Z -> bool) -> list (Z * Z * Z * Z).
Variables o a b : ArrayLike T.

(** The two diffs against the base are well formed. *)
Definition WellFormedInputs : Prop :=
  WellFormedDiff (zlen (elems o)) (zlen (elems a))
    (diffIndices undefined areReferenceEqual fastDiff diff_core o a)
  /\ WellFormedDiff (zlen (elems o)) (zlen (elems b))
       (diffIndices undefined areReferenceEqual fastDiff diff_core o b).

(** The hunks as [addHunk] collects them, and as the sort leaves them. *)
Definition diff3Tagged : list Hunk :=
  map (fun h => addHunk h SideA)
    (diffIndices undefined areReferenceEqual fastDiff diff_core o a)
  ++ map (fun h => addHunk h SideB)
       (diffIndices undefined areReferenceEqual fastDiff diff_core o b).

Definition diff3Hunks : list Hunk := sortHunks diff3Tagged.

(** The step of a group, and the state after it, with the lengths of the
    three sequences. *)
Definition diff3GroupStep (it : Iteration) : Step :=
  groupStep (zlen (elems o)) (zlen (elems a)) (zlen (elems b)) it.

Definition diff3After (it : Iteration) : MergeState :=
  after (zlen (elems o)) (zlen (elems a)) (zlen (elems b)) it.

End OnSequences.

Definition jsDiff3Steps : ArrayLike JsValue -> ArrayLike JsValue ->
  ArrayLike JsValue -> list Step :=
  diff3Steps JsUndefined strictEquals lcsFastDiff lcsDiffCore.

Definition jsDiff3Iterations : ArrayLike JsValue -> ArrayLike JsValue ->
  ArrayLike JsValue -> list Iteration :=
  diff3Iterations JsUndefined strictEquals lcsFastDiff lcsDiffCore.

(** Three arrays in which one side deletes an element. *)
Definition deletionBase : ArrayLike JsValue := ArraySeq 1 (numbers [1; 2; 3]).
Definition deletionA : ArrayLike JsValue := ArraySeq 2 (numbers [1; 3]).
Definition deletionB : ArrayLike JsValue := ArraySeq 3 (numbers [1; 2; 3]).

(** Three arrays in which the two sides delete neighbouring elements. *)
Definition touchingBase : ArrayLike JsValue := ArraySeq 1 (numbers [1; 2; 3]).
Definition touchingA : ArrayLike JsValue := ArraySeq 2 (numbers [1; 2]).
Definition touchingB : ArrayLike JsValue := ArraySeq 3 (numbers [1; 3]).

(** Three arrays in which both sides move elements. *)
Definition movesBase : ArrayLike JsValue :=
  ArraySeq 1 (numbers [1; 2; 3; 4; 5; 6]).
Definition movesA : ArrayLike JsValue :=
  ArraySeq 2 (numbers [1; 5; 2; 3; 4; 6]).
Definition movesB : ArrayLike JsValue :=
  ArraySeq 3 (numbers [2; 3; 4; 1; 5; 6]).

(** Three arrays in which one side deletes and the other inserts, apart. *)
Definition editsBase : ArrayLike JsValue := ArraySeq 1 (numbers [1; 2; 3]).
Definition editsA : ArrayLike JsValue := ArraySeq 2 (numbers [2; 3]).
Definition editsB : ArrayLike JsValue := ArraySeq 3 (numbers [1; 2; 4; 3]).

(** An array equal to [deletionBase], element by element. *)
Definition deletionCopy : ArrayLike JsValue := ArraySeq 4 (numbers [1; 2; 3]).

(** * The structural merge

    [src/json-diff3.ts] and [src/json.ts] are not among the sources; only
    the tests of [diff3] are.  What follows models them from the
    specification (sections 3, 4.3, 4.4, 6 and 7). *)

(** Modelled from the spec: the tree values of [json.ts] (section 3,
    "Tree value").  Numbers are the integers; an object is the list of its
    fields in insertion order. *)
#[warnings="-register-all"]
Inductive Value : Type :=
| VNull
| VBool (b : bool)
| VNumber (n : Z)
| VString (s : string)
| VArray (items : list Value)
| VObject (fields : list (string * Value)).

(** Modelled from the spec: deep structural equality (section 4.4,
    "equality = deep structural equality").  Arrays compare item by item;
    objects compare by key, not by position. *)
Fixpoint valueEqb (v w : Value) {struct v} : bool :=
  match v, w with
  | VNull, VNull => true
  | VBool b, VBool c => Bool.eqb b c
  | VNumber n, VNumber m => n =? m
  | VString s, VString t => String.eqb s t
  | VArray xs, VArray ys =>
      (fix all2 (xs ys : list Value) {struct xs} : bool :=
         match xs, ys with
         | [], [] => true
         | x :: xs', y :: ys' => valueEqb x y && all2 xs' ys'
         | _, _ => false
         end) xs ys
  | VObject fs, VObject gs =>
      Nat.eqb (List.length fs) (List.length gs)
      && (fix each (fs : list (string * Value)) {struct fs} : bool :=
            match fs with
            | [] => true
            | (k, x) :: fs' =>
                (fix find (gs : list (string * Value)) {struct gs} : bool :=
                   match gs with
                   | [] => false
                   | (k', y) :: gs' =>
                       if String.eqb k k' then valueEqb x y else find gs'
                   end) gs
                && each fs'
            end) fs
  | _, _ => false
  end.

(** Modelled from the spec: equality of values that may be missing, "key
    absence is modeled as a distinguished missing value" (section 4.4). *)
Definition optionEqb (v w : option Value) : bool :=
  match v, w with
  | None, None => true
  | Some x, Some y => valueEqb x y
  | _, _ => false
  end.

(** Modelled from the spec: [MergeOptions] (section 3). *)
Record MergeOptions : Type := mkOptions {
  getArrayItemKey : option (Value -> string)
}.

(** Modelled from the spec: the two error kinds (section 7). *)
Inductive MergeError : Type :=
| ConflictError (path : list string)
| DuplicateKeyError (key : string) (path : list string).

Inductive Outcome (A : Type) : Type :=
| Merged (v : A)
| Failed (e : MergeError).

Arguments Merged {A} v.
Arguments Failed {A} e.

(** Modelled from the spec: a path is rendered as its segments joined by
    [/], the root being [/] (section 3, "Path"). *)
Definition renderPath (path : list string) : string :=
  match path with
  | [] => "/"%string
  | _ :: _ => String.concat "" (map (fun s => ("/" ++ s)%string) path)
  end.

(** Modelled from the spec: the two message formats (section 6). *)
Definition errorMessage (e : MergeError) : string :=
  match e with
  | ConflictError path => ("Conflict at " ++ renderPath path)%string
  | DuplicateKeyError key path =>
      ("Duplicate array key '" ++ key ++ "' at " ++ renderPath path)%string
  end.

Definition decimal (n : Z) : string := NilZero.string_of_int (Z.to_int n).

Definition quote : string := String (ascii_of_nat 34) EmptyString.

(** Modelled from the spec: the default key of an array item, "the item's
    own value under a canonical string representation" (section 4.3); items
    that are not primitives have none (section 9, open question). *)
Definition canonical (v : Value) : option string :=
  match v with
  | VNull => Some "null"%string
  | VBool true => Some "true"%string
  | VBool false => Some "false"%string
  | VNumber n => Some (decimal n)
  | VString s => Some (quote ++ s ++ quote)%string
  | VArray _ | VObject _ => None
  end.

(** Modelled from the spec: the identity key of an item (section 4.3). *)
Definition itemKey (options : MergeOptions) (item : Value) : option string :=
  match getArrayItemKey options with
  | Some extractor => Some (extractor item)
  | None => canonical item
  end.

(** Modelled from the spec: the keys of the items of an array, none when an
    item has no key. *)
Fixpoint keysOf (options : MergeOptions) (items : list Value)
  : option (list string) :=
  match items with
  | [] => Some []
  | item :: items' =>
      match itemKey options item, keysOf options items' with
      | Some k, Some ks => Some (k :: ks)
      | _, _ => None
      end
  end.

Definition hasKey (k : string) (ks : list string) : bool :=
  existsb (String.eqb k) ks.

(** Modelled from the spec: the duplicate detection of ArrayItemMatcher
    (section 4.3); it reports the first key met a second time. *)
Fixpoint firstDuplicateFrom (seen : list string) (keys : list string)
  : option string :=
  match keys with
  | [] => None
  | k :: keys' =>
      if hasKey k seen then Some k else firstDuplicateFrom (k :: seen) keys'
  end.

Definition firstDuplicate (keys : list string) : option string :=
  firstDuplicateFrom [] keys.

Fixpoint lookupKey {A : Type} (k : string) (kvs : list (string * A))
  : option A :=
  match kvs with
  | [] => None
  | (k', v) :: kvs' => if String.eqb k k' then Some v else lookupKey k kvs'
  end.

(** [===] on the keys of a sequence; [None] is [undefined]. *)
Definition keyEqb (k k' : option string) : bool :=
  match k, k' with
  | Some s, Some t => String.eqb s t
  | None, None => true
  | _, _ => false
  end.

Definition slice {A : Type} (l : list A) (r : Range) : list A :=
  firstn (Z.to_nat (length r)) (skipn (Z.to_nat (location r)) l).

(** Modelled from the spec: the merges of a list of items run in order;
    the first failure is the failure of the whole (section 7, fail-fast),
    and a merge that yields nothing drops the item. *)
Fixpoint collect {K : Type} (rs : list (K * Outcome (option Value)))
  : Outcome (list (K * Value)) :=
  match rs with
  | [] => Merged []
  | (k, Failed e) :: _ => Failed e
  | (k, Merged None) :: rs' => collect rs'
  | (k, Merged (Some v)) :: rs' =>
      match collect rs' with
      | Merged vs => Merged ((k, v) :: vs)
      | Failed e => Failed e
      end
  end.

Definition fieldsOf (v : option Value) : list (string * Value) :=
  match v with
  | Some (VObject fields) => fields
  | _ => []
  end.

Definition itemsOf (v : option Value) : list Value :=
  match v with
  | Some (VArray items) => items
  | _ => []
  end.

Section Structural.

Variable options : MergeOptions.

(** The three-way merge of what lies under the current node. *)
Variable recur :
  list string -> option Value -> option Value -> option Value ->
  Outcome (option Value).

(** Modelled from the spec: the object merge (section 4.4).  The keys of
    [o] come first, then those only [a] added, then those only [b] added;
    an absent key is a missing value in the three-way comparison. *)
Definition mergeObject (path : list string)
  (fo fa fb : list (string * Value)) : Outcome Value :=
  let ko := map fst fo in
  let ka := filter (fun k => negb (hasKey k ko)) (map fst fa) in
  let kb :=
    filter (fun k => negb (hasKey k ko) && negb (hasKey k (map fst fa)))
      (map fst fb) in
  match
    collect
      (map
         (fun k =>
            (k, recur (path ++ [k]) (lookupKey k fo) (lookupKey k fa)
                  (lookupKey k fb)))
         (ko ++ ka ++ kb))
  with
  | Merged fields => Merged (VObject fields)
  | Failed e => Failed e
  end.

(** Modelled from the spec: an item that one side brings is kept as it is,
    unless the other side has an item of the same identity and another
    value, which is merged with it against the item of that identity in [o]
    (section 4.4, the [okA]/[okB] segments). *)
Definition mergeItem (path : list string) (kvo : list (string * Value))
  (k : string) (fromA fromB : option Value) : Outcome (option Value) :=
  match fromA, fromB with
  | Some x, Some y =>
      if valueEqb x y then Merged (Some x)
      else recur (path ++ [k]) (lookupKey k kvo) (Some x) (Some y)
  | Some x, None => Merged (Some x)
  | None, Some y => Merged (Some y)
  | None, None => Merged None
  end.

(** Modelled from the spec: the items one [Index] record stands for
    (section 4.4, "Reconstruct the output array by walking the Index
    list"). *)
Definition mergeSegment (path : list string)
  (kvo kva kvb : list (string * Value)) (i : Index)
  : list (string * Outcome (option Value)) :=
  match i with
  | okA len aIndex _ _ =>
      map
        (fun kx =>
           (fst kx,
            mergeItem path kvo (fst kx) (Some (snd kx))
              (lookupKey (fst kx) kvb)))
        (slice kva (makeRange aIndex len))
  | okB len _ _ bIndex =>
      map
        (fun ky =>
           (fst ky,
            mergeItem path kvo (fst ky) (lookupKey (fst ky) kva)
              (Some (snd ky))))
        (slice kvb (makeRange bIndex len))
  | conflict aRange oRange bRange =>
      let subA := slice kva aRange in
      let subO := slice kvo oRange in
      let subB := slice kvb bRange in
      map
        (fun kx =>
           (fst kx,
            match lookupKey (fst kx) subB with
            | Some y => mergeItem path kvo (fst kx) (Some (snd kx)) (Some y)
            | None =>
                if hasKey (fst kx) (map fst subO) then Merged None
                else Merged (Some (snd kx))
            end))
        subA
      ++ map
           (fun ky =>
              (fst ky,
               if hasKey (fst ky) (map fst subO) then Merged None
               else Merged (Some (snd ky))))
           (filter (fun ky => negb (hasKey (fst ky) (map fst subA))) subB)
  end.

(** Modelled from the spec: the array merge (sections 4.3 and 4.4).  The
    keys of the three arrays are resolved and checked for duplicates before
    anything is merged; [diff3MergeIndices] then runs over the three
    sequences of keys. *)
Definition mergeArray (path : list string) (io ia ib : list Value)
  : Outcome Value :=
  match keysOf options io, keysOf options ia, keysOf options ib with
  | Some ko, Some ka, Some kb =>
      match firstDuplicate ko, firstDuplicate ka, firstDuplicate kb with
      | Some k, _, _ => Failed (DuplicateKeyError k path)
      | None, Some k, _ => Failed (DuplicateKeyError k path)
      | None, None, Some k => Failed (DuplicateKeyError k path)
      | None, None, None =>
          let indices :=
            diff3MergeIndices None keyEqb (fun _ _ => [])
              lcsDiffCore (ArraySeq 1 (map Some ko)) (ArraySeq 2 (map Some ka))
              (ArraySeq 3 (map Some kb)) in
          match
            collect
              (flat_map
                 (mergeSegment path (combine ko io) (combine ka ia)
                    (combine kb ib))
                 indices)
          with
          | Merged items => Merged (VArray (map snd items))
          | Failed e => Failed e
          end
      end
  | _, _, _ => Failed (ConflictError path)
  end.

End Structural.

(** Modelled from the spec: the dispatch of [diff3] at one node (section
    4.4, the table).  [fuel] bounds the depth of the recursion. *)
Fixpoint merge3 (fuel : nat) (options : MergeOptions) (path : list string)
  (o a b : option Value) : Outcome (option Value) :=
  match fuel with
  | O => Failed (ConflictError path)
  | S fuel' =>
      if optionEqb a o then
        if optionEqb b o then Merged o else Merged b
      else if optionEqb b o then Merged a
      else if optionEqb a b then Merged a
      else
        match a, b with
        | Some (VObject fa), Some (VObject fb) =>
            match
              mergeObject (merge3 fuel' options) path (fieldsOf o) fa fb
            with
            | Merged v => Merged (Some v)
            | Failed e => Failed e
            end
        | Some (VArray ia), Some (VArray ib) =>
            match
              mergeArray options (merge3 fuel' options) path (itemsOf o) ia ib
            with
            | Merged v => Merged (Some v)
            | Failed e => Failed e
            end
        | _, _ => Failed (ConflictError path)
        end
  end.

Fixpoint depth (v : Value) : nat :=
  match v with
  | VArray items => S (fold_right (fun x d => Nat.max (depth x) d) O items)
  | VObject fields =>
      S (fold_right (fun kx d => Nat.max (depth (snd kx)) d) O fields)
  | _ => O
  end.

(** Modelled from the spec: [diff3(o, a, b, options)] (section 6), the
    merge at the root path; the recursion is given the depth of the three
    values, which is as deep as it can go. *)
Definition diff3 (o a b : Value) (options : MergeOptions) : Outcome Value :=
  match
    merge3 (S (Nat.max (depth o) (Nat.max (depth a) (depth b)))) options []
      (Some o) (Some a) (Some b)
  with
  | Merged (Some v) => Merged v
  | Merged None => Failed (ConflictError [])
  | Failed e => Failed e
  end.

(** An array of [v], at any depth, has two items with one identity key. *)
Fixpoint hasDuplicateArray (options : MergeOptions) (v : Value) : bool :=
  match v with
  | VArray items =>
      match keysOf options items with
      | Some ks =>
          match firstDuplicate ks with
          | Some _ => true
          | None => false
          end
      | None => false
      end
      || existsb (hasDuplicateArray options) items
  | VObject fields =>
      existsb (fun kx => hasDuplicateArray options (snd kx)) fields
  | _ => false
  end.

Definition numberArray (l : list Z) : Value := VArray (map VNumber l).

Definition noOptions : MergeOptions := mkOptions None.

(** The keys [ks] have a duplicate. *)
Definition hasDuplicateKey (ks : list string) : bool :=
  match firstDuplicate ks with
  | Some _ => true
  | None => false
  end.

(** [k] stands at two positions of [ks]. *)
Definition OccursTwice (k : string) (ks : list string) : Prop :=
  exists l1 l2 l3, ks = l1 ++ k :: l2 ++ k :: l3.

Definition helloWorld (h w : Z) : Value :=
  VObject [("hello"%string, VNumber h); ("world"%string, VNumber w)].

Definition worldHello (h w : Z) : Value :=
  VObject [("world"%string, VNumber w); ("hello"%string, VNumber h)].

(** The extractor of the keyed scenarios: the [id] of an object. *)
Definition idKey (item : Value) : string :=
  match item with
  | VObject fields =>
      match lookupKey "id" fields with
      | Some (VNumber n) => decimal n
      | Some (VString s) => s
      | _ => "undefined"%string
      end
  | _ => "undefined"%string
  end.

Definition byId : MergeOptions := mkOptions (Some idKey).

Definition withId (n : Z) : Value := VObject [("id"%string, VNumber n)].

Definition named (s : string) (value : list Z) : Value :=
  VObject
    (("id"%string, VString s)
     :: map (fun v => ("value"%string, VNumber v)) value).

(** * Further properties: definitions *)

(** Every index and range of a record lies within the sequence it points
    into. *)
Definition RangeWithin (len : Z) (r : Range) : Prop :=
  0 <= location r /\ 0 <= length r /\ upperBound r <= len.

Definition IndexWithin (len n : Z) (i : option Z) : Prop :=
  match i with
  | Some x => 0 <= x /\ x + n <= len
  | None => True
  end.

Definition WithinBounds (oLen aLen bLen : Z) (i : Index) : Prop :=
  match i with
  | conflict aR oR bR =>
      RangeWithin aLen aR /\ RangeWithin oLen oR /\ RangeWithin bLen bR
  | okA len ai oi bi =>
      0 <= len /\ IndexWithin aLen len (Some ai) /\ IndexWithin oLen len oi
      /\ IndexWithin bLen len bi
  | okB len ai oi bi =>
      0 <= len /\ IndexWithin aLen len ai /\ IndexWithin oLen len oi
      /\ IndexWithin bLen len (Some bi)
  end.

(** The range of the sequence of side [s] that a record points at, when it
    points at one. *)
Definition recordRange (s : Side) (i : Index) : option Range :=
  match i, s with
  | conflict aR _ _, SideA => Some aR
  | conflict _ _ bR, SideB => Some bR
  | okA len ai _ _, SideA => Some (makeRange ai len)
  | okA len _ _ bi, SideB => option_map (fun x => makeRange x len) bi
  | okB len ai _ _, SideA => option_map (fun x => makeRange x len) ai
  | okB len _ _ bi, SideB => Some (makeRange bi len)
  end.

(** The diff of [o] against the side [s]. *)
Definition sideDiff (s : Side) (m1 m2 : list DiffIndicesResult.t)
  : list DiffIndicesResult.t :=
  match s with
  | SideA => m1
  | SideB => m2
  end.

(** The base ranges of two hunks touch: each starts at or before the end
    of the other. *)
Definition Touching (h h' : DiffIndicesResult.t) : Prop :=
  location (DiffIndicesResult.a h) <= upperBound (DiffIndicesResult.a h')
  /\ location (DiffIndicesResult.a h') <= upperBound (DiffIndicesResult.a h).

Definition isConflict (i : Index) : bool :=
  match i with
  | conflict _ _ _ => true
  | _ => false
  end.

(** A record that carries the changed content of the side [s]: an [okA]
    without [oIndex] for side a, an [okB] for side b. *)
Definition isChangeOf (s : Side) (i : Index) : bool :=
  match i, s with
  | okA _ _ None _, SideA => true
  | okB _ _ _ _, SideB => true
  | _, _ => false
  end.

(** What the records are when only the side [s] has changed: no conflict,
    no content of the other side, and ranges of side [s] that cover it
    from 0 to its length. *)
Definition PassesThrough (s : Side) (sLen : Z) (records : list Index)
  : Prop :=
  Forall
    (fun r => isConflict r = false /\ isChangeOf (otherSide s) r = false)
    records
  /\ exists rs,
      map (recordRange s) records = map Some rs /\ Covers rs 0 sLen.

(** The sequence of side [s]. *)
Definition sideSeq {T : Type} (xs ys : list T) (s : Side) : list T :=
  match s with
  | SideA => xs
  | SideB => ys
  end.

(** A record that copies a common region points at elements of [a] and of
    [b] that are those of [o], one by one. *)
Definition CopiesCommon {T : Type} (undefined : T) (R : T -> T -> Prop)
  (os xs ys : list T) (i : Index) : Prop :=
  match i with
  | okA len ai (Some oi) (Some bi) =>
      EqualRun undefined R os xs oi ai len
      /\ EqualRun undefined R os ys oi bi len
  | _ => True
  end.

(** The hunks of side [s] still to merge are the changed regions of [o]
    and of that side from the offsets on. *)
Definition SideRegions {T : Type} (undefined : T) (R : T -> T -> Prop)
  (os ss : list T) (s : Side) (st : MergeState) (hs : list Hunk) : Prop :=
  RegionsUpTo undefined R os ss (oOffset st) (sideOffset s st)
    (map toDiff (sideHunks s hs)) (zlen os) (zlen ss).

(** A diff of [x] against [y] by a correct differ, with hunks that are
    apart. *)
Definition CorrectDiff {T : Type} (undefined : T)
  (areReferenceEqual : T -> T -> bool)
  (fastDiff : list T -> list T -> list (DiffOp * list T))
  (diff_core : Z -> Z -> Z -> Z -> (Z -> Z -> bool) -> list (Z * Z * Z * Z))
  (x y : ArrayLike T) : Prop :=
  SameStore x y
  /\ DifferCorrect undefined areReferenceEqual fastDiff diff_core x y
  /\ Separated (diffIndices undefined areReferenceEqual fastDiff diff_core x y).

(** No piece tagged [EQUAL] is empty. *)
Definition EqualPiecesNonEmpty {T : Type} (pieces : list (DiffOp * list T))
  : Prop :=
  Forall (fun p => fst p = EQUAL -> snd p <> []) pieces.

(** What [diffIndicesArray] leaves for the differ: the part of [xs] between
    [offset] and [aLength] and the part of [ys] between [offset] and
    [bLength].  What is stripped before and after pairs up under
    [areEqual]; the part is not empty on both sides; and when it is empty
    on neither, its first elements differ and its last elements differ. *)
Definition StrippedMiddle {T : Type} (undefined : T)
  (areEqual : T -> T -> bool) (xs ys : list T) (offset aLength bLength : Z)
  : Prop :=
  0 <= offset <= aLength /\ aLength <= zlen xs
  /\ offset <= bLength <= zlen ys
  /\ zlen xs - aLength = zlen ys - bLength
  /\ (offset < aLength \/ offset < bLength)
  /\ (offset < aLength -> offset < bLength ->
      areEqual (get undefined xs offset) (get undefined ys offset) = false
      /\ areEqual (get undefined xs (aLength - 1))
           (get undefined ys (bLength - 1)) = false)
  /\ EqualRun undefined (Holds areEqual) xs ys 0 0 offset
  /\ EqualRun undefined (Holds areEqual) xs ys aLength bLength
       (zlen xs - aLength).

(** An empty array and an array of two numbers. *)
Definition emptyArray : ArrayLike JsValue := ArraySeq 1 [].
Definition pairArray : ArrayLike JsValue := ArraySeq 2 (numbers [1; 2]).
Definition otherPair : ArrayLike JsValue := ArraySeq 3 (numbers [3; 4]).

(** The ranges of the sequence of side [s] that the records point at, in
    the order of the records. *)
Definition sideRanges (s : Side) (records : list Index) : list Range :=
  flat_map
    (fun i =>
       match recordRange s i with
       | Some r => [r]
       | None => []
       end)
    records.

(** The ranges [rs] lie between [from] and [to], each at or after the end of
    the one before it: they are in order and do not overlap, but may leave
    gaps. *)
Fixpoint InOrder (rs : list Range) (from to : Z) : Prop :=
  match rs with
  | [] => from <= to
  | r :: rs' =>
      from <= location r /\ 0 <= length r /\ InOrder rs' (upperBound r) to
  end.

(** A record that copies a common region: an [okA] with [oIndex]. *)
Definition isCommon (i : Index) : bool :=
  match i with
  | okA _ _ (Some _) _ => true
  | _ => false
  end.

(** Three strings: a base and two edits of it. *)
Definition textBase : ArrayLike JsValue := StringSeq (letters "abcdef").
Definition textA : ArrayLike JsValue := StringSeq (letters "abXdf").
Definition textB : ArrayLike JsValue := StringSeq (letters "abcdeYf").

(** The range [r] lies within the range [r']. *)
Definition RangeInside (r r' : Range) : Prop :=
  location r' <= location r /\ upperBound r <= upperBound r'.

(** The range of the side [s] in a conflict record. *)
Definition conflictRange (s : Side) (aR bR : Range) : Range :=
  match s with
  | SideA => aR
  | SideB => bR
  end.

(** The hunk [h] touches a hunk of the diff [m]. *)
Definition TouchesOneOf (h : DiffIndicesResult.t)
  (m : list DiffIndicesResult.t) : Prop :=
  exists h', In h' m /\ Touching h h'.

(** A conflict record among [records] holds the hunk [h] of the side [s]:
    the base range of [h] lies within its [oRange] and the side range of
    [h] within its range of [s]. *)
Definition HeldByConflict (s : Side) (h : DiffIndicesResult.t)
  (records : list Index) : Prop :=
  exists aR oR bR,
    In (conflict aR oR bR) records
    /\ RangeInside (DiffIndicesResult.a h) oR
    /\ RangeInside (DiffIndicesResult.b h) (conflictRange s aR bR).

(** The base range of the first hunk ends before that of the second
    starts. *)
Definition Apart (g h : DiffIndicesResult.t) : Prop :=
  upperBound (DiffIndicesResult.a g) < location (DiffIndicesResult.a h).

(** Of two consecutive records one at least copies a common region. *)
Fixpoint CommonBetween (records : list Index) : Prop :=
  match records with
  | r :: ((r' :: _) as rest) =>
      (isCommon r = true \/ isCommon r' = true) /\ CommonBetween rest
  | _ => True
  end.

(** The first record, when there is one, copies a common region. *)
Definition StartsCommon (records : list Index) : Prop :=
  match records with
  | [] => True
  | r :: _ => isCommon r = true
  end.

(** The record [r] carries the side range of the hunk [h] of the side [s],
    and the base elements that [h] replaces stand unchanged in the other
    side [ts], as a run of [ts] from some position [k]. *)
Definition ReplacesUnchanged {T : Type} (undefined : T)
  (R : T -> T -> Prop) (os ts : list T) (s : Side) (r : Index)
  (h : DiffIndicesResult.t) (k : Z) : Prop :=
  singleRecords (addHunk h s) = [r]
  /\ 0 <= k
  /\ k + length (DiffIndicesResult.a h) <= zlen ts
  /\ EqualRun undefined R os ts (location (DiffIndicesResult.a h)) k
       (length (DiffIndicesResult.a h)).

(** The iterations [its] are those of the outer loop run from the state
    [st]: each starts in the state the one before it ends in, and [final]
    is the state the last one ends in. *)
Fixpoint RunsFrom (oLen aLen bLen : Z) (st : MergeState)
  (its : list Iteration) (final : MergeState) : Prop :=
  match its with
  | [] => final = st
  | it :: rest =>
      before it = st
      /\ RunsFrom oLen aLen bLen (after oLen aLen bLen it) rest final
  end.

(** The state of [diff3MergeIndices o a b] when its outer loop is done,
    before the last [copyCommon]. *)
Definition diff3Final {T : Type} (undefined : T)
  (areReferenceEqual : T -> T -> bool)
  (fastDiff : list T -> list T -> list (DiffOp * list T))
  (diff_core : Z -> Z -> Z -> Z -> (Z -> Z -> bool) -> list (Z * Z * Z * Z))
  (o a b : ArrayLike T) : MergeState :=
  sweep (zlen (elems o)) (zlen (elems a)) (zlen (elems b))
    (List.length
       (diff3Hunks undefined areReferenceEqual fastDiff diff_core o a b))
    (mkState [] 0 0 0)
    (diff3Hunks undefined areReferenceEqual fastDiff diff_core o a b).

(** An array with [NaN], which [===] does not hold equal to itself, and a
    second array with the same elements. *)
Definition nanArray : ArrayLike JsValue := ArraySeq 1 [JsNaN; JsNumber 1].
Definition nanCopy : ArrayLike JsValue := ArraySeq 2 [JsNaN; JsNumber 1].
(** * Properties of the sweep *)

(** ** The inner loop *)

Lemma extendRegion_split (rest : list Hunk) :
  forall rhs,
    rest = snd (fst (extendRegion rhs rest)) ++ snd (extendRegion rhs rest).
Proof.
  induction rest as [|h rest IH]; intros rhs; simpl; [reflexivity|].
  destruct (location (oRange h) >? rhs) eqn:E; simpl; [reflexivity|].
  specialize (IH (Z.max rhs (upperBound (oRange h)))).
  destruct (extendRegion (Z.max rhs (upperBound (oRange h))) rest)
    as [[r tk] rem]; simpl in *.
  now rewrite <- IH.
Qed.

Lemma extendRegion_chained (rest : list Hunk) :
  forall rhs, Chained rhs (snd (fst (extendRegion rhs rest))).
Proof.
  induction rest as [|h rest IH]; intros rhs; simpl; [exact I|].
  destruct (location (oRange h) >? rhs) eqn:E; simpl; [exact I|].
  specialize (IH (Z.max rhs (upperBound (oRange h)))).
  destruct (extendRegion (Z.max rhs (upperBound (oRange h))) rest)
    as [[r tk] rem]; simpl in *.
  split; [lia | exact IH].
Qed.

Lemma extendRegion_end (rest : list Hunk) :
  forall rhs,
    fst (fst (extendRegion rhs rest))
    = regionEnd rhs (snd (fst (extendRegion rhs rest))).
Proof.
  induction rest as [|h rest IH]; intros rhs; simpl; [reflexivity|].
  destruct (location (oRange h) >? rhs) eqn:E; simpl; [reflexivity|].
  specialize (IH (Z.max rhs (upperBound (oRange h)))).
  destruct (extendRegion (Z.max rhs (upperBound (oRange h))) rest)
    as [[r tk] rem]; simpl in *.
  exact IH.
Qed.

Lemma extendRegion_maximal (rest : list Hunk) :
  forall rhs,
    match snd (extendRegion rhs rest) with
    | [] => True
    | h :: _ => fst (fst (extendRegion rhs rest)) < location (oRange h)
    end.
Proof.
  induction rest as [|h rest IH]; intros rhs; simpl; [exact I|].
  destruct (location (oRange h) >? rhs) eqn:E; simpl; [lia|].
  specialize (IH (Z.max rhs (upperBound (oRange h)))).
  destruct (extendRegion (Z.max rhs (upperBound (oRange h))) rest)
    as [[r tk] rem]; simpl in *.
  exact IH.
Qed.

Lemma regionEnd_ge (hs : list Hunk) : forall rhs, rhs <= regionEnd rhs hs.
Proof.
  unfold regionEnd.
  induction hs as [|h hs IH]; intros rhs; simpl; [lia|].
  specialize (IH (Z.max rhs (upperBound (oRange h)))). lia.
Qed.

Lemma extendRegion_shorter (rest : list Hunk) (rhs : Z) :
  (List.length (snd (extendRegion rhs rest)) <= List.length rest)%nat.
Proof.
  rewrite (extendRegion_split rest rhs) at 2.
  rewrite length_app. lia.
Qed.

(** ** The shape of one iteration *)

Lemma mergeGroup_unfold (oLen aLen bLen : Z) (it : Iteration) :
  mergeGroup oLen aLen bLen (before it) (first it) (following it)
  = (match taken it with
     | [] => mergeSingle (regionRhs it) (first it) (atGroup it)
     | _ :: _ =>
         mergeConflict oLen aLen bLen (regionLhs it) (regionRhs it)
           (group it) (atGroup it)
     end, remaining it).
Proof.
  unfold mergeGroup, taken, regionRhs, remaining, group, atGroup, regionLhs,
    taken.
  destruct (extendRegion (upperBound (oRange (first it))) (following it))
    as [[r tk] rem]; simpl.
  destruct tk; reflexivity.
Qed.

Lemma after_unfold (oLen aLen bLen : Z) (it : Iteration) :
  after oLen aLen bLen it
  = match taken it with
    | [] => mergeSingle (regionRhs it) (first it) (atGroup it)
    | _ :: _ =>
        mergeConflict oLen aLen bLen (regionLhs it) (regionRhs it)
          (group it) (atGroup it)
    end.
Proof. unfold after. now rewrite mergeGroup_unfold. Qed.

Lemma sweep_unfold (oLen aLen bLen : Z) (fuel : nat) (st : MergeState)
  (hunk : Hunk) (rest : list Hunk) :
  sweep oLen aLen bLen (S fuel) st (hunk :: rest)
  = sweep oLen aLen bLen fuel (after oLen aLen bLen (mkIteration st hunk rest))
      (remaining (mkIteration st hunk rest)).
Proof.
  pose proof (mergeGroup_unfold oLen aLen bLen (mkIteration st hunk rest)) as E.
  cbn [before first following] in E.
  cbn [sweep]. unfold after. cbn [before first following].
  rewrite E. reflexivity.
Qed.

(** ** Records are only appended *)

Lemma skipn_length_app {A : Type} (l l' : list A) :
  skipn (List.length l) (l ++ l') = l'.
Proof. induction l; simpl; auto. Qed.

Lemma copyCommon_result (targetOffset : Z) (st : MergeState) :
  result (copyCommon targetOffset st)
  = result st ++ flat_map emitted (commonSteps targetOffset st).
Proof.
  unfold commonSteps, copyCommon.
  destruct (targetOffset - oOffset st >? 0); simpl.
  - unfold newRecords; simpl. now rewrite skipn_length_app, app_nil_r.
  - now rewrite app_nil_r.
Qed.

Lemma mergeSingle_result (rhs : Z) (hunk : Hunk) (st : MergeState) :
  result (mergeSingle rhs hunk st) = result st ++ singleRecords hunk.
Proof.
  unfold mergeSingle, singleRecords.
  destruct (length (sideRange hunk) >? 0); simpl.
  - destruct (side hunk); reflexivity.
  - now rewrite app_nil_r.
Qed.

Lemma mergeConflict_result (oLen aLen bLen lhs rhs : Z) (g : list Hunk)
  (st : MergeState) :
  exists aR bR,
    result (mergeConflict oLen aLen bLen lhs rhs g st)
    = result st ++ [conflict aR (makeRange lhs (rhs - lhs)) bR].
Proof.
  unfold mergeConflict.
  destruct (regions_a _) as [[[a0 a1] a2] a3].
  destruct (regions_b _) as [[[b0 b1] b2] b3].
  simpl. eauto.
Qed.

Lemma after_result (oLen aLen bLen : Z) (it : Iteration) :
  result (after oLen aLen bLen it)
  = result (atGroup it) ++ emitted (groupStep oLen aLen bLen it).
Proof.
  unfold groupStep; simpl. unfold newRecords.
  rewrite after_unfold. destruct (taken it).
  - rewrite mergeSingle_result. now rewrite skipn_length_app.
  - destruct (mergeConflict_result oLen aLen bLen (regionLhs it)
                (regionRhs it) (group it) (atGroup it)) as (aR & bR & E).
    rewrite E. now rewrite skipn_length_app.
Qed.

Lemma sweep_result (oLen aLen bLen : Z) (fuel : nat) :
  forall st hunks,
    result (sweep oLen aLen bLen fuel st hunks)
    = result st
      ++ flat_map emitted
           (flat_map
              (fun it =>
                 commonSteps (regionLhs it) (before it)
                 ++ [groupStep oLen aLen bLen it])
              (iterations oLen aLen bLen fuel st hunks)).
Proof.
  induction fuel as [|fuel IH]; intros st hunks.
  - simpl. now rewrite app_nil_r.
  - destruct hunks as [|hunk rest]; [simpl; now rewrite app_nil_r|].
    rewrite sweep_unfold, IH. cbn [iterations flat_map].
    rewrite after_result. unfold atGroup at 1.
    rewrite copyCommon_result. cbn [before].
    rewrite !flat_map_app. cbn [flat_map]. rewrite app_nil_r.
    now rewrite <- !app_assoc.
Qed.

(** The records of the steps, in order, are the list the program returns. *)
Lemma mergeSteps_records (oLen aLen bLen : Z)
  (m1 m2 : list DiffIndicesResult.t) :
  flat_map emitted (mergeSteps oLen aLen bLen m1 m2)
  = mergeHunks oLen aLen bLen m1 m2.
Proof.
  unfold mergeSteps, mergeHunks, mergeIterations, sortedHunks.
  rewrite copyCommon_result, sweep_result, flat_map_app. reflexivity.
Qed.

(** ** The records of each kind of step *)

Lemma commonSteps_shape (targetOffset : Z) (st : MergeState) :
  commonSteps targetOffset st = []
  /\ targetOffset - oOffset st <= 0
  /\ copyCommon targetOffset st = st
  \/ commonSteps targetOffset st
     = [mkStep Common (makeRange (oOffset st) (targetOffset - oOffset st))
          [okA (targetOffset - oOffset st) (aOffset st) (Some (oOffset st))
             (Some (bOffset st))]]
     /\ 0 < targetOffset - oOffset st.
Proof.
  unfold commonSteps, copyCommon, newRecords.
  destruct (targetOffset - oOffset st >? 0) eqn:E.
  - right. simpl. rewrite skipn_length_app. split; [reflexivity | lia].
  - left. repeat split. lia.
Qed.

Lemma groupStep_single (oLen aLen bLen : Z) (it : Iteration) :
  taken it = [] ->
  groupStep oLen aLen bLen it
  = mkStep (OneSided (side (first it)))
      (makeRange (regionLhs it) (regionRhs it - regionLhs it))
      (singleRecords (first it)).
Proof.
  intros E. unfold groupStep, newRecords. rewrite after_unfold, E.
  now rewrite mergeSingle_result, skipn_length_app.
Qed.

Lemma groupStep_conflict (oLen aLen bLen : Z) (it : Iteration) :
  taken it <> [] ->
  exists aR bR,
    groupStep oLen aLen bLen it
    = mkStep Conflicting
        (makeRange (regionLhs it) (regionRhs it - regionLhs it))
        [conflict aR (makeRange (regionLhs it) (regionRhs it - regionLhs it))
           bR].
Proof.
  intros E. unfold groupStep, newRecords. rewrite after_unfold.
  destruct (taken it) as [|h tk]; [contradiction|].
  destruct (mergeConflict_result oLen aLen bLen (regionLhs it)
              (regionRhs it) (group it) (atGroup it)) as (aR & bR & R).
  exists aR, bR. now rewrite R, skipn_length_app.
Qed.

Lemma commonSteps_origin (targetOffset : Z) (st : MergeState) :
  Forall IndicesFollowOrigin (commonSteps targetOffset st).
Proof.
  destruct (commonSteps_shape targetOffset st) as [(E & _)|(E & _)];
    rewrite E; constructor; [|constructor].
  red; simpl. eauto.
Qed.

Lemma groupStep_origin (oLen aLen bLen : Z) (it : Iteration) :
  IndicesFollowOrigin (groupStep oLen aLen bLen it).
Proof.
  destruct (taken it) as [|h tk] eqn:E.
  - rewrite groupStep_single by assumption. red; simpl.
    unfold singleRecords.
    destruct (side (first it)), (length (sideRange (first it)) >? 0);
      eauto.
  - destruct (groupStep_conflict oLen aLen bLen it) as (aR & bR & R);
      [congruence|].
    rewrite R. red; simpl. eauto.
Qed.

Lemma mergeSteps_origin (oLen aLen bLen : Z)
  (m1 m2 : list DiffIndicesResult.t) :
  Forall IndicesFollowOrigin (mergeSteps oLen aLen bLen m1 m2).
Proof.
  unfold mergeSteps. apply Forall_app. split.
  - apply Forall_flat_map. apply Forall_forall. intros it _.
    apply Forall_app. split; [apply commonSteps_origin|].
    constructor; [apply groupStep_origin | constructor].
  - apply commonSteps_origin.
Qed.

(** ** Sorting the hunks *)

Lemma insertHunk_perm (x : Hunk) (l : list Hunk) :
  Permutation (x :: l) (insertHunk x l).
Proof.
  induction l as [|y l IH]; simpl; [reflexivity|].
  destruct (location (oRange x) <=? location (oRange y)); [reflexivity|].
  rewrite perm_swap. now constructor.
Qed.

Lemma sortHunks_perm (l : list Hunk) : Permutation l (sortHunks l).
Proof.
  induction l as [|x l IH]; simpl; [constructor|].
  rewrite <- insertHunk_perm. now constructor.
Qed.

Lemma insertHunk_sorted (x : Hunk) (l : list Hunk) :
  StronglySorted byLocation l -> StronglySorted byLocation (insertHunk x l).
Proof.
  induction 1 as [|y l S IH F]; simpl.
  - repeat constructor.
  - destruct (location (oRange x) <=? location (oRange y)) eqn:E.
    + constructor; [now constructor|].
      apply Z.leb_le in E. constructor; [exact E|].
      eapply Forall_impl; [|exact F]. unfold byLocation. intros; lia.
    + constructor; [exact IH|].
      apply Z.leb_gt in E.
      eapply Permutation_Forall; [apply insertHunk_perm|].
      constructor; [unfold byLocation; lia | exact F].
Qed.

Lemma sortHunks_sorted (l : list Hunk) :
  StronglySorted byLocation (sortHunks l).
Proof.
  induction l; simpl; [constructor | now apply insertHunk_sorted].
Qed.

Lemma insertHunk_filter (p : Hunk -> bool) (x : Hunk) (l : list Hunk) :
  StronglySorted byLocation l ->
  filter p (insertHunk x l)
  = if p x then insertHunk x (filter p l) else filter p l.
Proof.
  induction 1 as [|y l S IH F]; simpl.
  - destruct (p x); reflexivity.
  - destruct (location (oRange x) <=? location (oRange y)) eqn:E; simpl.
    + destruct (p x) eqn:Px, (p y) eqn:Py; simpl; rewrite ?E; try reflexivity.
      (* x is kept, y is dropped: x goes before whatever is kept of l *)
      apply Z.leb_le in E.
      assert (G : Forall (byLocation x) (filter p l)).
      { apply Forall_forall. intros z Hz. apply filter_In in Hz.
        rewrite Forall_forall in F. specialize (F z (proj1 Hz)).
        unfold byLocation in *. lia. }
      destruct (filter p l) as [|z fl]; simpl; [reflexivity|].
      inversion G as [|? ? Hz _]; subst. unfold byLocation in Hz.
      apply Z.leb_le in Hz. now rewrite Hz.
    + rewrite IH. destruct (p x) eqn:Px, (p y) eqn:Py; simpl; rewrite ?E;
        reflexivity.
Qed.

Lemma sortHunks_filter (p : Hunk -> bool) (l : list Hunk) :
  filter p (sortHunks l) = sortHunks (filter p l).
Proof.
  induction l as [|x l IH]; simpl; [reflexivity|].
  rewrite insertHunk_filter by apply sortHunks_sorted.
  rewrite IH. destruct (p x); reflexivity.
Qed.

Lemma sortHunks_id (l : list Hunk) :
  StronglySorted byLocation l -> sortHunks l = l.
Proof.
  induction 1 as [|x l S IH F]; simpl; [reflexivity|].
  rewrite IH. destruct l as [|y l]; simpl; [reflexivity|].
  inversion F as [|? ? Hy _]; subst. unfold byLocation in Hy.
  apply Z.leb_le in Hy. now rewrite Hy.
Qed.

(** ** Well-formed diffs *)

Lemma AlignedFrom_le_len (lenA lenB : Z) (m : list DiffIndicesResult.t) :
  forall x y, AlignedFrom lenA lenB x y m -> x <= lenA /\ y <= lenB.
Proof.
  induction m as [|h m IH]; simpl; intros x y H.
  - lia.
  - destruct H as (H1 & H2 & H3 & H4 & H5). apply IH in H5.
    unfold upperBound in H5. lia.
Qed.

Lemma AlignedFrom_shift (lenA lenB : Z) (m : list DiffIndicesResult.t)
  (x y d : Z) :
  AlignedFrom lenA lenB x y m ->
  0 <= d ->
  match m with
  | [] => x + d <= lenA
  | h :: _ => x + d <= location (DiffIndicesResult.a h)
  end ->
  AlignedFrom lenA lenB (x + d) (y + d) m.
Proof.
  destruct m as [|h m]; simpl; intros H D L.
  - lia.
  - destruct H as (H1 & H2 & H3 & H4 & H5). repeat split; try lia. exact H5.
Qed.

Lemma AlignedFrom_app (lenA lenB : Z) (l1 l2 : list DiffIndicesResult.t) :
  forall x y,
    AlignedFrom lenA lenB x y (l1 ++ l2) ->
    AlignedFrom lenA lenB (fst (alignedEnd x y l1)) (snd (alignedEnd x y l1))
      l2.
Proof.
  unfold alignedEnd.
  induction l1 as [|h l1 IH]; simpl; intros x y H; [exact H|].
  destruct H as (_ & _ & _ & _ & H). now apply IH.
Qed.

Lemma AlignedFrom_bounds (lenA lenB : Z) (m : list DiffIndicesResult.t) :
  forall x y,
    AlignedFrom lenA lenB x y m ->
    Forall
      (fun h =>
         x <= location (DiffIndicesResult.a h)
         /\ y <= location (DiffIndicesResult.b h)
         /\ 0 <= length (DiffIndicesResult.a h)
         /\ 0 <= length (DiffIndicesResult.b h)
         /\ upperBound (DiffIndicesResult.a h) <= lenA
         /\ upperBound (DiffIndicesResult.b h) <= lenB) m.
Proof.
  induction m as [|h m IH]; simpl; intros x y H; constructor.
  - destruct H as (H1 & H2 & H3 & H4 & H5).
    apply AlignedFrom_le_len in H5. lia.
  - destruct H as (H1 & H2 & H3 & H4 & H5). apply IH in H5.
    eapply Forall_impl; [|exact H5]. unfold upperBound. simpl. intros; lia.
Qed.

Lemma alignedEnd_last (x y : Z) (m : list DiffIndicesResult.t)
  (h : DiffIndicesResult.t) :
  alignedEnd x y (m ++ [h])
  = (upperBound (DiffIndicesResult.a h), upperBound (DiffIndicesResult.b h)).
Proof. unfold alignedEnd. now rewrite fold_left_app. Qed.

Lemma alignedEnd_bounds (lenA lenB : Z) (m m' : list DiffIndicesResult.t) :
  forall x y,
    AlignedFrom lenA lenB x y (m ++ m') ->
    x <= fst (alignedEnd x y m) /\ y <= snd (alignedEnd x y m)
    /\ Forall
         (fun h =>
            upperBound (DiffIndicesResult.a h) <= fst (alignedEnd x y m)
            /\ upperBound (DiffIndicesResult.b h) <= snd (alignedEnd x y m))
         m.
Proof.
  induction m as [|h m IH]; intros x y H.
  - unfold alignedEnd; simpl. repeat split; try lia. constructor.
  - simpl in H. destruct H as (H1 & H2 & H3 & H4 & H5).
    destruct (IH _ _ H5) as (E1 & E2 & E3).
    change (alignedEnd x y (h :: m))
      with (alignedEnd (upperBound (DiffIndicesResult.a h))
              (upperBound (DiffIndicesResult.b h)) m).
    unfold upperBound in *. repeat split; try lia.
    constructor; [lia | exact E3].
Qed.

Lemma alignedEnd_In (x y : Z) (m : list DiffIndicesResult.t) :
  m <> [] ->
  exists h,
    In h m
    /\ alignedEnd x y m
       = (upperBound (DiffIndicesResult.a h),
          upperBound (DiffIndicesResult.b h)).
Proof.
  intros N. destruct (exists_last N) as (m' & h & E). subst m.
  exists h. split; [apply in_or_app; right; now left|].
  apply alignedEnd_last.
Qed.

Lemma Separated_app_l (l1 l2 : list DiffIndicesResult.t) :
  Separated (l1 ++ l2) -> Separated l1.
Proof.
  induction l1 as [|h l1 IH]; simpl; intros H; [exact I|].
  destruct l1 as [|h' l1]; [exact I|].
  simpl in *. destruct H as (H1 & H2). split; [exact H1 | now apply IH].
Qed.

Lemma Separated_app_r (l1 l2 : list DiffIndicesResult.t) :
  Separated (l1 ++ l2) -> Separated l2.
Proof.
  induction l1 as [|h l1 IH]; intros H; [exact H|].
  apply IH. destruct l1 as [|h' l1].
  - destruct l2; [exact I | exact (proj2 H)].
  - exact (proj2 H).
Qed.

(** A well-formed diff is in the order of its base locations. *)
Lemma AlignedFrom_sorted (lenA lenB : Z) (s : Side)
  (m : list DiffIndicesResult.t) :
  forall x y,
    AlignedFrom lenA lenB x y m ->
    StronglySorted byLocation (map (fun h => addHunk h s) m).
Proof.
  induction m as [|h m IH]; simpl; intros x y H; constructor.
  - destruct H as (_ & _ & _ & _ & H). eapply IH; eassumption.
  - destruct H as (_ & _ & H3 & _ & H).
    apply AlignedFrom_bounds in H. apply Forall_map.
    eapply Forall_impl; [|exact H]. unfold byLocation, upperBound; simpl.
    intros; lia.
Qed.

(** ** The extents of a conflict *)

Lemma widenRegions_fold (g : list Hunk) :
  forall R,
    fold_left widenRegions g R
    = mkRegions (fold_left widen (sideHunks SideA g) (regions_a R))
        (fold_left widen (sideHunks SideB g) (regions_b R)).
Proof.
  induction g as [|h g IH]; intros R; simpl.
  - now destruct R.
  - rewrite IH. unfold widenRegions. destruct (side h); reflexivity.
Qed.

Lemma widen_fold_aligned (lenO lenS : Z) (m' : list DiffIndicesResult.t)
  (L : list Hunk) :
  forall x y p0 p2,
    AlignedFrom lenO lenS x y (map toDiff L ++ m') ->
    p0 <= y -> p2 <= x ->
    fold_left widen L (p0, y, p2, x)
    = (p0, snd (alignedEnd x y (map toDiff L)), p2,
       fst (alignedEnd x y (map toDiff L))).
Proof.
  induction L as [|h L IH]; intros x y p0 p2 H P0 P2; [reflexivity|].
  simpl in H. destruct H as (H1 & H2 & H3 & H4 & H5).
  change (alignedEnd x y (map toDiff (h :: L)))
    with (alignedEnd (upperBound (oRange h)) (upperBound (sideRange h))
            (map toDiff L)).
  rewrite <- (IH _ _ p0 p2 H5); unfold upperBound in *; try lia.
  cbn [fold_left widen]. unfold upperBound. f_equal.
  rewrite Z.min_r, Z.min_r, Z.max_l, Z.max_l by lia. reflexivity.
Qed.

Lemma widen_fold_first (lenO lenS : Z) (m' : list DiffIndicesResult.t)
  (h : Hunk) (L : list Hunk) (x y : Z) :
  AlignedFrom lenO lenS x y (map toDiff (h :: L) ++ m') ->
  0 <= x -> 0 <= y ->
  fold_left widen (h :: L) (lenS, -1, lenO, -1)
  = (location (sideRange h), snd (alignedEnd x y (map toDiff (h :: L))),
     location (oRange h), fst (alignedEnd x y (map toDiff (h :: L)))).
Proof.
  intros H X Y.
  pose proof (AlignedFrom_bounds _ _ _ _ _ H) as B.
  inversion B as [|? ? (B1 & B2 & B3 & B4 & B5 & B6) _]; subst.
  simpl in B1, B2, B3, B4, B5, B6. unfold upperBound in B5, B6.
  simpl in H. destruct H as (H1 & H2 & H3 & H4 & H5).
  change (alignedEnd x y (map toDiff (h :: L)))
    with (alignedEnd (upperBound (oRange h)) (upperBound (sideRange h))
            (map toDiff L)).
  rewrite <- (widen_fold_aligned lenO lenS m' L _ _ (location (sideRange h))
                (location (oRange h)) H5); unfold upperBound; try lia.
  cbn [fold_left widen]. unfold upperBound. f_equal.
  rewrite Z.min_l, Z.min_l, Z.max_l, Z.max_l by lia. reflexivity.
Qed.

(** ** The offsets after each part of an iteration *)

Lemma group_split (it : Iteration) :
  first it :: following it = group it ++ remaining it.
Proof.
  unfold group, taken, remaining. simpl. f_equal. apply extendRegion_split.
Qed.

Lemma regionRhs_end (it : Iteration) :
  regionRhs it = regionEnd (upperBound (oRange (first it))) (taken it).
Proof. apply extendRegion_end. Qed.

Lemma taken_chained (it : Iteration) :
  Chained (upperBound (oRange (first it))) (taken it).
Proof. apply extendRegion_chained. Qed.

Lemma remaining_beyond (it : Iteration) :
  match remaining it with
  | [] => True
  | h :: _ => regionRhs it < location (oRange h)
  end.
Proof. apply extendRegion_maximal. Qed.

Lemma copyCommon_offsets (targetOffset : Z) (st : MergeState) :
  oOffset st <= targetOffset ->
  oOffset (copyCommon targetOffset st) = targetOffset
  /\ aOffset (copyCommon targetOffset st)
     = aOffset st + (targetOffset - oOffset st)
  /\ bOffset (copyCommon targetOffset st)
     = bOffset st + (targetOffset - oOffset st).
Proof.
  intros H. unfold copyCommon.
  destruct (targetOffset - oOffset st >? 0) eqn:E; simpl; lia.
Qed.

Lemma mergeSingle_offsets (rhs : Z) (hunk : Hunk) (st : MergeState) :
  oOffset (mergeSingle rhs hunk st) = rhs
  /\ sideOffset (side hunk) (mergeSingle rhs hunk st)
     = upperBound (sideRange hunk)
  /\ sideOffset (otherSide (side hunk)) (mergeSingle rhs hunk st)
     = sideOffset (otherSide (side hunk)) st + (rhs - oOffset st).
Proof.
  unfold mergeSingle.
  destruct (side hunk), (length (sideRange hunk) >? 0); simpl; auto.
Qed.

Lemma mergeConflict_unfold (oLen aLen bLen lhs rhs : Z) (g : list Hunk)
  (st : MergeState) :
  mergeConflict oLen aLen bLen lhs rhs g st
  = mkState
      (result st
       ++ [conflict
             (makeRange (skewLhs (extentOf oLen aLen SideA g) lhs)
                (skewRhs (extentOf oLen aLen SideA g) rhs
                 - skewLhs (extentOf oLen aLen SideA g) lhs))
             (makeRange lhs (rhs - lhs))
             (makeRange (skewLhs (extentOf oLen bLen SideB g) lhs)
                (skewRhs (extentOf oLen bLen SideB g) rhs
                 - skewLhs (extentOf oLen bLen SideB g) lhs))])
      rhs (skewRhs (extentOf oLen aLen SideA g) rhs)
      (skewRhs (extentOf oLen bLen SideB g) rhs).
Proof.
  unfold mergeConflict, extentOf. rewrite widenRegions_fold. simpl.
  destruct (fold_left widen (sideHunks SideA g) _) as [[[a0 a1] a2] a3].
  destruct (fold_left widen (sideHunks SideB g) _) as [[[b0 b1] b2] b3].
  reflexivity.
Qed.

Lemma sideHunks_app (s : Side) (l1 l2 : list Hunk) :
  sideHunks s (l1 ++ l2) = sideHunks s l1 ++ sideHunks s l2.
Proof. apply filter_app. Qed.

Lemma sideHunks_none (s : Side) (g : list Hunk) :
  sideHunks s g = [] -> sideHunks (otherSide s) g = g.
Proof.
  induction g as [|h g IH]; simpl; [reflexivity|].
  destruct s, (side h); simpl; intros H; try discriminate;
    f_equal; now apply IH.
Qed.

Lemma sideHunks_In (s : Side) (h : Hunk) (hs : list Hunk) :
  In h hs -> side h = s -> In h (sideHunks s hs).
Proof.
  intros H E. apply filter_In. split; [exact H|]. rewrite E. now destruct s.
Qed.

(** ** The invariant of the outer loop *)

Section Invariant.

Variables oLen aLen bLen : Z.

Lemma inv_side (st : MergeState) (hs : list Hunk) (s : Side) :
  Inv oLen aLen bLen st hs ->
  SideAligned oLen (sideLen aLen bLen s) s (oOffset st) (sideOffset s st) hs.
Proof. intros [? ? ? ? ? ?]. destruct s; assumption. Qed.

Lemma inv_intro (st : MergeState) (hs : list Hunk) :
  StronglySorted byLocation hs ->
  (forall s,
      SideAligned oLen (sideLen aLen bLen s) s (oOffset st) (sideOffset s st)
        hs) ->
  0 <= oOffset st ->
  (forall s, 0 <= sideOffset s st) ->
  Inv oLen aLen bLen st hs.
Proof.
  intros S A O F. constructor; auto.
  - exact (A SideA).
  - exact (A SideB).
  - exact (F SideA).
  - exact (F SideB).
Qed.

Lemma inv_sideOffset (st : MergeState) (hs : list Hunk) (s : Side) :
  Inv oLen aLen bLen st hs -> 0 <= sideOffset s st.
Proof. intros [? ? ? ? ? ?]. destruct s; assumption. Qed.

(** Every hunk still to merge lies between the base offset and the end of
    the base, and within its side. *)
Lemma inv_bounds (st : MergeState) (hs : list Hunk) :
  Inv oLen aLen bLen st hs ->
  Forall
    (fun h =>
       oOffset st <= location (oRange h)
       /\ 0 <= length (oRange h)
       /\ upperBound (oRange h) <= oLen
       /\ sideOffset (side h) st <= location (sideRange h)
       /\ 0 <= length (sideRange h)
       /\ upperBound (sideRange h) <= sideLen aLen bLen (side h)) hs.
Proof.
  intros I. apply Forall_forall. intros h Hh.
  pose proof (inv_side st hs (side h) I) as [A _].
  apply AlignedFrom_bounds in A. rewrite Forall_forall in A.
  specialize (A (toDiff h)). simpl in A.
  assert (In (toDiff h) (map toDiff (sideHunks (side h) hs))) as Hin
    by (apply in_map; now apply sideHunks_In).
  apply A in Hin. tauto.
Qed.

Lemma SideAligned_shift (lenS : Z) (s : Side) (x y d : Z) (hs : list Hunk) :
  SideAligned oLen lenS s x y hs ->
  0 <= d ->
  x + d <= oLen ->
  Forall (fun h => x + d <= location (oRange h)) hs ->
  SideAligned oLen lenS s (x + d) (y + d) hs.
Proof.
  intros [A S] D L F. split; [|exact S].
  apply AlignedFrom_shift; auto.
  destruct (sideHunks s hs) as [|h l] eqn:E; simpl; [exact L|].
  rewrite Forall_forall in F. apply F.
  assert (In h (sideHunks s hs)) as Hin by (rewrite E; now left).
  apply filter_In in Hin. tauto.
Qed.

Lemma inv_copyCommon (st : MergeState) (h : Hunk) (rest : list Hunk) :
  Inv oLen aLen bLen st (h :: rest) ->
  Inv oLen aLen bLen (copyCommon (location (oRange h)) st) (h :: rest).
Proof.
  intros I. pose proof (inv_bounds _ _ I) as B.
  inversion B as [|? ? (B1 & B2 & B3 & _) _]; subst.
  destruct (copyCommon_offsets (location (oRange h)) st B1) as (O & A & Bo).
  pose proof (inv_sorted _ _ _ _ _ I) as S.
  assert (F : Forall (fun h' => oOffset st + (location (oRange h) - oOffset st)
                                <= location (oRange h')) (h :: rest)).
  { inversion S as [|? ? _ F]; subst. constructor; [lia|].
    eapply Forall_impl; [|exact F]. unfold byLocation. intros; lia. }
  apply inv_intro.
  - exact S.
  - intros s. rewrite O.
    replace (sideOffset s (copyCommon (location (oRange h)) st))
      with (sideOffset s st + (location (oRange h) - oOffset st))
      by (destruct s; simpl; lia).
    replace (location (oRange h))
      with (oOffset st + (location (oRange h) - oOffset st)) at 1 by lia.
    apply SideAligned_shift; auto.
    + now apply inv_side.
    + lia.
    + unfold upperBound in B3. lia.
  - pose proof (inv_o _ _ _ _ _ I). lia.
  - intros s. pose proof (inv_sideOffset _ _ s I). destruct s; simpl in *; lia.
Qed.


Lemma regionEnd_ub (tk : list Hunk) :
  forall r, Forall (fun h => upperBound (oRange h) <= regionEnd r tk) tk.
Proof.
  unfold regionEnd.
  induction tk as [|h tk IH]; intros r; simpl; constructor.
  - pose proof (regionEnd_ge tk (Z.max r (upperBound (oRange h)))) as G.
    unfold regionEnd in G. lia.
  - apply IH.
Qed.

Lemma regionEnd_le (tk : list Hunk) (bound : Z) :
  forall r,
    r <= bound ->
    Forall (fun h => upperBound (oRange h) <= bound) tk ->
    regionEnd r tk <= bound.
Proof.
  unfold regionEnd.
  induction tk as [|h tk IH]; intros r R F; simpl; [exact R|].
  inversion F; subst. apply IH; [lia | assumption].
Qed.

Lemma StronglySorted_app_r {A : Type} (R : A -> A -> Prop) (l1 l2 : list A) :
  StronglySorted R (l1 ++ l2) -> StronglySorted R l2.
Proof.
  induction l1 as [|x l1 IH]; simpl; intros S; [exact S|].
  inversion S; subst. now apply IH.
Qed.

(** The hunks after a group start beyond the region. *)
Lemma remaining_all_beyond (it : Iteration) :
  StronglySorted byLocation (first it :: following it) ->
  Forall (fun h => regionRhs it < location (oRange h)) (remaining it).
Proof.
  intros S. rewrite group_split in S. apply StronglySorted_app_r in S.
  pose proof (remaining_beyond it) as B.
  destruct (remaining it) as [|h rem]; constructor; [exact B|].
  inversion S as [|? ? _ F]; subst.
  eapply Forall_impl; [|exact F]. unfold byLocation. intros; lia.
Qed.

(** In a group of several hunks both sides have one: two hunks of one side
    are apart, so they cannot follow each other in a group. *)
Lemma conflict_both_sides (it : Iteration) (s : Side) :
  Inv oLen aLen bLen (before it) (first it :: following it) ->
  taken it <> [] ->
  sideHunks s (group it) <> [].
Proof.
  intros I N E.
  pose proof (inv_side _ _ (otherSide s) I) as [_ S].
  rewrite group_split, sideHunks_app, map_app in S.
  apply Separated_app_l in S.
  rewrite (sideHunks_none s _ E) in S.
  pose proof (taken_chained it) as C.
  unfold group in S. destruct (taken it) as [|h2 tk]; [contradiction|].
  simpl in S, C. unfold upperBound in *. lia.
Qed.

Lemma sideOffset_mergeConflict (lhs rhs : Z) (g : list Hunk)
  (st : MergeState) (s : Side) :
  sideOffset s (mergeConflict oLen aLen bLen lhs rhs g st)
  = skewRhs (extentOf oLen (sideLen aLen bLen s) s g) rhs.
Proof. rewrite mergeConflict_unfold. destruct s; reflexivity. Qed.

Lemma oOffset_after (it : Iteration) :
  oOffset (after oLen aLen bLen it) = regionRhs it.
Proof.
  rewrite after_unfold. destruct (taken it).
  - apply mergeSingle_offsets.
  - now rewrite mergeConflict_unfold.
Qed.

Lemma atGroup_inv (it : Iteration) :
  Inv oLen aLen bLen (before it) (first it :: following it) ->
  Inv oLen aLen bLen (atGroup it) (first it :: following it)
  /\ oOffset (atGroup it) = regionLhs it.
Proof.
  intros I. split; [now apply inv_copyCommon|].
  pose proof (inv_bounds _ _ I) as B.
  inversion B as [|? ? (B1 & _) _]; subst.
  now apply copyCommon_offsets.
Qed.

(** The extent of a side in a group that has hunks of that side, and the
    two ends the conflict record is built from. *)
Lemma extentOf_aligned (it : Iteration) (s : Side) :
  Inv oLen aLen bLen (before it) (first it :: following it) ->
  sideHunks s (group it) <> [] ->
  let e := alignedEnd (regionLhs it) (sideOffset s (atGroup it))
             (map toDiff (sideHunks s (group it))) in
  skewLhs (extentOf oLen (sideLen aLen bLen s) s (group it)) (regionLhs it)
  = sideOffset s (atGroup it)
  /\ skewRhs (extentOf oLen (sideLen aLen bLen s) s (group it)) (regionRhs it)
     = snd e + (regionRhs it - fst e).
Proof.
  intros I N e. destruct (atGroup_inv it I) as (I' & O).
  pose proof (inv_side _ _ s I') as [A _].
  rewrite group_split, sideHunks_app, map_app, O in A.
  pose proof (inv_o _ _ _ _ _ I') as Po. rewrite O in Po.
  pose proof (inv_sideOffset _ _ s I') as Ps.
  unfold extentOf. subst e.
  destruct (sideHunks s (group it)) as [|h1 L]; [contradiction|].
  rewrite (widen_fold_first _ _ _ _ _ _ _ A Po Ps).
  simpl in A. unfold skewLhs, skewRhs. split; lia.
Qed.

(** Where a side stands after a group: at the end of its hunks in the
    group, moved by the distance from there to the end of the region. *)
Lemma sideOffset_after (it : Iteration) (s : Side) :
  Inv oLen aLen bLen (before it) (first it :: following it) ->
  let e := alignedEnd (regionLhs it) (sideOffset s (atGroup it))
             (map toDiff (sideHunks s (group it))) in
  sideOffset s (after oLen aLen bLen it) = snd e + (regionRhs it - fst e)
  /\ regionLhs it <= fst e <= regionRhs it
  /\ sideOffset s (atGroup it) <= snd e.
Proof.
  intros I e. destruct (atGroup_inv it I) as (I' & O).
  pose proof (inv_side _ _ s I') as [A _].
  rewrite group_split, sideHunks_app, map_app, O in A.
  destruct (alignedEnd_bounds _ _ _ _ _ _ A) as (E1 & E2 & E3).
  fold e in E1, E2, E3.
  assert (Hrhs : fst e <= regionRhs it).
  { rewrite regionRhs_end.
    destruct (sideHunks s (group it)) as [|h1 L] eqn:G.
    - subst e; simpl. unfold alignedEnd; simpl.
      pose proof (inv_bounds _ _ I) as B.
      inversion B as [|? ? (B1 & B2 & _) _]; subst.
      pose proof (regionEnd_ge (taken it) (upperBound (oRange (first it)))).
      unfold regionLhs, upperBound in *. lia.
    - destruct (alignedEnd_In (regionLhs it) (sideOffset s (atGroup it))
                  (map toDiff (h1 :: L))) as (d & Hd & Ed); [discriminate|].
      subst e. rewrite Ed. simpl.
      apply in_map_iff in Hd. destruct Hd as (h & <- & Hh). simpl.
      rewrite <- G in Hh. apply filter_In in Hh. destruct Hh as (Hh & _).
      destruct Hh as [<-|Hh].
      + apply regionEnd_ge.
      + pose proof (regionEnd_ub (taken it) (upperBound (oRange (first it))))
          as U.
        rewrite Forall_forall in U. now apply U. }
  repeat split; try lia.
  rewrite after_unfold. destruct (taken it) as [|h2 tk] eqn:Tk.
  - destruct (mergeSingle_offsets (regionRhs it) (first it) (atGroup it))
      as (_ & M1 & M2).
    remember (mergeSingle (regionRhs it) (first it) (atGroup it)) as ms.
    assert (R : regionRhs it = upperBound (oRange (first it)))
      by (rewrite regionRhs_end, Tk; reflexivity).
    subst e. unfold group, sideHunks, alignedEnd. rewrite Tk. cbn [filter].
    destruct s, (side (first it)) eqn:Sd; cbn [Side_eqb map fold_left fst snd];
      cbn [otherSide toDiff DiffIndicesResult.a DiffIndicesResult.b] in *;
      lia.
  - rewrite sideOffset_mergeConflict.
    apply extentOf_aligned; [exact I|].
    apply conflict_both_sides; [exact I | congruence].
Qed.

(** The invariant holds again when the group has been merged. *)
Lemma inv_after (it : Iteration) :
  Inv oLen aLen bLen (before it) (first it :: following it) ->
  Inv oLen aLen bLen (after oLen aLen bLen it) (remaining it).
Proof.
  intros I. destruct (atGroup_inv it I) as (I' & O).
  pose proof (inv_sorted _ _ _ _ _ I) as S.
  pose proof (remaining_all_beyond it S) as Bey.
  pose proof (inv_bounds _ _ I) as B.
  assert (Hle : regionRhs it <= oLen).
  { rewrite regionRhs_end. rewrite group_split in B. unfold group in B.
    inversion B as [|? ? (_ & _ & B3 & _) B']; subst.
    apply Forall_app in B'. destruct B' as (B' & _).
    apply regionEnd_le; [exact B3|].
    eapply Forall_impl; [|exact B']. intros h' Hh'. cbv beta in Hh'.
    tauto. }
  apply inv_intro.
  - rewrite group_split in S. now apply StronglySorted_app_r in S.
  - intros s. rewrite oOffset_after.
    destruct (sideOffset_after it s I) as (E & (F1 & F2) & F3).
    rewrite E.
    pose proof (inv_side _ _ s I') as [A Sp].
    rewrite group_split, sideHunks_app, map_app in A, Sp. rewrite O in A.
    apply AlignedFrom_app in A. apply Separated_app_r in Sp.
    set (e := alignedEnd (regionLhs it) (sideOffset s (atGroup it))
                (map toDiff (sideHunks s (group it)))) in *.
    replace (regionRhs it) with (fst e + (regionRhs it - fst e)) at 1 by lia.
    apply SideAligned_shift; try lia.
    + split; assumption.
    + eapply Forall_impl; [|exact Bey]. intros h' Hh'. cbv beta in Hh'.
      lia.
  - rewrite oOffset_after.
    destruct (sideOffset_after it SideA I) as (_ & (F1 & F2) & _).
    pose proof (inv_o _ _ _ _ _ I') as Po. rewrite O in Po. lia.
  - intros s. destruct (sideOffset_after it s I) as (E & (F1 & F2) & F3).
    pose proof (inv_sideOffset _ _ s I'). lia.
Qed.

End Invariant.

(** ** The whole run *)

Lemma toDiff_addHunk (s : Side) (m : list DiffIndicesResult.t) :
  map toDiff (map (fun h => addHunk h s) m) = m.
Proof.
  induction m as [|h m IH]; simpl; [reflexivity|].
  rewrite IH. now destruct h.
Qed.

Lemma sideHunks_addHunk (s t : Side) (m : list DiffIndicesResult.t) :
  sideHunks s (map (fun h => addHunk h t) m)
  = if Side_eqb t s then map (fun h => addHunk h t) m else [].
Proof.
  induction m as [|h m IH]; simpl; [now destruct (Side_eqb t s)|].
  rewrite IH. destruct (Side_eqb t s); reflexivity.
Qed.

Lemma sideHunks_sortedHunks (m1 m2 : list DiffIndicesResult.t) (x y x' y'
  lenO lenA lenB : Z) :
  AlignedFrom lenO lenA x y m1 ->
  AlignedFrom lenO lenB x' y' m2 ->
  sideHunks SideA (sortedHunks m1 m2) = map (fun h => addHunk h SideA) m1
  /\ sideHunks SideB (sortedHunks m1 m2) = map (fun h => addHunk h SideB) m2.
Proof.
  intros A1 A2. unfold sortedHunks, sideHunks.
  rewrite !sortHunks_filter, !filter_app.
  fold (sideHunks SideA (map (fun h => addHunk h SideA) m1)).
  fold (sideHunks SideA (map (fun h => addHunk h SideB) m2)).
  fold (sideHunks SideB (map (fun h => addHunk h SideA) m1)).
  fold (sideHunks SideB (map (fun h => addHunk h SideB) m2)).
  rewrite !sideHunks_addHunk. simpl. rewrite app_nil_r.
  split; apply sortHunks_id; eapply AlignedFrom_sorted; eassumption.
Qed.

Lemma inv_init (oLen aLen bLen : Z) (m1 m2 : list DiffIndicesResult.t) :
  WellFormedDiff oLen aLen m1 ->
  WellFormedDiff oLen bLen m2 ->
  Inv oLen aLen bLen (mkState [] 0 0 0) (sortedHunks m1 m2).
Proof.
  intros [A1 S1] [A2 S2].
  destruct (sideHunks_sortedHunks m1 m2 _ _ _ _ _ _ _ A1 A2) as (E1 & E2).
  constructor; simpl; try lia.
  - apply sortHunks_sorted.
  - unfold SideAligned. rewrite E1, toDiff_addHunk. now split.
  - unfold SideAligned. rewrite E2, toDiff_addHunk. now split.
Qed.

Section WholeRun.

Variables oLen aLen bLen : Z.

Lemma iterations_inv (fuel : nat) :
  forall st hs,
    Inv oLen aLen bLen st hs ->
    Forall
      (fun it => Inv oLen aLen bLen (before it) (first it :: following it))
      (iterations oLen aLen bLen fuel st hs).
Proof.
  induction fuel as [|fuel IH]; intros st hs I; [constructor|].
  destruct hs as [|h rest]; [constructor|].
  cbn [iterations]. constructor; [exact I|].
  apply IH. now apply (inv_after oLen aLen bLen (mkIteration st h rest)).
Qed.

Lemma remaining_shorter (it : Iteration) :
  (List.length (remaining it) <= List.length (following it))%nat.
Proof. apply extendRegion_shorter. Qed.

Lemma sweep_inv (fuel : nat) :
  forall st hs,
    Inv oLen aLen bLen st hs ->
    (List.length hs <= fuel)%nat ->
    Inv oLen aLen bLen (sweep oLen aLen bLen fuel st hs) [].
Proof.
  induction fuel as [|fuel IH]; intros st hs I L.
  - destruct hs; [exact I | simpl in L; lia].
  - destruct hs as [|h rest]; [exact I|].
    rewrite sweep_unfold. apply IH.
    + now apply (inv_after oLen aLen bLen (mkIteration st h rest)).
    + pose proof (remaining_shorter (mkIteration st h rest)).
      simpl in *. lia.
Qed.

(** As many iterations as there are hunks are enough: more fuel changes
    nothing. *)
Lemma sweep_enough (fuel : nat) :
  forall fuel' st hs,
    (List.length hs <= fuel)%nat ->
    (List.length hs <= fuel')%nat ->
    sweep oLen aLen bLen fuel st hs = sweep oLen aLen bLen fuel' st hs.
Proof.
  induction fuel as [|fuel IH]; intros fuel' st hs L L'.
  - destruct hs; [|simpl in L; lia]. now destruct fuel'.
  - destruct hs as [|h rest]; [now destruct fuel'|].
    destruct fuel' as [|fuel']; [simpl in L'; lia|].
    rewrite !sweep_unfold.
    pose proof (remaining_shorter (mkIteration st h rest)).
    apply IH; simpl in *; lia.
Qed.

(** The groups of the iterations, one after the other, are the hunks. *)
Lemma iterations_groups (fuel : nat) :
  forall st hs,
    (List.length hs <= fuel)%nat ->
    List.concat (map group (iterations oLen aLen bLen fuel st hs)) = hs.
Proof.
  induction fuel as [|fuel IH]; intros st hs L.
  - destruct hs; [reflexivity | simpl in L; lia].
  - destruct hs as [|h rest]; [reflexivity|].
    cbn [iterations map List.concat].
    pose proof (remaining_shorter (mkIteration st h rest)).
    rewrite IH by (simpl in *; lia).
    symmetry. apply (group_split (mkIteration st h rest)).
Qed.

Lemma Covers_app (l1 l2 : list Range) :
  forall x y z, Covers l1 x y -> Covers l2 y z -> Covers (l1 ++ l2) x z.
Proof.
  induction l1 as [|r l1 IH]; simpl; intros x y z H1 H2.
  - now subst.
  - destruct H1 as (H & H' & H1). repeat split; auto. eapply IH; eassumption.
Qed.

Lemma commonSteps_covers (targetOffset : Z) (st : MergeState) :
  oOffset st <= targetOffset ->
  Covers (map span (commonSteps targetOffset st)) (oOffset st) targetOffset.
Proof.
  intros H.
  destruct (commonSteps_shape targetOffset st) as [(E & D & _)|(E & D)];
    rewrite E; simpl; unfold upperBound; simpl; lia.
Qed.

Lemma iteration_covers (it : Iteration) :
  Inv oLen aLen bLen (before it) (first it :: following it) ->
  Covers
    (map span
       (commonSteps (regionLhs it) (before it)
        ++ [groupStep oLen aLen bLen it]))
    (oOffset (before it)) (regionRhs it).
Proof.
  intros I. rewrite map_app.
  pose proof (inv_bounds _ _ _ _ _ I) as B.
  inversion B as [|? ? (B1 & _) _]; subst.
  eapply Covers_app; [now apply commonSteps_covers|].
  destruct (sideOffset_after oLen aLen bLen it SideA I) as (_ & (F1 & F2) & _).
  simpl. unfold upperBound; simpl. lia.
Qed.

Lemma iterations_cover (fuel : nat) :
  forall st hs,
    Inv oLen aLen bLen st hs ->
    (List.length hs <= fuel)%nat ->
    Covers
      (map span
         (flat_map
            (fun it =>
               commonSteps (regionLhs it) (before it)
               ++ [groupStep oLen aLen bLen it])
            (iterations oLen aLen bLen fuel st hs)))
      (oOffset st) (oOffset (sweep oLen aLen bLen fuel st hs)).
Proof.
  induction fuel as [|fuel IH]; intros st hs I L.
  - destruct hs; [reflexivity | simpl in L; lia].
  - destruct hs as [|h rest]; [reflexivity|].
    rewrite sweep_unfold. cbn [iterations flat_map]. rewrite map_app.
    pose proof (remaining_shorter (mkIteration st h rest)).
    eapply Covers_app.
    + apply (iteration_covers (mkIteration st h rest) I).
    + rewrite <- (oOffset_after oLen aLen bLen).
      apply IH; [|simpl in *; lia].
      now apply (inv_after oLen aLen bLen (mkIteration st h rest)).
Qed.

(** The spans of the steps cover the base. *)
Lemma mergeSteps_cover (m1 m2 : list DiffIndicesResult.t) :
  WellFormedDiff oLen aLen m1 ->
  WellFormedDiff oLen bLen m2 ->
  Covers (map span (mergeSteps oLen aLen bLen m1 m2)) 0 oLen.
Proof.
  intros W1 W2. pose proof (inv_init oLen aLen bLen m1 m2 W1 W2) as I.
  unfold mergeSteps, mergeIterations. rewrite map_app.
  eapply Covers_app.
  - apply (iterations_cover _ _ _ I). lia.
  - apply commonSteps_covers.
    pose proof (sweep_inv _ _ _ I (Nat.le_refl _)) as F.
    destruct (inv_a _ _ _ _ _ F) as [A _]. simpl in A. lia.
Qed.

End WholeRun.

(** ** What a group emits *)

Section Groups.

Variables oLen aLen bLen : Z.

(** The ranges of a conflict record are the stretches between the offsets
    at the start of the group and the offsets after it. *)
Lemma groupStep_conflict_offsets (it : Iteration) :
  Inv oLen aLen bLen (before it) (first it :: following it) ->
  taken it <> [] ->
  emitted (groupStep oLen aLen bLen it)
  = [conflict
       (makeRange (aOffset (atGroup it))
          (aOffset (after oLen aLen bLen it) - aOffset (atGroup it)))
       (makeRange (regionLhs it) (regionRhs it - regionLhs it))
       (makeRange (bOffset (atGroup it))
          (bOffset (after oLen aLen bLen it) - bOffset (atGroup it)))].
Proof.
  intros I N. unfold groupStep, newRecords; cbn [emitted].
  pose proof (extentOf_aligned oLen aLen bLen it SideA I
                (conflict_both_sides oLen aLen bLen it SideA I N)) as (A1 & _).
  pose proof (extentOf_aligned oLen aLen bLen it SideB I
                (conflict_both_sides oLen aLen bLen it SideB I N)) as (B1 & _).
  rewrite after_unfold. destruct (taken it) as [|h2 tk]; [contradiction|].
  rewrite mergeConflict_unfold. cbn [result aOffset bOffset].
  rewrite skipn_length_app. cbn [sideLen sideOffset] in A1, B1.
  now rewrite A1, B1.
Qed.

Lemma offsets_advance (it : Iteration) (s : Side) :
  Inv oLen aLen bLen (before it) (first it :: following it) ->
  0 <= sideOffset s (atGroup it) <= sideOffset s (after oLen aLen bLen it)
  /\ 0 <= regionLhs it <= regionRhs it.
Proof.
  intros I. destruct (atGroup_inv oLen aLen bLen it I) as (I' & O).
  destruct (sideOffset_after oLen aLen bLen it s I) as (E & (F1 & F2) & F3).
  pose proof (inv_sideOffset _ _ _ _ _ s I').
  pose proof (inv_o _ _ _ _ _ I') as Po. rewrite O in Po. lia.
Qed.

Lemma group_BothSides (it : Iteration) :
  Inv oLen aLen bLen (before it) (first it :: following it) ->
  (taken it <> [] <-> BothSides (group it)).
Proof.
  intros I. split.
  - intros N. split; now apply (conflict_both_sides oLen aLen bLen).
  - intros [A B] E. unfold group in A, B. rewrite E in A, B.
    unfold sideHunks in A, B. cbn [filter] in A, B.
    destruct (side (first it)); simpl in *; congruence.
Qed.

Lemma OnlySide_not_both (s : Side) (g : list Hunk) :
  OnlySide s g -> ~ BothSides g.
Proof.
  intros O.
  assert (E : sideHunks (otherSide s) g = []).
  { unfold sideHunks. induction O as [|h g Hh _ IH]; simpl; [reflexivity|].
    rewrite Hh. destruct s; simpl; exact IH. }
  intros [A B]. destruct s; simpl in E; congruence.
Qed.

Lemma regionEnd_In (tk : list Hunk) :
  forall r,
    regionEnd r tk = r
    \/ In (regionEnd r tk) (map (fun h => upperBound (oRange h)) tk).
Proof.
  unfold regionEnd.
  induction tk as [|h tk IH]; intros r; simpl; [now left|].
  destruct (IH (Z.max r (upperBound (oRange h)))) as [E|E].
  - rewrite E. destruct (Z.max_spec r (upperBound (oRange h))) as [[_ M]|[_ M]];
      rewrite M; auto.
  - auto.
Qed.

Lemma group_range (it : Iteration) :
  StronglySorted byLocation (first it :: following it) ->
  GroupRange (group it)
    (makeRange (regionLhs it) (regionRhs it - regionLhs it)).
Proof.
  intros S. unfold GroupRange, IsMin, IsMax, upperBound; cbn [location length].
  replace (regionLhs it + (regionRhs it - regionLhs it)) with (regionRhs it)
    by lia.
  repeat split.
  - now left.
  - rewrite group_split in S. unfold group in *. simpl in S.
    inversion S as [|? ? _ F]; subst. apply Forall_app in F.
    simpl. constructor; [unfold regionLhs; lia|].
    apply Forall_map. eapply Forall_impl; [|exact (proj1 F)]. auto.
  - rewrite regionRhs_end. unfold group. simpl.
    destruct (regionEnd_In (taken it) (upperBound (oRange (first it))))
      as [E|E]; [left; now rewrite E | now right].
  - rewrite regionRhs_end. unfold group. simpl.
    constructor.
    + pose proof (regionEnd_ge (taken it) (upperBound (oRange (first it)))).
      unfold upperBound in *. lia.
    + apply Forall_map.
      eapply Forall_impl;
        [|exact (regionEnd_ub (taken it) (upperBound (oRange (first it))))].
      intros h Hh. cbv beta in Hh. unfold upperBound in *. lia.
Qed.

End Groups.

Section Skew.

Variables oLen aLen bLen : Z.

Lemma AlignedFrom_head_least (lenA lenB x y : Z) (h : DiffIndicesResult.t)
  (m : list DiffIndicesResult.t) :
  AlignedFrom lenA lenB x y (h :: m) ->
  Forall
    (fun d =>
       location (DiffIndicesResult.a h) <= location (DiffIndicesResult.a d)
       /\ location (DiffIndicesResult.b h) <= location (DiffIndicesResult.b d))
    (h :: m).
Proof.
  intros (H1 & H2 & H3 & H4 & H5). constructor; [lia|].
  apply AlignedFrom_bounds in H5.
  eapply Forall_impl; [|exact H5]. unfold upperBound.
  intros d Hd. cbv beta in Hd. lia.
Qed.

(** The stretch of a side between the offsets around a group is the
    skewed cover of that side's hunks in the group. *)
Lemma side_stretch_skewed (it : Iteration) (s : Side) :
  Inv oLen aLen bLen (before it) (first it :: following it) ->
  sideHunks s (group it) <> [] ->
  SkewedCover (sideHunks s (group it)) (regionLhs it) (regionRhs it)
    (makeRange (sideOffset s (atGroup it))
       (sideOffset s (after oLen aLen bLen it) - sideOffset s (atGroup it))).
Proof.
  intros I N. destruct (atGroup_inv oLen aLen bLen it I) as (I' & O).
  pose proof (inv_side _ _ _ _ _ s I') as [A _].
  rewrite group_split, sideHunks_app, map_app, O in A.
  destruct (sideOffset_after oLen aLen bLen it s I) as (E & (F1 & F2) & F3).
  destruct (alignedEnd_bounds _ _ _ _ _ _ A) as (_ & _ & E3).
  destruct (alignedEnd_In (regionLhs it) (sideOffset s (atGroup it))
              (map toDiff (sideHunks s (group it)))) as (d & Hd & Ed).
  { destruct (sideHunks s (group it)); [contradiction | discriminate]. }
  set (e := alignedEnd (regionLhs it) (sideOffset s (atGroup it))
              (map toDiff (sideHunks s (group it)))) in *.
  destruct (sideHunks s (group it)) as [|h1 L] eqn:G; [contradiction|].
  pose proof (AlignedFrom_head_least _ _ _ _ _ _ A) as Least0.
  assert (Least :
            Forall
              (fun d =>
                 location (oRange h1) <= location (DiffIndicesResult.a d)
                 /\ location (sideRange h1) <= location (DiffIndicesResult.b d))
              (map toDiff (h1 :: L)
               ++ map toDiff (sideHunks s (remaining it))))
    by exact Least0.
  clear Least0. apply Forall_app in Least. destruct Least as (Least & _).
  rewrite Forall_map in Least, E3.
  exists (location (sideRange h1)), (snd e), (location (oRange h1)), (fst e).
  unfold IsMin, IsMax, upperBound. cbn [location length].
  simpl in A. destruct A as (A1 & A2 & _).
  apply in_map_iff in Hd. destruct Hd as (hd & <- & Hd).
  rewrite Ed in *. cbn [fst snd toDiff DiffIndicesResult.a DiffIndicesResult.b]
    in *.
  repeat split; try lia.
  - now left.
  - apply Forall_map. eapply Forall_impl; [|exact Least].
    intros h Hh. cbv beta in Hh. unfold upperBound in *. simpl in Hh. lia.
  - apply in_map_iff. now exists hd.
  - apply Forall_map. eapply Forall_impl; [|exact E3].
    intros h Hh. cbv beta in Hh. unfold upperBound in *. simpl in Hh. lia.
  - now left.
  - apply Forall_map. eapply Forall_impl; [|exact Least].
    intros h Hh. cbv beta in Hh. unfold upperBound in *. simpl in Hh. lia.
  - apply in_map_iff. now exists hd.
  - apply Forall_map. eapply Forall_impl; [|exact E3].
    intros h Hh. cbv beta in Hh. unfold upperBound in *. simpl in Hh. lia.
Qed.

End Skew.

(** ** The run on two well-formed diffs *)

Section Merge.

Variables oLen aLen bLen : Z.
Variables m1 m2 : list DiffIndicesResult.t.
Hypothesis wf1 : WellFormedDiff oLen aLen m1.
Hypothesis wf2 : WellFormedDiff oLen bLen m2.

Lemma run_inv :
  Forall (fun it => Inv oLen aLen bLen (before it) (first it :: following it))
    (mergeIterations oLen aLen bLen m1 m2).
Proof. apply iterations_inv. now apply inv_init. Qed.

Lemma run_groups :
  List.concat (map group (mergeIterations oLen aLen bLen m1 m2))
  = sortedHunks m1 m2.
Proof. apply iterations_groups. apply Nat.le_refl. Qed.

Lemma group_maximal (it : Iteration) :
  Inv oLen aLen bLen (before it) (first it :: following it) ->
  MaximalTouchingGroup oLen aLen bLen it.
Proof.
  intros I. unfold MaximalTouchingGroup.
  split; [apply taken_chained|].
  split; [apply regionRhs_end|].
  split; [apply remaining_all_beyond; exact (inv_sorted _ _ _ _ _ I)|].
  split.
  - intros B. apply (group_BothSides oLen aLen bLen it I) in B.
    rewrite (groupStep_conflict_offsets oLen aLen bLen it I B). eauto.
  - intros B aR oR bR Hin.
    assert (E : taken it = []).
    { destruct (taken it) eqn:E; [reflexivity|]. exfalso. apply B.
      apply (group_BothSides oLen aLen bLen it I). congruence. }
    rewrite (groupStep_single oLen aLen bLen it E) in Hin. simpl in Hin.
    unfold singleRecords in Hin.
    destruct (length (sideRange (first it)) >? 0), (side (first it));
      simpl in Hin; intuition discriminate.
Qed.

Lemma group_one_sided (it : Iteration) (s : Side) :
  Inv oLen aLen bLen (before it) (first it :: following it) ->
  OnlySide s (group it) ->
  OneSidedOutcome oLen aLen bLen it s.
Proof.
  intros I O.
  assert (E : taken it = []).
  { destruct (taken it) eqn:E; [reflexivity|]. exfalso.
    apply (OnlySide_not_both s _ O).
    apply (group_BothSides oLen aLen bLen it I). congruence. }
  assert (Sd : side (first it) = s) by (inversion O; assumption).
  destruct (atGroup_inv oLen aLen bLen it I) as (I' & Og).
  destruct (offsets_advance oLen aLen bLen it s I) as ((_ & Adv) & (_ & Reg)).
  assert (R : regionRhs it = upperBound (oRange (first it)))
    by (rewrite regionRhs_end, E; reflexivity).
  pose proof (oOffset_after oLen aLen bLen it) as Oa.
  unfold OneSidedOutcome. rewrite Oa, Og.
  repeat split; try assumption; try lia.
  - unfold group. now rewrite E.
  - rewrite (groupStep_single oLen aLen bLen it E). simpl.
    unfold singleRecords. rewrite Sd. now destruct s.
  - rewrite after_unfold, E, <- Sd. apply mergeSingle_offsets.
  - rewrite after_unfold, E, <- Sd.
    destruct (mergeSingle_offsets (regionRhs it) (first it) (atGroup it))
      as (_ & _ & M).
    rewrite M, Og. lia.
Qed.

Lemma group_conflict (it : Iteration) :
  Inv oLen aLen bLen (before it) (first it :: following it) ->
  BothSides (group it) ->
  ConflictOutcome oLen aLen bLen it.
Proof.
  intros I B. pose proof B as [Ba Bb].
  apply (group_BothSides oLen aLen bLen it I) in B.
  unfold ConflictOutcome.
  rewrite (groupStep_conflict_offsets oLen aLen bLen it I B).
  do 3 eexists. split; [reflexivity|].
  split; [apply group_range; exact (inv_sorted _ _ _ _ _ I)|].
  replace (upperBound (makeRange (regionLhs it) (regionRhs it - regionLhs it)))
    with (regionRhs it) by (unfold upperBound; simpl; lia).
  cbn [location].
  split.
  - exact (side_stretch_skewed oLen aLen bLen it SideA I Ba).
  - exact (side_stretch_skewed oLen aLen bLen it SideB I Bb).
Qed.

Lemma commonSteps_nonneg (targetOffset : Z) (st : MergeState) :
  Forall (fun s => Forall NonNegative (emitted s))
    (commonSteps targetOffset st).
Proof.
  destruct (commonSteps_shape targetOffset st) as [(E & _)|(E & D)];
    rewrite E; repeat constructor. simpl. lia.
Qed.

Lemma groupStep_nonneg (it : Iteration) :
  Inv oLen aLen bLen (before it) (first it :: following it) ->
  Forall NonNegative (emitted (groupStep oLen aLen bLen it)).
Proof.
  intros I. destruct (taken it) as [|h2 tk] eqn:E.
  - rewrite (groupStep_single oLen aLen bLen it E). simpl.
    unfold singleRecords.
    destruct (length (sideRange (first it)) >? 0) eqn:L; [|constructor].
    destruct (side (first it)); repeat constructor; simpl; lia.
  - rewrite (groupStep_conflict_offsets oLen aLen bLen it I)
      by congruence.
    destruct (offsets_advance oLen aLen bLen it SideA I) as (A & R).
    destruct (offsets_advance oLen aLen bLen it SideB I) as (B & _).
    simpl in A, B.
    repeat constructor; simpl; lia.
Qed.

Lemma mergeHunks_nonneg :
  Forall NonNegative (mergeHunks oLen aLen bLen m1 m2).
Proof.
  rewrite <- mergeSteps_records. apply Forall_flat_map.
  unfold mergeSteps. apply Forall_app. split; [|apply commonSteps_nonneg].
  apply Forall_flat_map. eapply Forall_impl; [|exact run_inv].
  intros it I. cbv beta in I. apply Forall_app. split.
  - apply commonSteps_nonneg.
  - constructor; [now apply groupStep_nonneg | constructor].
Qed.

End Merge.

Lemma mergeSteps_carry (oLen aLen bLen : Z)
  (m1 m2 : list DiffIndicesResult.t) :
  Forall CarriesSpan (mergeSteps oLen aLen bLen m1 m2).
Proof.
  assert (C : forall t st, Forall CarriesSpan (commonSteps t st)).
  { intros t st. destruct (commonSteps_shape t st) as [(E & _)|(E & _)];
      rewrite E; repeat constructor. red; simpl. eauto. }
  unfold mergeSteps. apply Forall_app. split; [|apply C].
  apply Forall_flat_map. apply Forall_forall. intros it _.
  apply Forall_app. split; [apply C|].
  constructor; [|constructor].
  destruct (taken it) as [|h2 tk] eqn:E.
  - rewrite (groupStep_single oLen aLen bLen it E). exact I.
  - destruct (groupStep_conflict oLen aLen bLen it) as (aR & bR & R);
      [congruence|].
    rewrite R. red; simpl. eauto.
Qed.

(** The records of the step of a group are records of the merge. *)
Lemma groupStep_In (oLen aLen bLen : Z) (m1 m2 : list DiffIndicesResult.t)
  (it : Iteration) :
  In it (mergeIterations oLen aLen bLen m1 m2) ->
  In (groupStep oLen aLen bLen it) (mergeSteps oLen aLen bLen m1 m2)
  /\ incl (emitted (groupStep oLen aLen bLen it))
       (mergeHunks oLen aLen bLen m1 m2).
Proof.
  intros Hit.
  assert (S : In (groupStep oLen aLen bLen it)
                (mergeSteps oLen aLen bLen m1 m2)).
  { unfold mergeSteps. apply in_or_app. left. apply in_flat_map.
    exists it. split; [exact Hit|]. apply in_or_app. right. now left. }
  split; [exact S|]. intros r Hr. rewrite <- mergeSteps_records.
  apply in_flat_map. now exists (groupStep oLen aLen bLen it).
Qed.

(** The iterations listed are those the sweep goes through. *)
Lemma iterations_run (oLen aLen bLen : Z) (fuel : nat) :
  forall st hs,
    RunsFrom oLen aLen bLen st (iterations oLen aLen bLen fuel st hs)
      (sweep oLen aLen bLen fuel st hs).
Proof.
  induction fuel as [|fuel IH]; intros st hs; [now destruct hs|].
  destruct hs as [|h rest]; [reflexivity|].
  rewrite sweep_unfold. cbn [iterations RunsFrom]. split; [reflexivity|].
  apply IH.
Qed.

(** * Properties of the differ *)

Section Differ.

Context {T : Type}.
Variable undefined : T.

Lemma get_cons_succ (x : T) (xs : list T) (k : Z) :
  0 <= k -> get undefined (x :: xs) (k + 1) = get undefined xs k.
Proof.
  intros K. unfold get.
  destruct (k + 1 <? 0) eqn:E1; [lia|]. destruct (k <? 0) eqn:E2; [lia|].
  replace (Z.to_nat (k + 1)) with (S (Z.to_nat k)) by lia. reflexivity.
Qed.

Lemma get_app_r (xs ys : list T) (k : Z) :
  0 <= k -> get undefined (xs ++ ys) (zlen xs + k) = get undefined ys k.
Proof.
  intros K. unfold get, zlen.
  pose proof (Zle_0_nat (List.length xs)) as P.
  destruct (Z.of_nat (List.length xs) + k <? 0) eqn:E1;
    [apply Z.ltb_lt in E1; lia|].
  destruct (k <? 0) eqn:E2; [apply Z.ltb_lt in E2; lia|].
  rewrite app_nth2 by lia. f_equal. lia.
Qed.

Lemma get_app_l (xs ys : list T) (k : Z) :
  0 <= k < zlen xs -> get undefined (xs ++ ys) k = get undefined xs k.
Proof.
  intros K. unfold get, zlen in *.
  destruct (k <? 0) eqn:E2; [lia|].
  apply app_nth1. lia.
Qed.

Lemma zlen_app {A : Type} (xs ys : list A) :
  zlen (xs ++ ys) = zlen xs + zlen ys.
Proof. unfold zlen. rewrite length_app. lia. Qed.

Lemma zlen_nonneg {A : Type} (xs : list A) : 0 <= zlen xs.
Proof. unfold zlen. lia. Qed.

(** ** Runs of equal elements *)

Section Runs.

Variable R : T -> T -> Prop.
Variables xs ys : list T.

Lemma EqualRun_app (x y n m : Z) :
  0 <= n ->
  EqualRun undefined R xs ys x y n ->
  EqualRun undefined R xs ys (x + n) (y + n) m ->
  EqualRun undefined R xs ys x y (n + m).
Proof.
  intros N H1 H2 k K. destruct (Z.lt_ge_cases k n) as [L|L].
  - apply H1. lia.
  - replace (x + k) with (x + n + (k - n)) by lia.
    replace (y + k) with (y + n + (k - n)) by lia.
    apply H2. lia.
Qed.

Lemma EqualRun_empty (x y n : Z) :
  n <= 0 -> EqualRun undefined R xs ys x y n.
Proof. intros N k K. lia. Qed.

Lemma RegionsUpTo_prepend (m : list DiffIndicesResult.t)
  (x0 y0 x y xe ye : Z) :
  RegionsUpTo undefined R xs ys x y m xe ye ->
  x0 <= x -> x - x0 = y - y0 ->
  EqualRun undefined R xs ys x0 y0 (x - x0) ->
  RegionsUpTo undefined R xs ys x0 y0 m xe ye.
Proof.
  intros H X E G.
  assert (Hx : x = x0 + (x - x0)) by lia.
  assert (Hy : y = y0 + (x - x0)) by lia.
  destruct m as [|h m]; simpl in *.
  - destruct H as (H1 & H2 & H3). repeat split; try lia.
    replace (xe - x0) with ((x - x0) + (xe - x)) by lia.
    apply EqualRun_app; [lia | exact G|]. now rewrite <- Hx, <- Hy.
  - destruct H as (H1 & H2 & H3 & H4). repeat split; try lia; try tauto.
    replace (location (DiffIndicesResult.a h) - x0)
      with ((x - x0) + (location (DiffIndicesResult.a h) - x)) by lia.
    apply EqualRun_app; [lia | exact G|]. now rewrite <- Hx, <- Hy.
Qed.

Lemma RegionsUpTo_extend (m : list DiffIndicesResult.t) (xe ye n : Z) :
  forall x y,
    RegionsUpTo undefined R xs ys x y m xe ye ->
    0 <= n ->
    EqualRun undefined R xs ys xe ye n ->
    RegionsUpTo undefined R xs ys x y m (xe + n) (ye + n).
Proof.
  induction m as [|h m IH]; simpl; intros x y H N G.
  - destruct H as (H1 & H2 & H3). repeat split; try lia.
    replace (xe + n - x) with ((xe - x) + n) by lia.
    apply EqualRun_app; [lia | exact H3|].
    replace (x + (xe - x)) with xe by lia.
    replace (y + (xe - x)) with ye by lia. exact G.
  - destruct H as (H1 & H2 & H3 & H4 & H5 & H6 & H7).
    repeat split; try assumption. now apply IH.
Qed.

Lemma RegionsUpTo_snoc (m : list DiffIndicesResult.t) (xe ye la lb : Z) :
  forall x y,
    RegionsUpTo undefined R xs ys x y m xe ye ->
    0 <= la -> 0 <= lb -> 0 < la \/ 0 < lb ->
    RegionsUpTo undefined R xs ys x y
      (m ++ [DiffIndicesResult.make (makeRange xe la) (makeRange ye lb)])
      (xe + la) (ye + lb).
Proof.
  induction m as [|h m IH]; simpl; intros x y H La Lb Ne.
  - destruct H as (H1 & H2 & H3). unfold upperBound; simpl.
    repeat split; try lia; try assumption.
    apply EqualRun_empty. lia.
  - destruct H as (H1 & H2 & H3 & H4 & H5 & H6 & H7).
    repeat split; try assumption. now apply IH.
Qed.

End Runs.

Lemma RegionsUpTo_impl (R R' : T -> T -> Prop) (xs ys : list T)
  (m : list DiffIndicesResult.t) (xe ye : Z) :
  (forall u v, R u v -> R' u v) ->
  forall x y,
    RegionsUpTo undefined R xs ys x y m xe ye ->
    RegionsUpTo undefined R' xs ys x y m xe ye.
Proof.
  intros Imp. induction m as [|h m IH]; simpl; intros x y H.
  - destruct H as (H1 & H2 & H3). repeat split; auto.
    intros k K. apply Imp, H3, K.
  - destruct H as (H1 & H2 & H3 & H4 & H5 & H6 & H7).
    repeat split; auto. intros k K. apply Imp, H3, K.
Qed.

Lemma equalRunb_sound (eq : T -> T -> bool) (xs ys : list T) (x y n : Z) :
  equalRunb undefined eq xs ys x y n = true ->
  EqualRun undefined (Holds eq) xs ys x y n.
Proof.
  unfold equalRunb. intros H k K. rewrite forallb_forall in H.
  specialize (H (Z.to_nat k)).
  rewrite Z2Nat.id in H by lia. apply H. apply in_seq. lia.
Qed.

Lemma regionsUpTob_sound (eq : T -> T -> bool) (xs ys : list T)
  (m : list DiffIndicesResult.t) (xe ye : Z) :
  forall x y,
    regionsUpTob undefined eq xs ys x y m xe ye = true ->
    RegionsUpTo undefined (Holds eq) xs ys x y m xe ye.
Proof.
  induction m as [|h m IH]; simpl; intros x y H.
  - apply andb_true_iff in H. destruct H as (H & H3).
    apply andb_true_iff in H. destruct H as (H1 & H2).
    apply equalRunb_sound in H3. repeat split; try lia. exact H3.
  - repeat (apply andb_true_iff in H; let H' := fresh "H" in
            destruct H as (H & H')).
    apply IH in H0. apply equalRunb_sound in H4.
    apply orb_true_iff in H1.
    repeat split; try lia; assumption.
Qed.

End Differ.

Section DiffIndices.

Context {T : Type}.
Variable undefined : T.
Variable eq : T -> T -> bool.
Variable fastDiff : list T -> list T -> list (DiffOp * list T).
Variable diff_core :
  Z -> Z -> Z -> Z -> (Z -> Z -> bool) -> list (Z * Z * Z * Z).

(** ** The two loops of [diffIndicesArray] *)

Lemma commonPrefix_spec (xs ys : list T) (fuel : nat) :
  forall offset,
    0 <= offset <= zlen xs -> offset <= zlen ys ->
    EqualRun undefined (Holds eq) xs ys 0 0 offset ->
    let r := commonPrefix undefined eq xs ys fuel offset in
    offset <= r <= zlen xs /\ r <= zlen ys
    /\ EqualRun undefined (Holds eq) xs ys 0 0 r.
Proof.
  induction fuel as [|fuel IH]; intros offset O O' G; simpl.
  - repeat split; try lia. exact G.
  - destruct ((offset <? zlen xs) && (offset <? zlen ys)
              && eq (get undefined xs offset) (get undefined ys offset))
      eqn:C.
    + apply andb_true_iff in C. destruct C as (C & C3).
      apply andb_true_iff in C. destruct C as (C1 & C2).
      apply Z.ltb_lt in C1, C2.
      destruct (IH (offset + 1)) as (I1 & I2 & I3); try lia.
      * apply EqualRun_app; [lia | exact G|].
        intros k K. assert (k = 0) by lia. subst k.
        now rewrite !Z.add_0_r.
      * repeat split; try lia. exact I3.
    + repeat split; try lia. exact G.
Qed.

(** With as much fuel as [a] has elements the first loop runs to its
    end: it stops where the lengths or the elements stop it. *)
Lemma commonPrefix_stops (xs ys : list T) (fuel : nat) :
  forall offset,
    0 <= offset ->
    zlen xs - offset <= Z.of_nat fuel ->
    let r := commonPrefix undefined eq xs ys fuel offset in
    ((r <? zlen xs) && (r <? zlen ys)
     && eq (get undefined xs r) (get undefined ys r)) = false.
Proof.
  induction fuel as [|fuel IH]; intros offset O F; simpl.
  - assert (E : (offset <? zlen xs) = false) by (apply Z.ltb_ge; lia).
    now rewrite E.
  - destruct ((offset <? zlen xs) && (offset <? zlen ys)
              && eq (get undefined xs offset) (get undefined ys offset))
      eqn:C; [|exact C].
    apply IH; lia.
Qed.

Lemma commonSuffix_spec (xs ys : list T) (offset : Z) (fuel : nat) :
  forall aLength bLength,
    offset <= aLength <= zlen xs -> offset <= bLength <= zlen ys ->
    zlen xs - aLength = zlen ys - bLength ->
    EqualRun undefined (Holds eq) xs ys aLength bLength (zlen xs - aLength) ->
    let r := commonSuffix undefined eq xs ys offset fuel aLength bLength in
    offset <= fst r <= zlen xs /\ offset <= snd r <= zlen ys
    /\ zlen xs - fst r = zlen ys - snd r
    /\ EqualRun undefined (Holds eq) xs ys (fst r) (snd r) (zlen xs - fst r).
Proof.
  induction fuel as [|fuel IH]; intros aLength bLength A B E G; simpl.
  - repeat split; try lia. exact G.
  - destruct ((aLength >? offset) && (bLength >? offset)) eqn:C;
      [|simpl; repeat split; try lia; exact G].
    apply andb_true_iff in C. destruct C as (C1 & C2).
    apply Z.gtb_lt in C1, C2.
    destruct (eq (get undefined xs (aLength - 1))
                (get undefined ys (bLength - 1))) eqn:Q; simpl;
      [|repeat split; try lia; exact G].
    apply IH; try lia.
    replace (zlen xs - (aLength - 1)) with (1 + (zlen xs - aLength)) by lia.
    apply EqualRun_app; [lia| |].
    + intros k K. assert (k = 0) by lia. subst k.
      now rewrite !Z.add_0_r.
    + replace (aLength - 1 + 1) with aLength by lia.
      replace (bLength - 1 + 1) with bLength by lia. exact G.
Qed.

(** With as much fuel as [a] has elements the second loop runs to its end
    as well. *)
Lemma commonSuffix_stops (xs ys : list T) (offset : Z) (fuel : nat) :
  forall aLength bLength,
    aLength - offset <= Z.of_nat fuel ->
    let r := commonSuffix undefined eq xs ys offset fuel aLength bLength in
    ((fst r >? offset) && (snd r >? offset)
     && eq (get undefined xs (fst r - 1)) (get undefined ys (snd r - 1)))
    = false.
Proof.
  induction fuel as [|fuel IH]; intros aLength bLength F; simpl.
  - assert (E : (aLength >? offset) = false) by lia. now rewrite E.
  - destruct ((aLength >? offset) && (bLength >? offset)) eqn:C;
      [|simpl; now rewrite C].
    destruct (eq (get undefined xs (aLength - 1))
                (get undefined ys (bLength - 1))) eqn:Q; simpl.
    + apply IH. lia.
    + now rewrite C, Q.
Qed.

Lemma sameChars_spec (xs : list T) :
  forall ys,
    sameChars T eq xs ys = true ->
    zlen xs = zlen ys /\ EqualRun undefined (Holds eq) xs ys 0 0 (zlen xs).
Proof.
  induction xs as [|x xs IH]; intros [|y ys] H; simpl in H;
    try discriminate.
  - split; [reflexivity | intros k K; unfold zlen in K; simpl in K; lia].
  - apply andb_true_iff in H. destruct H as (H1 & H2).
    destruct (IH _ H2) as (L & G). unfold zlen in *. simpl.
    split; [lia|]. intros k K.
    destruct (Z.eq_dec k 0) as [->|N]; [exact H1|].
    replace (0 + k) with ((k - 1) + 1) by lia.
    rewrite !get_cons_succ by lia.
    specialize (G (k - 1)). simpl in G. apply G. lia.
Qed.

(** ** [diffIndicesArray] *)

Lemma diffIndicesArray_regions (a b : ArrayLike T) :
  SameStore a b ->
  (let xs := elems a in
   let ys := elems b in
   let offset := commonPrefix undefined eq xs ys (List.length xs) 0 in
   let aLength :=
     fst (commonSuffix undefined eq xs ys offset (List.length xs) (zlen xs)
            (zlen ys)) in
   let bLength :=
     snd (commonSuffix undefined eq xs ys offset (List.length xs) (zlen xs)
            (zlen ys)) in
   regionsUpTob undefined eq xs ys offset offset
     (map pushQuad
        (diff_core offset (aLength - offset) offset (bLength - offset)
           (fun i j => eq (get undefined xs i) (get undefined ys j))))
     aLength bLength = true) ->
  ChangedRegions undefined (sameElement eq) (elems a) (elems b)
    (diffIndicesArray undefined eq diff_core a b eq).
Proof.
  intros Store Core. cbv zeta in Core.
  unfold diffIndicesArray, ChangedRegions.
  destruct (identical eq a b) eqn:Id.
  - (* one reference, or two strings with the same characters *)
    destruct a as [s|r xs], b as [t|r' ys]; cbn [identical] in Id;
      try discriminate; cbn [elems RegionsUpTo SameStore] in *.
    + destruct (sameChars_spec _ _ Id) as (L & G).
      pose proof (zlen_nonneg s).
      repeat split; try lia.
      intros k K. right. apply G. lia.
    + apply Pos.eqb_eq in Id. rewrite (Store Id).
      pose proof (zlen_nonneg ys).
      repeat split; try lia. intros k K. now left.
  - set (xs := elems a) in *. set (ys := elems b) in *.
    destruct (commonPrefix_spec xs ys (List.length xs) 0) as (P1 & P2 & P3).
    { pose proof (zlen_nonneg xs). lia. }
    { apply zlen_nonneg. }
    { apply EqualRun_empty. lia. }
    set (offset := commonPrefix undefined eq xs ys (List.length xs) 0) in *.
    destruct ((offset =? zlen xs) && (offset =? zlen ys)) eqn:Full.
    + apply andb_true_iff in Full. destruct Full as (F1 & F2).
      apply Z.eqb_eq in F1, F2. cbn [RegionsUpTo]. repeat split; try lia.
      intros k K. right. apply P3. lia.
    + destruct (commonSuffix_spec xs ys offset (List.length xs) (zlen xs)
                  (zlen ys)) as (S1 & S2 & S3 & S4); try lia.
      { apply EqualRun_empty. lia. }
      destruct (commonSuffix undefined eq xs ys offset (List.length xs)
                  (zlen xs) (zlen ys)) as [aLength bLength] eqn:Suf.
      cbn [fst snd] in *.
      apply regionsUpTob_sound in Core.
      apply RegionsUpTo_impl with (R := Holds eq);
        [intros u v E; right; exact E|].
      apply RegionsUpTo_prepend with (x := offset) (y := offset);
        try lia; [|intros k K; apply P3; lia].
      replace (zlen xs) with (aLength + (zlen xs - aLength)) by lia.
      replace (zlen ys) with (bLength + (zlen xs - aLength)) by lia.
      apply RegionsUpTo_extend; [exact Core | lia | exact S4].
Qed.

End DiffIndices.

Section DiffStrings.

Context {T : Type}.
Variable undefined : T.
Variable eq : T -> T -> bool.
Variable fastDiff : list T -> list T -> list (DiffOp * list T).
Variable diff_core :
  Z -> Z -> Z -> Z -> (Z -> Z -> bool) -> list (Z * Z * Z * Z).

(** ** [diffIndicesString] *)

Lemma flush_regions (R : T -> T -> Prop) (s t : list T) (st : StringScan) :
  lastA st <= aIndex st -> lastB st <= bIndex st ->
  RegionsUpTo undefined R s t 0 0 (scanned st) (lastA st) (lastB st) ->
  RegionsUpTo undefined R s t 0 0 (scanned (flush st)) (aIndex st)
    (bIndex st)
  /\ aIndex (flush st) = aIndex st /\ bIndex (flush st) = bIndex st.
Proof.
  intros A B H. unfold flush.
  destruct ((aIndex st >? lastA st) || (bIndex st >? lastB st)) eqn:C;
    simpl.
  - repeat split.
    assert (Ne : 0 < aIndex st - lastA st \/ 0 < bIndex st - lastB st).
    { apply orb_true_iff in C.
      destruct C as [C|C]; apply Z.gtb_lt in C; lia. }
    replace (aIndex st) with (lastA st + (aIndex st - lastA st)) at 2 by lia.
    replace (bIndex st) with (lastB st + (bIndex st - lastB st)) at 2 by lia.
    apply RegionsUpTo_snoc; [exact H | lia | lia | exact Ne].
  - apply orb_false_iff in C. destruct C as (C1 & C2).
    rewrite Z.gtb_ltb in C1, C2. apply Z.ltb_ge in C1, C2.
    assert (Ea : aIndex st = lastA st) by lia.
    assert (Eb : bIndex st = lastB st) by lia.
    rewrite Ea, Eb. repeat split. exact H.
Qed.

Lemma equal_piece_run (s t ps pt str rs rt : list T) :
  s = ps ++ str ++ rs -> t = pt ++ str ++ rt ->
  EqualRun undefined Logic.eq s t (zlen ps) (zlen pt) (zlen str).
Proof.
  intros -> -> k K.
  rewrite !get_app_r by lia. rewrite !get_app_l by lia. reflexivity.
Qed.

Lemma scan_regions (s t : list T) (pieces : list (DiffOp * list T)) :
  forall st ps pt,
    s = ps ++ textBefore pieces -> t = pt ++ textAfter pieces ->
    aIndex st = zlen ps -> bIndex st = zlen pt ->
    lastA st <= aIndex st -> lastB st <= bIndex st ->
    RegionsUpTo undefined Logic.eq s t 0 0 (scanned st) (lastA st)
      (lastB st) ->
    ChangedRegions undefined Logic.eq s t
      (scanned (flush (fold_left (scanPiece T) pieces st))).
Proof.
  induction pieces as [|[type str] pieces IH];
    intros st ps pt Es Et Ia Ib La Lb H.
  - simpl in *. rewrite app_nil_r in Es, Et. subst s t.
    destruct (flush_regions _ _ _ st La Lb H) as (F & _).
    unfold ChangedRegions. now rewrite <- Ia, <- Ib.
  - cbn [fold_left]. destruct type; cbn [textBefore textAfter] in Es, Et.
    + (* EQUAL *)
      destruct (flush_regions _ _ _ st La Lb H) as (F & Fa & Fb).
      apply (IH _ (ps ++ str) (pt ++ str)); cbn [scanPiece];
        cbn [aIndex bIndex lastA lastB scanned];
        rewrite ?Fa, ?Fb, ?zlen_app, <- ?app_assoc; try assumption;
        try lia.
      apply RegionsUpTo_extend; [exact F | apply zlen_nonneg|].
      rewrite Ia, Ib. eapply equal_piece_run; eassumption.
    + (* INSERT *)
      apply (IH _ ps (pt ++ str)); cbn [scanPiece];
        cbn [aIndex bIndex lastA lastB scanned];
        rewrite ?zlen_app, <- ?app_assoc; try assumption; try lia.
      pose proof (zlen_nonneg str). lia.
    + (* DELETE *)
      apply (IH _ (ps ++ str) pt); cbn [scanPiece];
        cbn [aIndex bIndex lastA lastB scanned];
        rewrite ?zlen_app, <- ?app_assoc; try assumption; try lia.
      pose proof (zlen_nonneg str). lia.
Qed.

Lemma diffIndicesString_regions (s t : list T) :
  textBefore (fastDiff s t) = s -> textAfter (fastDiff s t) = t ->
  ChangedRegions undefined Logic.eq s t (diffIndicesString fastDiff s t).
Proof.
  intros Es Et. unfold diffIndicesString.
  apply (scan_regions s t _ _ [] []); simpl; auto; try lia.
  repeat split; try lia. apply EqualRun_empty. lia.
Qed.

(** ** Equal sequences *)

Lemma diffIndicesArray_equal (a b : ArrayLike T) :
  EqualSequences undefined eq a b ->
  diffIndicesArray undefined eq diff_core a b eq = [].
Proof.
  intros [Id|(L & G)]; unfold diffIndicesArray; [now rewrite Id|].
  destruct (identical eq a b); [reflexivity|].
  set (xs := elems a) in *. set (ys := elems b) in *.
  pose proof (zlen_nonneg xs) as Nx.
  destruct (commonPrefix_spec undefined eq xs ys (List.length xs) 0)
    as ((_ & P1) & P2 & _); try lia.
  { apply EqualRun_empty. lia. }
  pose proof (commonPrefix_stops undefined eq xs ys (List.length xs) 0)
    as St.
  cbv zeta in St, P1, P2.
  set (offset := commonPrefix undefined eq xs ys (List.length xs) 0) in *.
  assert (E : offset = zlen xs).
  { destruct (Z.eq_dec offset (zlen xs)) as [E|N]; [exact E|].
    exfalso.
    assert (C1 : (offset <? zlen xs) = true) by (apply Z.ltb_lt; lia).
    assert (C2 : (offset <? zlen ys) = true) by (apply Z.ltb_lt; lia).
    rewrite C1, C2, G in St.
    - specialize (St (Z.le_refl 0)). unfold zlen in St.
      assert (F : true && true && true = true) by reflexivity.
      rewrite F in St. discriminate St. lia.
    - pose proof (commonPrefix_spec undefined eq xs ys (List.length xs) 0)
        as Q.
      destruct Q as ((Q & _) & _); try lia.
      apply EqualRun_empty. lia. }
  rewrite E, L, !Z.eqb_refl. reflexivity.
Qed.

Lemma scan_equal (pieces : list (DiffOp * list T)) :
  Forall (fun p => fst p = EQUAL) pieces ->
  forall st,
    aIndex st = lastA st -> bIndex st = lastB st -> scanned st = [] ->
    scanned (flush (fold_left (scanPiece T) pieces st)) = [].
Proof.
  assert (Fl : forall st, aIndex st = lastA st -> bIndex st = lastB st ->
                          flush st = st).
  { intros st A B. unfold flush. rewrite A, B.
    assert (E1 : (lastA st >? lastA st) = false) by lia.
    assert (E2 : (lastB st >? lastB st) = false) by lia.
    now rewrite E1, E2. }
  induction 1 as [|[type str] pieces Hp _ IH]; intros st A B S.
  - simpl. now rewrite Fl.
  - simpl in Hp. subst type. cbn [fold_left scanPiece].
    rewrite (Fl st A B). apply IH; simpl; auto.
Qed.

End DiffStrings.

(** The changed regions of two sequences are a diff in which every gap is
    as long on one side as on the other: what the merge expects of a
    differ, but for the distance between two hunks. *)
Lemma ChangedRegions_aligned {T : Type} (undefined : T)
  (R : T -> T -> Prop) (xs ys : list T) (m : list DiffIndicesResult.t)
  (xe ye : Z) :
  forall x y,
    RegionsUpTo undefined R xs ys x y m xe ye ->
    AlignedFrom xe ye x y m.
Proof.
  induction m as [|h m IH]; simpl; intros x y H.
  - lia.
  - destruct H as (H1 & H2 & _ & H4 & H5 & _ & H7).
    repeat split; try assumption. now apply IH.
Qed.

(** The hunks of a correct differ, when they are apart, are what the merge
    expects. *)
Lemma diffIndices_wellFormed {T : Type} (undefined : T)
  (areReferenceEqual : T -> T -> bool)
  (fastDiff : list T -> list T -> list (DiffOp * list T))
  (diff_core : Z -> Z -> Z -> Z -> (Z -> Z -> bool) -> list (Z * Z * Z * Z))
  (a b : ArrayLike T) :
  SameStore a b ->
  DifferCorrect undefined areReferenceEqual fastDiff diff_core a b ->
  Separated (diffIndices undefined areReferenceEqual fastDiff diff_core a b) ->
  WellFormedDiff (zlen (elems a)) (zlen (elems b))
    (diffIndices undefined areReferenceEqual fastDiff diff_core a b).
Proof.
  intros S D Sep. split; [|exact Sep].
  destruct a as [s|r xs] eqn:Ea, b as [t|r' ys] eqn:Eb;
    cbn [diffIndices] in *;
    try (eapply ChangedRegions_aligned;
         apply (diffIndicesArray_regions undefined areReferenceEqual diff_core);
         assumption).
  destruct D as (Es & Et). eapply ChangedRegions_aligned.
  now apply (diffIndicesString_regions undefined fastDiff).
Qed.

(** * The claims about [diffIndices] and [diff3MergeIndices] *)

Section Claims.

Context {T : Type}.
Variable undefined : T.
Variable areReferenceEqual : T -> T -> bool.
Variable fastDiff : list T -> list T -> list (DiffOp * list T).
Variable diff_core :
  Z -> Z -> Z -> Z -> (Z -> Z -> bool) -> list (Z * Z * Z * Z).

(** C1, as amended.  When the two diffs against the base are well formed,
    the steps of [diff3MergeIndices o a b] account for the base exactly
    once: the records of the steps, in order, are the list returned; the
    record of a copied common region and the record of a conflict carry the
    base span of their step; and the base spans of the steps (every copied
    common region, every group of one side whether it emits a record or, for
    a pure deletion, none, and every conflict) follow each other from 0 to
    [o.length] without gap or overlap. *)
Theorem steps_cover_base (o a b : ArrayLike T) :
  WellFormedInputs undefined areReferenceEqual fastDiff diff_core o a b ->
  flat_map emitted
    (diff3Steps undefined areReferenceEqual fastDiff diff_core o a b)
  = diff3MergeIndices undefined areReferenceEqual fastDiff diff_core o a b
  /\ Forall CarriesSpan
       (diff3Steps undefined areReferenceEqual fastDiff diff_core o a b)
  /\ Covers
       (map span
          (diff3Steps undefined areReferenceEqual fastDiff diff_core o a b))
       0 (zlen (elems o)).
Proof.
  intros [W1 W2]. unfold diff3Steps, diff3MergeIndices.
  split; [apply mergeSteps_records|].
  split; [apply mergeSteps_carry|].
  now apply mergeSteps_cover.
Qed.

(** C2.  The hunks of the two diffs are sorted by the start of their base
    range (the sorted list is a permutation of the tagged hunks, in the
    order of the base locations); the sweep cuts the sorted list, from left
    to right, into groups; in each group every hunk taken starts at or
    before the end of the region built so far (touching counts), the region
    ends at the greatest end of its hunks, and every hunk after the group
    starts beyond the region; and the step of a group (one of the steps
    whose records make the returned list) emits a conflict record exactly
    when the group has hunks of both sides. *)
Theorem sweep_groups_touching_hunks (o a b : ArrayLike T) :
  WellFormedInputs undefined areReferenceEqual fastDiff diff_core o a b ->
  StronglySorted byLocation
    (diff3Hunks undefined areReferenceEqual fastDiff diff_core o a b)
  /\ Permutation
       (diff3Tagged undefined areReferenceEqual fastDiff diff_core o a b)
       (diff3Hunks undefined areReferenceEqual fastDiff diff_core o a b)
  /\ List.concat
       (map group
          (diff3Iterations undefined areReferenceEqual fastDiff diff_core
             o a b))
     = diff3Hunks undefined areReferenceEqual fastDiff diff_core o a b
  /\ Forall
       (fun it =>
          MaximalTouchingGroup (zlen (elems o)) (zlen (elems a))
            (zlen (elems b)) it
          /\ In (diff3GroupStep o a b it)
               (diff3Steps undefined areReferenceEqual fastDiff diff_core
                  o a b))
       (diff3Iterations undefined areReferenceEqual fastDiff diff_core o a b)
  /\ flat_map emitted
       (diff3Steps undefined areReferenceEqual fastDiff diff_core o a b)
     = diff3MergeIndices undefined areReferenceEqual fastDiff diff_core o a b.
Proof.
  intros [W1 W2]. unfold diff3Hunks, diff3Tagged, diff3Iterations, diff3Steps,
    diff3MergeIndices, diff3GroupStep.
  split; [apply sortHunks_sorted|].
  split; [apply sortHunks_perm|].
  split; [apply run_groups|].
  split; [|apply mergeSteps_records].
  pose proof (run_inv _ _ _ _ _ W1 W2) as I.
  rewrite Forall_forall in I. apply Forall_forall. intros it Hit. split.
  - apply group_maximal. now apply I.
  - unfold mergeSteps. apply in_or_app. left. apply in_flat_map.
    exists it. split; [exact Hit|]. apply in_or_app. right. now left.
Qed.

(** C3.  The list [diff3MergeIndices o a b] returns is the result of the
    last [copyCommon] on the state the outer loop ends in; the iterations
    are those this loop runs through, from the empty state with the three
    offsets at 0, each starting in the state the one before it ends in; and
    the records of the steps, in order, are the list returned.  For every
    iteration, the step of its group is one of these steps, so that the
    records it emits are records of the list returned; and when the hunks
    of the group are all of one side, the group is a single hunk, its step
    emits no conflict record but one [okA] (side a) or [okB] (side b) record
    with the length and the location of the hunk's side range, or nothing
    when that range is empty; the base offset goes from the start of the
    region to its end, the offset of the side of the hunk to the end of the
    side range, and the offset of the other side advances by as much as the
    base offset. *)
Theorem one_sided_group_outcome (o a b : ArrayLike T) :
  WellFormedInputs undefined areReferenceEqual fastDiff diff_core o a b ->
  diff3MergeIndices undefined areReferenceEqual fastDiff diff_core o a b
  = result
      (copyCommon (zlen (elems o))
         (diff3Final undefined areReferenceEqual fastDiff diff_core o a b))
  /\ RunsFrom (zlen (elems o)) (zlen (elems a)) (zlen (elems b))
       (mkState [] 0 0 0)
       (diff3Iterations undefined areReferenceEqual fastDiff diff_core o a b)
       (diff3Final undefined areReferenceEqual fastDiff diff_core o a b)
  /\ flat_map emitted
       (diff3Steps undefined areReferenceEqual fastDiff diff_core o a b)
     = diff3MergeIndices undefined areReferenceEqual fastDiff diff_core o a b
  /\ Forall
       (fun it =>
          In (diff3GroupStep o a b it)
            (diff3Steps undefined areReferenceEqual fastDiff diff_core o a b)
          /\ incl (emitted (diff3GroupStep o a b it))
               (diff3MergeIndices undefined areReferenceEqual fastDiff
                  diff_core o a b)
          /\ forall s,
               OnlySide s (group it) ->
               OneSidedOutcome (zlen (elems o)) (zlen (elems a))
                 (zlen (elems b)) it s)
       (diff3Iterations undefined areReferenceEqual fastDiff diff_core o a b).
Proof.
  intros [W1 W2].
  unfold diff3Iterations, diff3Steps, diff3MergeIndices, diff3GroupStep,
    diff3Final, diff3Hunks, diff3Tagged.
  split; [reflexivity|].
  split; [apply iterations_run|].
  split; [apply mergeSteps_records|].
  pose proof (run_inv _ _ _ _ _ W1 W2) as I.
  rewrite Forall_forall in I. apply Forall_forall. intros it Hit.
  destruct (groupStep_In _ _ _ _ _ it Hit) as (S & E).
  split; [exact S|]. split; [exact E|].
  intros s O. exact (group_one_sided _ _ _ it s (I it Hit) O).
Qed.

(** C4.  The records of the steps of [diff3MergeIndices o a b], in order,
    are the list it returns.  For every iteration of its outer loop, the
    step of the group is one of these steps, so that the records it emits
    are records of the list returned; and a group with hunks of both sides
    emits exactly one conflict record; its [oRange] is the base range of the
    group, and its [aRange] (its [bRange]) is the tightest range around the
    side ranges of the hunks of side a (of side b), moved outward at each
    end by the distance from the outermost base boundary of these hunks to
    the boundary of the group. *)
Theorem conflict_ranges_skewed (o a b : ArrayLike T) :
  WellFormedInputs undefined areReferenceEqual fastDiff diff_core o a b ->
  flat_map emitted
    (diff3Steps undefined areReferenceEqual fastDiff diff_core o a b)
  = diff3MergeIndices undefined areReferenceEqual fastDiff diff_core o a b
  /\ Forall
       (fun it =>
          In (diff3GroupStep o a b it)
            (diff3Steps undefined areReferenceEqual fastDiff diff_core o a b)
          /\ incl (emitted (diff3GroupStep o a b it))
               (diff3MergeIndices undefined areReferenceEqual fastDiff
                  diff_core o a b)
          /\ (BothSides (group it) ->
              ConflictOutcome (zlen (elems o)) (zlen (elems a))
                (zlen (elems b)) it))
       (diff3Iterations undefined areReferenceEqual fastDiff diff_core o a b).
Proof.
  intros [W1 W2].
  unfold diff3Iterations, diff3Steps, diff3MergeIndices, diff3GroupStep.
  split; [apply mergeSteps_records|].
  pose proof (run_inv _ _ _ _ _ W1 W2) as I.
  rewrite Forall_forall in I. apply Forall_forall. intros it Hit.
  destruct (groupStep_In _ _ _ _ _ it Hit) as (S & E).
  split; [exact S|]. split; [exact E|].
  intros B. exact (group_conflict _ _ _ it (I it Hit) B).
Qed.

(** C5.  When the differ that [diffIndices a b] calls is correct on the
    part it is given, the hunks returned are the changed regions of [a] and
    [b], in the coordinates of the whole sequences: they are in order, they
    do not overlap in [a] nor in [b], none is empty on both sides, and the
    elements before, between and after them pair up and are the same. *)
Theorem diffIndices_changed_regions (a b : ArrayLike T) :
  SameStore a b ->
  DifferCorrect undefined areReferenceEqual fastDiff diff_core a b ->
  ChangedRegions undefined (sameElement areReferenceEqual) (elems a) (elems b)
    (diffIndices undefined areReferenceEqual fastDiff diff_core a b).
Proof.
  intros Store Core.
  destruct a as [s|r xs] eqn:Ea, b as [t|r' ys] eqn:Eb;
    cbn [diffIndices]; try (apply diffIndicesArray_regions; assumption).
  (* two strings: the pieces of [fastDiff] spell both of them *)
  destruct Core as (Es & Et). cbn [elems].
  eapply RegionsUpTo_impl; [|now apply diffIndicesString_regions].
  intros u v E. now left.
Qed.

(** C6.  [diffIndices a b] is the empty list when [a] and [b] are equal
    sequences: one reference (the fast path), or as long as each other and
    equal element by element. *)
Theorem diffIndices_equal_sequences (a b : ArrayLike T) :
  EqualSequences undefined areReferenceEqual a b ->
  FastDiffOnEqual fastDiff a b ->
  diffIndices undefined areReferenceEqual fastDiff diff_core a b = [].
Proof.
  intros E F.
  destruct a as [s|r xs] eqn:Ea, b as [t|r' ys] eqn:Eb;
    cbn [diffIndices]; try (apply diffIndicesArray_equal; assumption).
  (* two strings: no piece moves one index ahead of the other *)
  unfold diffIndicesString. now apply scan_equal.
Qed.

(** C7.  When the two diffs against the base are well formed, every range
    of every conflict record of [diff3MergeIndices o a b] has a location
    and a length that are not negative, and every [okA] and [okB] record has
    a length of at least one. *)
Theorem merge_ranges_nonnegative (o a b : ArrayLike T) :
  WellFormedInputs undefined areReferenceEqual fastDiff diff_core o a b ->
  Forall NonNegative
    (diff3MergeIndices undefined areReferenceEqual fastDiff diff_core o a b).
Proof.
  intros [W1 W2]. unfold diff3MergeIndices. now apply mergeHunks_nonneg.
Qed.

(** C10.  The records of [diff3MergeIndices o a b] are the records of its
    steps, and the indices of a record follow the origin of its step: a
    copied common region gives an [okA] record with [aIndex], [oIndex] and
    [bIndex] defined; the changed content of one side gives a record of
    that side with only the index of that side defined. *)
Theorem ok_indices_follow_origin (o a b : ArrayLike T) :
  flat_map emitted
    (diff3Steps undefined areReferenceEqual fastDiff diff_core o a b)
  = diff3MergeIndices undefined areReferenceEqual fastDiff diff_core o a b
  /\ Forall IndicesFollowOrigin
       (diff3Steps undefined areReferenceEqual fastDiff diff_core o a b).
Proof.
  unfold diff3Steps, diff3MergeIndices.
  split; [apply mergeSteps_records | apply mergeSteps_origin].
Qed.

End Claims.

(** * The claims at concrete sequences *)

(** Closes a goal that is a conjunction of comparisons of numerals, of
    equations between computed lists, and of [True]. *)
Ltac evaluate :=
  vm_compute;
  repeat match goal with
         | |- _ /\ _ => split
         | |- True => exact I
         | |- _ = _ => reflexivity
         | |- _ -> False => let H := fresh in intro H; discriminate H
         | |- _ <> _ => let H := fresh in intro H; discriminate H
         end.

Lemma steps_cover_base_witness :
  WellFormedInputs JsUndefined strictEquals lcsFastDiff lcsDiffCore
    movesBase movesA movesB
  /\ (flat_map emitted (jsDiff3Steps movesBase movesA movesB)
      = jsDiff3MergeIndices movesBase movesA movesB
      /\ Forall CarriesSpan (jsDiff3Steps movesBase movesA movesB)
      /\ Covers (map span (jsDiff3Steps movesBase movesA movesB)) 0
           (zlen (elems movesBase))).
Proof.
  assert (W : WellFormedInputs JsUndefined strictEquals lcsFastDiff
                lcsDiffCore movesBase movesA movesB) by evaluate.
  split; [exact W|].
  exact (steps_cover_base JsUndefined strictEquals lcsFastDiff lcsDiffCore
           movesBase movesA movesB W).
Defined.

(** C1, as stated, fails where one side deletes an element: the group of
    the deletion emits no record, so the base spans of the records leave
    the deleted element out.  Base [[1,2,3]], a [[1,3]], b [[1,2,3]]: the
    records are the two copied regions [[0,1)] and [[2,3)]. *)
Lemma records_leave_gap_at_deletion :
  WellFormedInputs JsUndefined strictEquals lcsFastDiff lcsDiffCore
    deletionBase deletionA deletionB
  /\ jsDiff3MergeIndices deletionBase deletionA deletionB
     = [okA 1 0 (Some 0) (Some 0); okA 1 1 (Some 2) (Some 2)]
  /\ recordSpans (jsDiff3Steps deletionBase deletionA deletionB)
     = [makeRange 0 1; makeRange 2 1]
  /\ ~ Covers (recordSpans (jsDiff3Steps deletionBase deletionA deletionB)) 0
         (zlen (elems deletionBase)).
Proof.
  split; [evaluate|]. split; [reflexivity|]. split; [reflexivity|].
  assert (E : recordSpans (jsDiff3Steps deletionBase deletionA deletionB)
              = [makeRange 0 1; makeRange 2 1]) by reflexivity.
  rewrite E. simpl. unfold upperBound. simpl. lia.
Qed.

Lemma sweep_groups_touching_hunks_witness :
  WellFormedInputs JsUndefined strictEquals lcsFastDiff lcsDiffCore
    movesBase movesA movesB
  /\ (StronglySorted byLocation
        (diff3Hunks JsUndefined strictEquals lcsFastDiff lcsDiffCore
           movesBase movesA movesB)
      /\ Permutation
           (diff3Tagged JsUndefined strictEquals lcsFastDiff lcsDiffCore
              movesBase movesA movesB)
           (diff3Hunks JsUndefined strictEquals lcsFastDiff lcsDiffCore
              movesBase movesA movesB)
      /\ List.concat (map group (jsDiff3Iterations movesBase movesA movesB))
         = diff3Hunks JsUndefined strictEquals lcsFastDiff lcsDiffCore
             movesBase movesA movesB
      /\ Forall
           (fun it =>
              MaximalTouchingGroup (zlen (elems movesBase))
                (zlen (elems movesA)) (zlen (elems movesB)) it
              /\ In (diff3GroupStep movesBase movesA movesB it)
                   (jsDiff3Steps movesBase movesA movesB))
           (jsDiff3Iterations movesBase movesA movesB)
      /\ flat_map emitted (jsDiff3Steps movesBase movesA movesB)
         = jsDiff3MergeIndices movesBase movesA movesB).
Proof.
  assert (W : WellFormedInputs JsUndefined strictEquals lcsFastDiff
                lcsDiffCore movesBase movesA movesB) by evaluate.
  split; [exact W|].
  exact (sweep_groups_touching_hunks JsUndefined strictEquals lcsFastDiff
           lcsDiffCore movesBase movesA movesB W).
Defined.

Lemma one_sided_group_outcome_witness :
  WellFormedInputs JsUndefined strictEquals lcsFastDiff lcsDiffCore
    editsBase editsA editsB
  /\ (jsDiff3MergeIndices editsBase editsA editsB
      = result
          (copyCommon (zlen (elems editsBase))
             (diff3Final JsUndefined strictEquals lcsFastDiff lcsDiffCore
                editsBase editsA editsB))
      /\ RunsFrom (zlen (elems editsBase)) (zlen (elems editsA))
           (zlen (elems editsB)) (mkState [] 0 0 0)
           (jsDiff3Iterations editsBase editsA editsB)
           (diff3Final JsUndefined strictEquals lcsFastDiff lcsDiffCore
              editsBase editsA editsB)
      /\ flat_map emitted (jsDiff3Steps editsBase editsA editsB)
         = jsDiff3MergeIndices editsBase editsA editsB
      /\ Forall
           (fun it =>
              In (diff3GroupStep editsBase editsA editsB it)
                (jsDiff3Steps editsBase editsA editsB)
              /\ incl (emitted (diff3GroupStep editsBase editsA editsB it))
                   (jsDiff3MergeIndices editsBase editsA editsB)
              /\ forall s,
                   OnlySide s (group it) ->
                   OneSidedOutcome (zlen (elems editsBase))
                     (zlen (elems editsA)) (zlen (elems editsB)) it s)
           (jsDiff3Iterations editsBase editsA editsB)).
Proof.
  assert (W : WellFormedInputs JsUndefined strictEquals lcsFastDiff
                lcsDiffCore editsBase editsA editsB) by evaluate.
  split; [exact W|].
  exact (one_sided_group_outcome JsUndefined strictEquals lcsFastDiff
           lcsDiffCore editsBase editsA editsB W).
Defined.

Lemma conflict_ranges_skewed_witness :
  WellFormedInputs JsUndefined strictEquals lcsFastDiff lcsDiffCore
    movesBase movesA movesB
  /\ (flat_map emitted (jsDiff3Steps movesBase movesA movesB)
      = jsDiff3MergeIndices movesBase movesA movesB
      /\ Forall
           (fun it =>
              In (diff3GroupStep movesBase movesA movesB it)
                (jsDiff3Steps movesBase movesA movesB)
              /\ incl (emitted (diff3GroupStep movesBase movesA movesB it))
                   (jsDiff3MergeIndices movesBase movesA movesB)
              /\ (BothSides (group it) ->
                  ConflictOutcome (zlen (elems movesBase))
                    (zlen (elems movesA)) (zlen (elems movesB)) it))
           (jsDiff3Iterations movesBase movesA movesB)).
Proof.
  assert (W : WellFormedInputs JsUndefined strictEquals lcsFastDiff
                lcsDiffCore movesBase movesA movesB) by evaluate.
  split; [exact W|].
  exact (conflict_ranges_skewed JsUndefined strictEquals lcsFastDiff
           lcsDiffCore movesBase movesA movesB W).
Defined.

Lemma merge_ranges_nonnegative_witness :
  WellFormedInputs JsUndefined strictEquals lcsFastDiff lcsDiffCore
    movesBase movesA movesB
  /\ Forall NonNegative (jsDiff3MergeIndices movesBase movesA movesB).
Proof.
  assert (W : WellFormedInputs JsUndefined strictEquals lcsFastDiff
                lcsDiffCore movesBase movesA movesB) by evaluate.
  split; [exact W|].
  exact (merge_ranges_nonnegative JsUndefined strictEquals lcsFastDiff
           lcsDiffCore movesBase movesA movesB W).
Defined.

Lemma diffIndices_changed_regions_witness :
  SameStore movesBase movesA
  /\ DifferCorrect JsUndefined strictEquals lcsFastDiff lcsDiffCore
       movesBase movesA
  /\ ChangedRegions JsUndefined (sameElement strictEquals) (elems movesBase)
       (elems movesA) (jsDiffIndices movesBase movesA).
Proof.
  assert (S : SameStore movesBase movesA)
    by (simpl; intros H; discriminate H).
  assert (D : DifferCorrect JsUndefined strictEquals lcsFastDiff lcsDiffCore
                movesBase movesA) by (vm_compute; reflexivity).
  split; [exact S|]. split; [exact D|].
  exact (diffIndices_changed_regions JsUndefined strictEquals lcsFastDiff
           lcsDiffCore movesBase movesA S D).
Defined.

Lemma diffIndices_equal_sequences_witness :
  EqualSequences JsUndefined strictEquals deletionBase deletionCopy
  /\ FastDiffOnEqual lcsFastDiff deletionBase deletionCopy
  /\ jsDiffIndices deletionBase deletionCopy = [].
Proof.
  assert (E : EqualSequences JsUndefined strictEquals deletionBase
                deletionCopy).
  { right. split; [reflexivity|]. intros k K.
    unfold zlen in K; simpl in K.
    assert (C : k = 0 \/ k = 1 \/ k = 2) by lia.
    destruct C as [->|[->| ->]]; reflexivity. }
  assert (F : FastDiffOnEqual lcsFastDiff deletionBase deletionCopy)
    by exact I.
  split; [exact E|]. split; [exact F|].
  exact (diffIndices_equal_sequences JsUndefined strictEquals lcsFastDiff
           lcsDiffCore deletionBase deletionCopy E F).
Defined.

(** The groups of the three runs used above. *)
Example moves_run :
  jsDiff3MergeIndices movesBase movesA movesB
  = [conflict (makeRange 0 2) (makeRange 0 1) (makeRange 0 0);
     okA 3 2 (Some 1) (Some 0);
     conflict (makeRange 5 0) (makeRange 4 1) (makeRange 3 2);
     okA 1 5 (Some 5) (Some 5)].
Proof. reflexivity. Qed.

Example edits_run :
  jsDiff3MergeIndices editsBase editsA editsB
  = [okA 1 0 (Some 1) (Some 1); okB 1 None None 2;
     okA 1 1 (Some 2) (Some 3)].
Proof. reflexivity. Qed.

Example touching_run :
  jsDiff3MergeIndices touchingBase touchingA touchingB
  = [okA 1 0 (Some 0) (Some 0);
     conflict (makeRange 1 1) (makeRange 1 2) (makeRange 1 1)].
Proof. reflexivity. Qed.

Example string_run :
  jsDiffIndices (StringSeq (letters "abcdef")) (StringSeq (letters "abXdf"))
  = [DiffIndicesResult.make (makeRange 2 1) (makeRange 2 1);
     DiffIndicesResult.make (makeRange 4 1) (makeRange 4 0)].
Proof. reflexivity. Qed.

(** * The claims about [diff3] *)

Lemma hasKey_In (k : string) (ks : list string) :
  hasKey k ks = true <-> In k ks.
Proof.
  unfold hasKey. rewrite existsb_exists. split.
  - intros (x & Hx & E). apply String.eqb_eq in E. now subst.
  - intros H. exists k. split; [exact H | apply String.eqb_refl].
Qed.

Lemma firstDuplicateFrom_twice (keys : list string) :
  forall seen k,
    firstDuplicateFrom seen keys = Some k ->
    (In k seen /\ In k keys) \/ OccursTwice k keys.
Proof.
  induction keys as [|k0 keys IH]; intros seen k H; simpl in H;
    [discriminate|].
  destruct (hasKey k0 seen) eqn:E.
  - inversion H; subst. left. split; [now apply hasKey_In | now left].
  - destruct (IH _ _ H) as [(S & K)|(l1 & l2 & l3 & ->)].
    + destruct S as [->|S].
      * right. apply in_split in K. destruct K as (l1 & l2 & ->).
        now exists [], l1, l2.
      * left. split; [exact S | now right].
    + right. now exists (k0 :: l1), l2, l3.
Qed.

Lemma firstDuplicate_twice (keys : list string) (k : string) :
  firstDuplicate keys = Some k -> OccursTwice k keys.
Proof.
  intros H. destruct (firstDuplicateFrom_twice _ _ _ H) as [(S & _)|O];
    [contradiction | exact O].
Qed.

Lemma firstDuplicateFrom_none (keys : list string) :
  forall seen,
    firstDuplicateFrom seen keys = None ->
    NoDup keys /\ forall k, In k keys -> ~ In k seen.
Proof.
  induction keys as [|k0 keys IH]; intros seen H; simpl in H.
  - split; [constructor | intros k []].
  - destruct (hasKey k0 seen) eqn:E; [discriminate|].
    destruct (IH _ H) as (N & D). split.
    + constructor; [|exact N]. intros K. apply (D _ K). now left.
    + intros k [->|K] S.
      * apply hasKey_In in S. congruence.
      * apply (D _ K). now right.
Qed.

(** The detection misses no duplicate. *)
Lemma hasDuplicateKey_complete (keys : list string) :
  ~ NoDup keys -> hasDuplicateKey keys = true.
Proof.
  intros N. unfold hasDuplicateKey, firstDuplicate.
  destruct (firstDuplicateFrom [] keys) eqn:E; [reflexivity|].
  exfalso. apply N. now apply firstDuplicateFrom_none in E.
Qed.

(** C8 (the deciding function is modelled from the specification).  For
    values [o], [a] and [b] that are structurally equal to each other,
    [diff3 o a b] succeeds; the value it returns is [o], to which [a] and
    [b] are structurally equal. *)
Theorem diff3_identity (o a b : Value) (options : MergeOptions) :
  valueEqb a o = true ->
  valueEqb b o = true ->
  valueEqb a b = true ->
  exists v,
    diff3 o a b options = Merged v
    /\ v = o /\ valueEqb a v = true /\ valueEqb b v = true.
Proof.
  intros A B _. exists o. repeat split; try assumption.
  unfold diff3. cbn [merge3 optionEqb]. now rewrite A, B.
Qed.

Lemma diff3_identity_witness :
  valueEqb (worldHello 1 2) (helloWorld 1 2) = true
  /\ valueEqb (helloWorld 1 2) (helloWorld 1 2) = true
  /\ valueEqb (worldHello 1 2) (helloWorld 1 2) = true
  /\ exists v,
      diff3 (helloWorld 1 2) (worldHello 1 2) (helloWorld 1 2) noOptions
      = Merged v
      /\ v = helloWorld 1 2
      /\ valueEqb (worldHello 1 2) v = true
      /\ valueEqb (helloWorld 1 2) v = true.
Proof.
  split; [reflexivity|]. split; [reflexivity|]. split; [reflexivity|].
  exact (diff3_identity (helloWorld 1 2) (worldHello 1 2) (helloWorld 1 2)
           noOptions eq_refl eq_refl eq_refl).
Defined.

(** C9, as stated, fails (the deciding function is modelled from the
    specification): three equal states with a repeated item merge to that
    state, since the comparison of the states settles the merge before any
    array is matched by key. *)
Lemma duplicate_unnoticed_when_states_equal :
  hasDuplicateArray noOptions (numberArray [2; 2]) = true
  /\ diff3 (numberArray [2; 2]) (numberArray [2; 2]) (numberArray [2; 2])
       noOptions
     = Merged (numberArray [2; 2])
  /\ hasDuplicateArray noOptions (numberArray [1; 2; 2]) = true
  /\ diff3 (numberArray [1; 2; 2]) (numberArray [1; 2; 2])
       (numberArray [1; 2; 2; 3]) noOptions
     = Merged (numberArray [1; 2; 2; 3]).
Proof. repeat split; reflexivity. Qed.

(** C9, as amended (the deciding function is modelled from the
    specification).  At any node of the recursion of [diff3], at the path
    [path], where two arrays [a] and [b] are merged against [o] (each
    differs from [o], which may be missing, and they differ from each
    other), when every item of the three arrays resolves to an identity key
    under the active key function and one of the three arrays has two items
    with one key, the merge of the node fails with the duplicate-key error
    at [path], for a key that stands twice in one of the three arrays; the
    message is [Duplicate array key '<key>' at <path>], the path being
    rendered with [/] for the root.  At the root this is the outcome of
    [diff3 o a b] itself. *)
Theorem duplicate_key_fails_array_merge (fuel : nat) (path : list string)
  (o : option Value) (ia ib : list Value) (options : MergeOptions)
  (ko ka kb : list string) :
  optionEqb (Some (VArray ia)) o = false ->
  optionEqb (Some (VArray ib)) o = false ->
  valueEqb (VArray ia) (VArray ib) = false ->
  keysOf options (itemsOf o) = Some ko ->
  keysOf options ia = Some ka ->
  keysOf options ib = Some kb ->
  hasDuplicateKey ko || hasDuplicateKey ka || hasDuplicateKey kb = true ->
  exists key,
    merge3 (S fuel) options path o (Some (VArray ia)) (Some (VArray ib))
    = Failed (DuplicateKeyError key path)
    /\ (forall v,
          o = Some v ->
          diff3 v (VArray ia) (VArray ib) options
          = Failed (DuplicateKeyError key []))
    /\ errorMessage (DuplicateKeyError key path)
       = ("Duplicate array key '" ++ key ++ "' at " ++ renderPath path)%string
    /\ renderPath [] = "/"%string
    /\ (OccursTwice key ko \/ OccursTwice key ka \/ OccursTwice key kb).
Proof.
  intros A B AB Ko Ka Kb D.
  assert (M : forall f p,
             merge3 (S f) options p o (Some (VArray ia)) (Some (VArray ib))
             = match
                 mergeArray options (merge3 f options) p (itemsOf o) ia ib
               with
               | Merged v => Merged (Some v)
               | Failed e => Failed e
               end).
  { intros f p. cbn [merge3]. rewrite A, B.
    cbn [optionEqb]. now rewrite AB. }
  assert (Dup : exists key,
             (forall f p,
                 mergeArray options (merge3 f options) p (itemsOf o) ia ib
                 = Failed (DuplicateKeyError key p))
             /\ (OccursTwice key ko \/ OccursTwice key ka
                 \/ OccursTwice key kb)).
  { unfold mergeArray. rewrite Ko, Ka, Kb. unfold hasDuplicateKey in D.
    destruct (firstDuplicate ko) as [k|] eqn:Do.
    - exists k. split; [reflexivity|]. left. now apply firstDuplicate_twice.
    - destruct (firstDuplicate ka) as [k|] eqn:Da.
      + exists k. split; [reflexivity|]. right; left.
        now apply firstDuplicate_twice.
      + destruct (firstDuplicate kb) as [k|] eqn:Db; [|discriminate].
        exists k. split; [reflexivity|]. right; right.
        now apply firstDuplicate_twice. }
  destruct Dup as (key & F & Tw). exists key.
  split; [now rewrite M, F|].
  split; [|repeat split; exact Tw].
  intros v ->. unfold diff3. now rewrite M, F.
Qed.

Lemma duplicate_key_fails_array_merge_witness :
  optionEqb (Some (numberArray [1; 5; 2; 4; 6]))
    (Some (numberArray [1; 2; 4; 5; 6; 2])) = false
  /\ optionEqb (Some (numberArray [2; 3; 4; 1; 5; 6]))
       (Some (numberArray [1; 2; 4; 5; 6; 2])) = false
  /\ valueEqb (numberArray [1; 5; 2; 4; 6]) (numberArray [2; 3; 4; 1; 5; 6])
     = false
  /\ keysOf noOptions (itemsOf (Some (numberArray [1; 2; 4; 5; 6; 2])))
     = Some ["1"; "2"; "4"; "5"; "6"; "2"]%string
  /\ keysOf noOptions (map VNumber [1; 5; 2; 4; 6])
     = Some ["1"; "5"; "2"; "4"; "6"]%string
  /\ keysOf noOptions (map VNumber [2; 3; 4; 1; 5; 6])
     = Some ["2"; "3"; "4"; "1"; "5"; "6"]%string
  /\ hasDuplicateKey ["1"; "2"; "4"; "5"; "6"; "2"]%string
     || hasDuplicateKey ["1"; "5"; "2"; "4"; "6"]%string
     || hasDuplicateKey ["2"; "3"; "4"; "1"; "5"; "6"]%string = true
  /\ exists key,
      merge3 1 noOptions ["x"%string]
        (Some (numberArray [1; 2; 4; 5; 6; 2]))
        (Some (VArray (map VNumber [1; 5; 2; 4; 6])))
        (Some (VArray (map VNumber [2; 3; 4; 1; 5; 6])))
      = Failed (DuplicateKeyError key ["x"%string])
      /\ (forall v,
            Some (numberArray [1; 2; 4; 5; 6; 2]) = Some v ->
            diff3 v (VArray (map VNumber [1; 5; 2; 4; 6]))
              (VArray (map VNumber [2; 3; 4; 1; 5; 6])) noOptions
            = Failed (DuplicateKeyError key []))
      /\ errorMessage (DuplicateKeyError key ["x"%string])
         = ("Duplicate array key '" ++ key ++ "' at "
            ++ renderPath ["x"%string])%string
      /\ renderPath [] = "/"%string
      /\ (OccursTwice key ["1"; "2"; "4"; "5"; "6"; "2"]%string
          \/ OccursTwice key ["1"; "5"; "2"; "4"; "6"]%string
          \/ OccursTwice key ["2"; "3"; "4"; "1"; "5"; "6"]%string).
Proof.
  repeat (split; [reflexivity|]).
  exact (duplicate_key_fails_array_merge 0 ["x"%string]
           (Some (numberArray [1; 2; 4; 5; 6; 2]))
           (map VNumber [1; 5; 2; 4; 6]) (map VNumber [2; 3; 4; 1; 5; 6])
           noOptions _ _ _ eq_refl eq_refl eq_refl eq_refl eq_refl eq_refl
           eq_refl).
Defined.

(** A duplicate in an array under a field is reported at the path of the
    field. *)
Example scenario_nested_duplicate :
  diff3 (VObject [("x"%string, numberArray [1; 1; 2])])
    (VObject [("x"%string, numberArray [1; 1; 3])])
    (VObject [("x"%string, numberArray [1; 1; 4])]) noOptions
  = Failed (DuplicateKeyError "1" ["x"%string])
  /\ errorMessage (DuplicateKeyError "1" ["x"%string])
     = "Duplicate array key '1' at /x"%string.
Proof. split; reflexivity. Qed.

(** An item without an identity key (an object, when no extractor is
    given) stops the array merge with a conflict before any duplicate is
    looked for. *)
Example scenario_item_without_key :
  diff3 (numberArray [1; 1]) (VArray [withId 1]) (numberArray [3]) noOptions
  = Failed (ConflictError []).
Proof. reflexivity. Qed.

(** ** The scenarios of the specification *)

Example scenario_both_change :
  diff3 (helloWorld 1 2) (helloWorld 2 2) (helloWorld 1 3) noOptions
  = Merged (helloWorld 2 3).
Proof. reflexivity. Qed.

Example scenario_remove_and_change :
  option_map errorMessage
    match
      diff3 (helloWorld 1 2) (VObject [("hello"%string, VNumber 1)])
        (helloWorld 1 3) noOptions
    with
    | Failed e => Some e
    | Merged _ => None
    end
  = Some "Conflict at /world"%string.
Proof. reflexivity. Qed.

Example scenario_remove_and_insert :
  diff3 (numberArray [1; 2; 3]) (numberArray [2; 3]) (numberArray [1; 2; 4; 3])
    noOptions
  = Merged (numberArray [2; 4; 3]).
Proof. reflexivity. Qed.

Example scenario_two_moves :
  diff3 (numberArray [1; 2; 3; 4; 5; 6]) (numberArray [1; 5; 2; 3; 4; 6])
    (numberArray [2; 3; 4; 1; 5; 6]) noOptions
  = Merged (numberArray [5; 2; 3; 4; 1; 6]).
Proof. reflexivity. Qed.

Example scenario_duplicate_key :
  option_map errorMessage
    match
      diff3 (numberArray [1; 2; 4; 5; 6]) (numberArray [1; 5; 2; 4; 6; 2])
        (numberArray [2; 3; 4; 1; 5; 6]) noOptions
    with
    | Failed e => Some e
    | Merged _ => None
    end
  = Some "Duplicate array key '2' at /"%string.
Proof. reflexivity. Qed.

Example scenario_keyed_array :
  diff3 (VArray [withId 1; withId 2; withId 3]) (VArray [withId 2; withId 3])
    (VArray [withId 1; withId 2; withId 3; withId 4]) byId
  = Merged (VArray [withId 2; withId 3; withId 4]).
Proof. reflexivity. Qed.

Example scenario_keyed_conflict :
  option_map errorMessage
    match
      diff3 (VArray [named "foo" []; named "bar" []])
        (VArray [named "foo" []; named "bar" [1]])
        (VArray [named "foo" []; named "bar" [2]]) byId
    with
    | Failed e => Some e
    | Merged _ => None
    end
  = Some "Conflict at /bar/value"%string.
Proof. reflexivity. Qed.

(** * Further properties of the sweep *)

Section Bounds.

Variables oLen aLen bLen : Z.

Lemma inv_le (st : MergeState) (hs : list Hunk) :
  Inv oLen aLen bLen st hs ->
  oOffset st <= oLen /\ aOffset st <= aLen /\ bOffset st <= bLen.
Proof.
  intros I.
  destruct (inv_a _ _ _ _ _ I) as [A _]. destruct (inv_b _ _ _ _ _ I) as [B _].
  apply AlignedFrom_le_len in A, B. lia.
Qed.

(** When the hunks are used up the three offsets are as far from the three
    lengths. *)
Lemma inv_done (st : MergeState) :
  Inv oLen aLen bLen st [] ->
  oOffset st <= oLen
  /\ aOffset st + (oLen - oOffset st) = aLen
  /\ bOffset st + (oLen - oOffset st) = bLen.
Proof.
  intros I.
  destruct (inv_a _ _ _ _ _ I) as [A _]. destruct (inv_b _ _ _ _ _ I) as [B _].
  simpl in A, B. lia.
Qed.

Lemma commonSteps_within (targetOffset : Z) (st : MergeState) :
  0 <= oOffset st -> 0 <= aOffset st -> 0 <= bOffset st ->
  targetOffset <= oLen ->
  aOffset st + (targetOffset - oOffset st) <= aLen ->
  bOffset st + (targetOffset - oOffset st) <= bLen ->
  Forall (fun s => Forall (WithinBounds oLen aLen bLen) (emitted s))
    (commonSteps targetOffset st).
Proof.
  intros O A B To Ta Tb.
  destruct (commonSteps_shape targetOffset st) as [(E & _)|(E & D)];
    rewrite E; repeat constructor; simpl; lia.
Qed.

Lemma iteration_within (it : Iteration) :
  Inv oLen aLen bLen (before it) (first it :: following it) ->
  Forall (fun s => Forall (WithinBounds oLen aLen bLen) (emitted s))
    (commonSteps (regionLhs it) (before it)
     ++ [groupStep oLen aLen bLen it]).
Proof.
  intros I. destruct (atGroup_inv oLen aLen bLen it I) as (I' & O).
  pose proof (inv_bounds _ _ _ _ _ I) as B.
  inversion B as [|? ? (B1 & B2 & B3 & B4 & B5 & B6) _]; subst.
  destruct (copyCommon_offsets (regionLhs it) (before it) B1)
    as (_ & Ca & Cb).
  fold (atGroup it) in Ca, Cb.
  destruct (inv_le _ _ I') as (Lo & La & Lb).
  pose proof (inv_after oLen aLen bLen it I) as I''.
  destruct (inv_le _ _ I'') as (Lo' & La' & Lb').
  apply Forall_app. split.
  - apply commonSteps_within; try lia.
    + exact (inv_o _ _ _ _ _ I).
    + exact (inv_aOffset _ _ _ _ _ I).
    + exact (inv_bOffset _ _ _ _ _ I).
  - constructor; [|constructor].
    destruct (taken it) as [|h2 tk] eqn:E.
    + rewrite (groupStep_single oLen aLen bLen it E). simpl.
      unfold singleRecords.
      pose proof (inv_sideOffset _ _ _ _ _ (side (first it)) I) as Ps.
      destruct (length (sideRange (first it)) >? 0) eqn:L; [|constructor].
      unfold upperBound in B6.
      destruct (side (first it)); repeat constructor; simpl in *; lia.
    + rewrite (groupStep_conflict_offsets oLen aLen bLen it I)
        by congruence.
      destruct (offsets_advance oLen aLen bLen it SideA I) as (A & R).
      destruct (offsets_advance oLen aLen bLen it SideB I) as (Bb & _).
      rewrite (oOffset_after oLen aLen bLen it) in Lo'.
      simpl in A, Bb. unfold WithinBounds, RangeWithin, upperBound.
      repeat constructor; simpl; lia.
Qed.

Lemma mergeHunks_within (m1 m2 : list DiffIndicesResult.t) :
  WellFormedDiff oLen aLen m1 ->
  WellFormedDiff oLen bLen m2 ->
  Forall (WithinBounds oLen aLen bLen) (mergeHunks oLen aLen bLen m1 m2).
Proof.
  intros W1 W2. rewrite <- mergeSteps_records. apply Forall_flat_map.
  unfold mergeSteps. apply Forall_app. split.
  - apply Forall_flat_map.
    eapply Forall_impl; [|exact (run_inv _ _ _ _ _ W1 W2)].
    intros it I. cbv beta in I. now apply iteration_within.
  - pose proof (sweep_inv _ _ _ _ _ _ (inv_init _ _ _ _ _ W1 W2)
                  (Nat.le_refl _)) as F.
    destruct (inv_done _ F) as (D1 & D2 & D3).
    apply commonSteps_within; try lia.
    + exact (inv_o _ _ _ _ _ F).
    + exact (inv_aOffset _ _ _ _ _ F).
    + exact (inv_bOffset _ _ _ _ _ F).
Qed.

End Bounds.

(** ** When only one side has changed *)

Section OneSide.

Variables oLen aLen bLen : Z.

Lemma first_side_location (it : Iteration) (s : Side) :
  Inv oLen aLen bLen (before it) (first it :: following it) ->
  side (first it) = s ->
  location (sideRange (first it)) = sideOffset s (atGroup it).
Proof.
  intros I Sd. destruct (atGroup_inv oLen aLen bLen it I) as (I' & O).
  pose proof (inv_side _ _ _ _ _ s I') as [A _].
  unfold sideHunks in A. cbn [filter] in A. rewrite Sd in A.
  assert (E : Side_eqb s s = true) by now destruct s.
  rewrite E in A. simpl in A. unfold regionLhs in O. lia.
Qed.

Lemma copyCommon_sideOffset (targetOffset : Z) (st : MergeState) (s : Side) :
  oOffset st <= targetOffset ->
  sideOffset s (copyCommon targetOffset st)
  = sideOffset s st + (targetOffset - oOffset st).
Proof.
  intros H. destruct (copyCommon_offsets targetOffset st H) as (_ & A & B).
  now destruct s.
Qed.

Lemma commonSteps_side_cover (targetOffset : Z) (st : MergeState) (s : Side) :
  oOffset st <= targetOffset ->
  Forall
    (fun r => isConflict r = false /\ isChangeOf (otherSide s) r = false)
    (flat_map emitted (commonSteps targetOffset st))
  /\ exists rs,
      map (recordRange s) (flat_map emitted (commonSteps targetOffset st))
      = map Some rs
      /\ Covers rs (sideOffset s st)
           (sideOffset s st + (targetOffset - oOffset st)).
Proof.
  intros H.
  destruct (commonSteps_shape targetOffset st) as [(E & D & _)|(E & D)];
    rewrite E; simpl.
  - split; [constructor|]. exists []. split; [reflexivity|]. simpl. lia.
  - split; [repeat constructor; now destruct s|].
    exists [makeRange (sideOffset s st) (targetOffset - oOffset st)].
    split; [now destruct s|]. simpl. unfold upperBound; simpl. lia.
Qed.

Lemma iteration_side_cover (it : Iteration) (s : Side) :
  Inv oLen aLen bLen (before it) (first it :: following it) ->
  OnlySide s (group it) ->
  Forall
    (fun r => isConflict r = false /\ isChangeOf (otherSide s) r = false)
    (flat_map emitted
       (commonSteps (regionLhs it) (before it)
        ++ [groupStep oLen aLen bLen it]))
  /\ exists rs,
      map (recordRange s)
        (flat_map emitted
           (commonSteps (regionLhs it) (before it)
            ++ [groupStep oLen aLen bLen it]))
      = map Some rs
      /\ Covers rs (sideOffset s (before it))
           (sideOffset s (after oLen aLen bLen it)).
Proof.
  intros I O.
  pose proof (inv_bounds _ _ _ _ _ I) as B.
  inversion B as [|? ? (B1 & _ & _ & _ & B5 & _) _]; subst.
  destruct (commonSteps_side_cover (regionLhs it) (before it) s B1)
    as (F1 & rs1 & M1 & C1).
  rewrite <- (copyCommon_sideOffset (regionLhs it) (before it) s B1) in C1.
  fold (atGroup it) in C1.
  destruct (group_one_sided oLen aLen bLen it s I O)
    as (_ & Em & _ & _ & _ & Sa & _).
  assert (Sd : side (first it) = s) by (inversion O; assumption).
  pose proof (first_side_location it s I Sd) as Loc.
  rewrite flat_map_app, map_app. cbn [flat_map]. rewrite app_nil_r, Em.
  destruct (length (sideRange (first it)) >? 0) eqn:L.
  - split.
    + apply Forall_app. split; [exact F1|].
      repeat constructor; now destruct s.
    + exists (rs1 ++ [makeRange (location (sideRange (first it)))
                        (length (sideRange (first it)))]).
      rewrite map_app, M1. split; [now destruct s|].
      eapply Covers_app; [exact C1|]. simpl. unfold upperBound in *.
      simpl. lia.
  - split.
    + apply Forall_app. split; [exact F1 | constructor].
    + exists rs1. rewrite app_nil_r. split; [exact M1|].
      replace (sideOffset s (after oLen aLen bLen it))
        with (sideOffset s (atGroup it)); [exact C1|].
      unfold upperBound in Sa. lia.
Qed.

Lemma iterations_side_cover (s : Side) (fuel : nat) :
  forall st hs,
    Inv oLen aLen bLen st hs ->
    Forall (fun h => side h = s) hs ->
    (List.length hs <= fuel)%nat ->
    Forall
      (fun r => isConflict r = false /\ isChangeOf (otherSide s) r = false)
      (flat_map emitted
         (flat_map
            (fun it =>
               commonSteps (regionLhs it) (before it)
               ++ [groupStep oLen aLen bLen it])
            (iterations oLen aLen bLen fuel st hs)))
    /\ exists rs,
        map (recordRange s)
          (flat_map emitted
             (flat_map
                (fun it =>
                   commonSteps (regionLhs it) (before it)
                   ++ [groupStep oLen aLen bLen it])
                (iterations oLen aLen bLen fuel st hs)))
        = map Some rs
        /\ Covers rs (sideOffset s st)
             (sideOffset s (sweep oLen aLen bLen fuel st hs)).
Proof.
  induction fuel as [|fuel IH]; intros st hs I F L.
  - destruct hs; [|simpl in L; lia]. simpl. split; [constructor|].
    exists []. split; reflexivity.
  - destruct hs as [|h rest].
    { simpl. split; [constructor|]. exists []. split; reflexivity. }
    set (it := mkIteration st h rest).
    assert (Fg : Forall (fun h => side h = s) (group it ++ remaining it))
      by (rewrite <- group_split; exact F).
    apply Forall_app in Fg. destruct Fg as (Fg & Fr).
    destruct (iteration_side_cover it s I Fg) as (F1 & rs1 & M1 & C1).
    pose proof (remaining_shorter it) as Sh.
    destruct (IH (after oLen aLen bLen it) (remaining it))
      as (F2 & rs2 & M2 & C2).
    { now apply (inv_after oLen aLen bLen it). }
    { exact Fr. }
    { simpl in *. lia. }
    rewrite sweep_unfold. cbn [iterations flat_map]. fold it.
    rewrite flat_map_app. split.
    + apply Forall_app. now split.
    + exists (rs1 ++ rs2). rewrite !map_app, M1, M2. split; [reflexivity|].
      eapply Covers_app; eassumption.
Qed.

Lemma mergeHunks_passes_through (s : Side)
  (m1 m2 : list DiffIndicesResult.t) :
  WellFormedDiff oLen aLen m1 ->
  WellFormedDiff oLen bLen m2 ->
  sideDiff (otherSide s) m1 m2 = [] ->
  PassesThrough s (sideLen aLen bLen s) (mergeHunks oLen aLen bLen m1 m2).
Proof.
  intros W1 W2 E.
  pose proof (inv_init _ _ _ _ _ W1 W2) as I.
  assert (F : Forall (fun h => side h = s) (sortedHunks m1 m2)).
  { eapply Permutation_Forall; [apply sortHunks_perm|].
    apply Forall_app.
    destruct s; simpl in E; subst; split; try constructor;
      apply Forall_map, Forall_forall; reflexivity. }
  destruct (iterations_side_cover s _ _ _ I F (Nat.le_refl _))
    as (F1 & rs1 & M1 & C1).
  pose proof (sweep_inv _ _ _ _ _ _ I (Nat.le_refl _)) as Fin.
  destruct (inv_done _ _ _ _ Fin) as (D1 & D2 & D3).
  destruct (commonSteps_side_cover oLen
              (sweep oLen aLen bLen (List.length (sortedHunks m1 m2))
                 (mkState [] 0 0 0) (sortedHunks m1 m2)) s D1)
    as (F2 & rs2 & M2 & C2).
  rewrite <- mergeSteps_records. unfold mergeSteps, mergeIterations.
  rewrite flat_map_app. split.
  - apply Forall_app. now split.
  - exists (rs1 ++ rs2). rewrite !map_app, M1, M2. split; [reflexivity|].
    assert (Z0 : sideOffset s (mkState [] 0 0 0) = 0) by now destruct s.
    rewrite Z0 in C1.
    eapply Covers_app; [exact C1|].
    replace (sideLen aLen bLen s)
      with (sideOffset s
              (sweep oLen aLen bLen (List.length (sortedHunks m1 m2))
                 (mkState [] 0 0 0) (sortedHunks m1 m2))
            + (oLen
               - oOffset
                   (sweep oLen aLen bLen (List.length (sortedHunks m1 m2))
                      (mkState [] 0 0 0) (sortedHunks m1 m2))));
      [exact C2|].
    destruct s; simpl; lia.
Qed.

End OneSide.

(** ** Conflicts and touching hunks *)

Section Touch.

Variables oLen aLen bLen : Z.

Lemma group_ub (it : Iteration) (h : Hunk) :
  In h (group it) -> upperBound (oRange h) <= regionRhs it.
Proof.
  rewrite regionRhs_end. intros [<-|H].
  - apply regionEnd_ge.
  - pose proof (regionEnd_ub (taken it) (upperBound (oRange (first it))))
      as U.
    rewrite Forall_forall in U. now apply U.
Qed.

(** The first two hunks of a group of several touch and are of opposite
    sides. *)
Lemma group_opens_with_touch (it : Iteration) (h2 : Hunk) (tk : list Hunk) :
  Inv oLen aLen bLen (before it) (first it :: following it) ->
  taken it = h2 :: tk ->
  side (first it) <> side h2
  /\ location (oRange (first it)) <= upperBound (oRange h2)
  /\ location (oRange h2) <= upperBound (oRange (first it)).
Proof.
  intros I E.
  pose proof (taken_chained it) as C. rewrite E in C. simpl in C.
  destruct C as (C & _).
  pose proof (inv_sorted _ _ _ _ _ I) as S.
  pose proof (inv_bounds _ _ _ _ _ I) as B.
  rewrite group_split in S, B. unfold group in S, B. rewrite E in S, B.
  simpl in S, B.
  inversion S as [|? ? _ F]; subst.
  inversion F as [|? ? F1 _]; subst. unfold byLocation in F1.
  inversion B as [|? ? _ B']; subst.
  inversion B' as [|? ? (_ & B2 & _) _]; subst.
  unfold upperBound in *. repeat split; try lia.
  intros Sd.
  pose proof (inv_side _ _ _ _ _ (side h2) I) as [_ Sp].
  rewrite group_split in Sp. unfold group, sideHunks in Sp.
  rewrite E in Sp. cbn [app filter] in Sp. rewrite Sd in Sp.
  assert (Es : Side_eqb (side h2) (side h2) = true)
    by now destruct (side h2).
  rewrite Es in Sp. simpl in Sp. unfold upperBound in Sp. lia.
Qed.

Lemma sortedHunks_origin (m1 m2 : list DiffIndicesResult.t) (h : Hunk) :
  In h (sortedHunks m1 m2) ->
  exists d, h = addHunk d (side h) /\ In d (sideDiff (side h) m1 m2).
Proof.
  intros H. unfold sortedHunks in H.
  apply (Permutation_in _ (Permutation_sym (sortHunks_perm _))) in H.
  apply in_app_or in H.
  destruct H as [H|H]; apply in_map_iff in H; destruct H as (d & <- & Hd);
    exists d; simpl; auto.
Qed.

Lemma sortedHunks_In (m1 m2 : list DiffIndicesResult.t) (s : Side)
  (d : DiffIndicesResult.t) :
  In d (sideDiff s m1 m2) -> In (addHunk d s) (sortedHunks m1 m2).
Proof.
  intros H. unfold sortedHunks.
  apply (Permutation_in _ (sortHunks_perm _)). apply in_or_app.
  destruct s; [left | right]; simpl in H;
    apply in_map_iff; exists d; auto.
Qed.

(** Two hunks that touch are taken into one group. *)
Lemma iterations_touching (h h' : Hunk) (fuel : nat) :
  location (oRange h) <= upperBound (oRange h') ->
  location (oRange h') <= upperBound (oRange h) ->
  forall st hs,
    StronglySorted byLocation hs ->
    (List.length hs <= fuel)%nat ->
    In h hs -> In h' hs ->
    exists it,
      In it (iterations oLen aLen bLen fuel st hs)
      /\ In h (group it) /\ In h' (group it).
Proof.
  intros T1 T2. induction fuel as [|fuel IH]; intros st hs S L H H'.
  - destruct hs; [contradiction | simpl in L; lia].
  - destruct hs as [|x rest]; [contradiction|].
    set (it := mkIteration st x rest).
    pose proof (remaining_all_beyond it S) as Bey.
    rewrite Forall_forall in Bey.
    assert (G : x :: rest = group it ++ remaining it)
      by apply (group_split it).
    rewrite G in H, H'. apply in_app_or in H. apply in_app_or in H'.
    cbn [iterations]. fold it.
    destruct H as [H|H], H' as [H'|H'].
    + exists it. repeat split; auto. now left.
    + pose proof (group_ub it h H). specialize (Bey h' H'). lia.
    + pose proof (group_ub it h' H'). specialize (Bey h H). lia.
    + destruct (IH (after oLen aLen bLen it) (remaining it))
        as (it' & I1 & I2 & I3); auto.
      * rewrite G in S. now apply StronglySorted_app_r in S.
      * pose proof (remaining_shorter it). simpl in *. lia.
      * exists it'. repeat split; auto. now right.
Qed.

Lemma conflict_from_group (m1 m2 : list DiffIndicesResult.t)
  (aR oR bR : Range) :
  In (conflict aR oR bR) (mergeHunks oLen aLen bLen m1 m2) ->
  exists it,
    In it (mergeIterations oLen aLen bLen m1 m2) /\ taken it <> [].
Proof.
  rewrite <- mergeSteps_records. unfold mergeSteps.
  rewrite flat_map_app. intros H. apply in_app_or in H.
  assert (C : forall t st,
             ~ In (conflict aR oR bR) (flat_map emitted (commonSteps t st))).
  { intros t st Hin.
    destruct (commonSteps_shape t st) as [(E & _)|(E & _)];
      rewrite E in Hin; simpl in Hin; intuition discriminate. }
  destruct H as [H|H]; [|now apply C in H].
  apply in_flat_map in H. destruct H as (s & Hs & Hin).
  apply in_flat_map in Hs. destruct Hs as (it & Hit & Hs).
  apply in_app_or in Hs. destruct Hs as [Hs|[<-|[]]].
  - exfalso. apply (C (regionLhs it) (before it)).
    apply in_flat_map. now exists s.
  - exists it. split; [exact Hit|]. intros E.
    rewrite (groupStep_single oLen aLen bLen it E) in Hin. simpl in Hin.
    unfold singleRecords in Hin.
    destruct (length (sideRange (first it)) >? 0), (side (first it));
      simpl in Hin; intuition discriminate.
Qed.

Lemma mergeHunks_conflict_iff (m1 m2 : list DiffIndicesResult.t) :
  WellFormedDiff oLen aLen m1 ->
  WellFormedDiff oLen bLen m2 ->
  (exists aR oR bR, In (conflict aR oR bR) (mergeHunks oLen aLen bLen m1 m2))
  <-> (exists ha hb, In ha m1 /\ In hb m2 /\ Touching ha hb).
Proof.
  intros W1 W2. pose proof (run_inv _ _ _ _ _ W1 W2) as Is.
  rewrite Forall_forall in Is. split.
  - intros (aR & oR & bR & H).
    destruct (conflict_from_group _ _ _ _ _ H) as (it & Hit & N).
    destruct (taken it) as [|h2 tk] eqn:E; [contradiction|].
    destruct (group_opens_with_touch it h2 tk (Is it Hit) E)
      as (Sd & T1 & T2).
    assert (G1 : In (first it) (sortedHunks m1 m2)).
    { rewrite <- (run_groups oLen aLen bLen m1 m2). apply in_concat.
      exists (group it). split; [now apply in_map | now left]. }
    assert (G2 : In h2 (sortedHunks m1 m2)).
    { rewrite <- (run_groups oLen aLen bLen m1 m2). apply in_concat.
      exists (group it). split; [now apply in_map|].
      unfold group. rewrite E. right. now left. }
    destruct (sortedHunks_origin _ _ _ G1) as (d1 & E1 & D1).
    destruct (sortedHunks_origin _ _ _ G2) as (d2 & E2 & D2).
    rewrite E1 in T1, T2. rewrite E2 in T1, T2. simpl in T1, T2.
    destruct (side (first it)), (side h2); try congruence; simpl in D1, D2.
    + exists d1, d2. repeat split; assumption.
    + exists d2, d1. repeat split; assumption.
  - intros (ha & hb & Ha & Hb & T1 & T2).
    pose proof (sortedHunks_In m1 m2 SideA ha Ha) as Ga.
    pose proof (sortedHunks_In m1 m2 SideB hb Hb) as Gb.
    destruct (iterations_touching (addHunk ha SideA) (addHunk hb SideB)
                (List.length (sortedHunks m1 m2)) T1 T2 (mkState [] 0 0 0)
                (sortedHunks m1 m2) (sortHunks_sorted _) (Nat.le_refl _)
                Ga Gb) as (it & Hit & I1 & I2).
    fold (mergeIterations oLen aLen bLen m1 m2) in Hit.
    assert (B : BothSides (group it)).
    { split; intros N.
      - pose proof (sideHunks_In SideA _ _ I1 eq_refl) as X.
        rewrite N in X. contradiction.
      - pose proof (sideHunks_In SideB _ _ I2 eq_refl) as X.
        rewrite N in X. contradiction. }
    destruct (group_maximal oLen aLen bLen it (Is it Hit))
      as (_ & _ & _ & Em & _).
    destruct (Em B) as (aR & bR & R).
    exists aR, (makeRange (regionLhs it) (regionRhs it - regionLhs it)), bR.
    rewrite <- mergeSteps_records. apply in_flat_map.
    exists (groupStep oLen aLen bLen it). split; [|rewrite R; now left].
    unfold mergeSteps. apply in_or_app. left. apply in_flat_map.
    exists it. split; [exact Hit|]. apply in_or_app. right. now left.
Qed.

End Touch.

(** ** The common regions are common *)

Section CommonRegions.

Context {T : Type}.
Variable undefined : T.
Variable R : T -> T -> Prop.
Variables os xs ys : list T.

Lemma EqualRun_part (zs : list T) (x y n d n' : Z) :
  EqualRun undefined R os zs x y n ->
  0 <= d -> d + n' <= n ->
  EqualRun undefined R os zs (x + d) (y + d) n'.
Proof.
  intros H D N k K.
  replace (x + d + k) with (x + (d + k)) by lia.
  replace (y + d + k) with (y + (d + k)) by lia.
  apply H. lia.
Qed.

Lemma RegionsUpTo_shift (zs : list T) (m : list DiffIndicesResult.t)
  (x y xe ye d : Z) :
  RegionsUpTo undefined R os zs x y m xe ye ->
  0 <= d ->
  match m with
  | [] => x + d <= xe
  | h :: _ => x + d <= location (DiffIndicesResult.a h)
  end ->
  RegionsUpTo undefined R os zs (x + d) (y + d) m xe ye.
Proof.
  destruct m as [|h m]; simpl; intros H D L.
  - destruct H as (H1 & H2 & H3). repeat split; try lia.
    eapply EqualRun_part; [exact H3 | lia | lia].
  - destruct H as (H1 & H2 & H3 & H4 & H5 & H6 & H7).
    repeat split; try lia; try assumption.
    eapply EqualRun_part; [exact H3 | lia | lia].
Qed.

Lemma RegionsUpTo_app_end (zs : list T) (l1 l2 : list DiffIndicesResult.t)
  (xe ye : Z) :
  forall x y,
    RegionsUpTo undefined R os zs x y (l1 ++ l2) xe ye ->
    RegionsUpTo undefined R os zs (fst (alignedEnd x y l1))
      (snd (alignedEnd x y l1)) l2 xe ye.
Proof.
  unfold alignedEnd.
  induction l1 as [|h l1 IH]; simpl; intros x y H; [exact H|].
  destruct H as (_ & _ & _ & _ & _ & _ & H). now apply IH.
Qed.

Lemma RegionsUpTo_head_run (zs : list T) (m : list DiffIndicesResult.t)
  (x y xe ye n : Z) :
  RegionsUpTo undefined R os zs x y m xe ye ->
  match m with
  | [] => x + n <= xe
  | h :: _ => x + n <= location (DiffIndicesResult.a h)
  end ->
  EqualRun undefined R os zs x y n.
Proof.
  destruct m as [|h m]; simpl; intros H L k K.
  - destruct H as (_ & _ & H). apply H. lia.
  - destruct H as (_ & _ & H & _). apply H. lia.
Qed.

Let oLen := zlen os.
Let aLen := zlen xs.
Let bLen := zlen ys.

Lemma sideLen_sideSeq (s : Side) :
  sideLen aLen bLen s = zlen (sideSeq xs ys s).
Proof. now destruct s. Qed.

Lemma regions_copyCommon (s : Side) (st : MergeState) (h : Hunk)
  (rest : list Hunk) :
  Inv oLen aLen bLen st (h :: rest) ->
  SideRegions undefined R os (sideSeq xs ys s) s st (h :: rest) ->
  SideRegions undefined R os (sideSeq xs ys s) s
    (copyCommon (location (oRange h)) st) (h :: rest).
Proof.
  intros I G. unfold SideRegions in *.
  pose proof (inv_bounds _ _ _ _ _ I) as B.
  inversion B as [|? ? (B1 & B2 & B3 & _) _]; subst.
  destruct (copyCommon_offsets (location (oRange h)) st B1) as (O & _).
  rewrite O, (copyCommon_sideOffset _ _ s B1).
  replace (location (oRange h))
    with (oOffset st + (location (oRange h) - oOffset st)) at 1 by lia.
  apply RegionsUpTo_shift; [exact G | lia|].
  pose proof (inv_sorted _ _ _ _ _ I) as S.
  destruct (sideHunks s (h :: rest)) as [|h1 l] eqn:E; simpl.
  - unfold upperBound in B3. fold oLen. lia.
  - assert (Hin : In h1 (h :: rest)).
    { assert (X : In h1 (sideHunks s (h :: rest)))
        by (rewrite E; now left).
      apply filter_In in X. tauto. }
    destruct Hin as [<-|Hin]; [lia|].
    inversion S as [|? ? _ F]; subst. rewrite Forall_forall in F.
    specialize (F h1 Hin). unfold byLocation in F. lia.
Qed.

Lemma regions_after (s : Side) (it : Iteration) :
  Inv oLen aLen bLen (before it) (first it :: following it) ->
  SideRegions undefined R os (sideSeq xs ys s) s (atGroup it)
    (first it :: following it) ->
  SideRegions undefined R os (sideSeq xs ys s) s
    (after oLen aLen bLen it) (remaining it).
Proof.
  intros I G. unfold SideRegions in *.
  destruct (atGroup_inv oLen aLen bLen it I) as (I' & O).
  destruct (sideOffset_after oLen aLen bLen it s I) as (E & (F1 & F2) & F3).
  rewrite (oOffset_after oLen aLen bLen it), E.
  rewrite group_split, sideHunks_app, map_app, O in G.
  apply RegionsUpTo_app_end in G.
  set (e := alignedEnd (regionLhs it) (sideOffset s (atGroup it))
              (map toDiff (sideHunks s (group it)))) in *.
  replace (regionRhs it) with (fst e + (regionRhs it - fst e)) at 1 by lia.
  apply RegionsUpTo_shift; [exact G | lia|].
  pose proof (remaining_all_beyond it (inv_sorted _ _ _ _ _ I)) as Bey.
  pose proof (inv_le _ _ _ _ _ (inv_after oLen aLen bLen it I)) as (Lo & _).
  rewrite (oOffset_after oLen aLen bLen it) in Lo.
  destruct (sideHunks s (remaining it)) as [|h1 l] eqn:Er; simpl.
  - fold oLen. lia.
  - assert (Hin : In h1 (remaining it)).
    { assert (X : In h1 (sideHunks s (remaining it)))
        by (rewrite Er; now left).
      apply filter_In in X. tauto. }
    rewrite Forall_forall in Bey. specialize (Bey h1 Hin). lia.
Qed.

Lemma commonSteps_copy (targetOffset : Z) (st : MergeState)
  (hs : list Hunk) :
  SideRegions undefined R os xs SideA st hs ->
  SideRegions undefined R os ys SideB st hs ->
  targetOffset <= oLen ->
  Forall (fun h => targetOffset <= location (oRange h)) hs ->
  Forall (fun s => Forall (CopiesCommon undefined R os xs ys) (emitted s))
    (commonSteps targetOffset st).
Proof.
  intros Ga Gb L F.
  assert (Hd : forall s,
             match map toDiff (sideHunks s hs) with
             | [] => oOffset st + (targetOffset - oOffset st) <= zlen os
             | h :: _ =>
                 oOffset st + (targetOffset - oOffset st)
                 <= location (DiffIndicesResult.a h)
             end).
  { intros s. destruct (sideHunks s hs) as [|h1 l] eqn:E; simpl.
    - fold oLen. lia.
    - assert (X : In h1 (sideHunks s hs)) by (rewrite E; now left).
      apply filter_In in X. rewrite Forall_forall in F.
      specialize (F h1 (proj1 X)). lia. }
  destruct (commonSteps_shape targetOffset st) as [(E & _)|(E & D)];
    rewrite E; repeat constructor; simpl.
  - eapply RegionsUpTo_head_run; [exact Ga | apply (Hd SideA)].
  - eapply RegionsUpTo_head_run; [exact Gb | apply (Hd SideB)].
Qed.

Lemma groupStep_copy (it : Iteration) :
  Forall (CopiesCommon undefined R os xs ys)
    (emitted (groupStep oLen aLen bLen it)).
Proof.
  destruct (taken it) as [|h2 tk] eqn:E.
  - rewrite (groupStep_single oLen aLen bLen it E). simpl.
    unfold singleRecords.
    destruct (length (sideRange (first it)) >? 0), (side (first it));
      repeat constructor.
  - destruct (groupStep_conflict oLen aLen bLen it) as (aR & bR & Rr);
      [congruence|].
    rewrite Rr. repeat constructor.
Qed.

Lemma iterations_copy (fuel : nat) :
  forall st hs,
    Inv oLen aLen bLen st hs ->
    SideRegions undefined R os xs SideA st hs ->
    SideRegions undefined R os ys SideB st hs ->
    (List.length hs <= fuel)%nat ->
    Forall (fun s => Forall (CopiesCommon undefined R os xs ys) (emitted s))
      (flat_map
         (fun it =>
            commonSteps (regionLhs it) (before it)
            ++ [groupStep oLen aLen bLen it])
         (iterations oLen aLen bLen fuel st hs))
    /\ SideRegions undefined R os xs SideA
         (sweep oLen aLen bLen fuel st hs) []
    /\ SideRegions undefined R os ys SideB
         (sweep oLen aLen bLen fuel st hs) [].
Proof.
  induction fuel as [|fuel IH]; intros st hs I Ga Gb L.
  - destruct hs; [|simpl in L; lia]. simpl.
    split; [constructor | split; assumption].
  - destruct hs as [|h rest];
      [simpl; split; [constructor | split; assumption]|].
    set (it := mkIteration st h rest).
    pose proof (remaining_shorter it) as Sh.
    pose proof (regions_copyCommon SideA st h rest I Ga) as Ga'.
    pose proof (regions_copyCommon SideB st h rest I Gb) as Gb'.
    pose proof (regions_after SideA it I Ga') as Ga''.
    pose proof (regions_after SideB it I Gb') as Gb''.
    destruct (IH (after oLen aLen bLen it) (remaining it))
      as (F2 & Ra & Rb); auto.
    { now apply (inv_after oLen aLen bLen it). }
    { simpl in *. lia. }
    rewrite sweep_unfold. cbn [iterations flat_map]. fold it.
    split; [|split; assumption].
    apply Forall_app. split; [|exact F2].
    apply Forall_app. split.
    + pose proof (inv_bounds _ _ _ _ _ I) as B.
      pose proof (inv_sorted _ _ _ _ _ I) as S.
      inversion B as [|? ? (_ & B2 & B3 & _) _]; subst.
      apply (commonSteps_copy _ _ (h :: rest)); auto.
      * unfold regionLhs, upperBound in *. simpl. lia.
      * inversion S as [|? ? _ F]; subst.
        constructor; [unfold regionLhs; simpl; lia|].
        eapply Forall_impl; [|exact F]. unfold byLocation, regionLhs.
        simpl. auto.
    + constructor; [apply groupStep_copy | constructor].
Qed.

Lemma mergeHunks_copy (m1 m2 : list DiffIndicesResult.t) :
  ChangedRegions undefined R os xs m1 -> Separated m1 ->
  ChangedRegions undefined R os ys m2 -> Separated m2 ->
  Forall (CopiesCommon undefined R os xs ys)
    (mergeHunks oLen aLen bLen m1 m2).
Proof.
  intros C1 S1 C2 S2.
  assert (W1 : WellFormedDiff oLen aLen m1)
    by (split; [eapply ChangedRegions_aligned; exact C1 | exact S1]).
  assert (W2 : WellFormedDiff oLen bLen m2)
    by (split; [eapply ChangedRegions_aligned; exact C2 | exact S2]).
  pose proof (inv_init _ _ _ _ _ W1 W2) as I.
  destruct W1 as (A1 & _), W2 as (A2 & _).
  destruct (sideHunks_sortedHunks m1 m2 _ _ _ _ _ _ _ A1 A2) as (E1 & E2).
  destruct (iterations_copy (List.length (sortedHunks m1 m2))
              (mkState [] 0 0 0) (sortedHunks m1 m2) I) as (F & Ra & Rb).
  { unfold SideRegions. rewrite E1, toDiff_addHunk. exact C1. }
  { unfold SideRegions. rewrite E2, toDiff_addHunk. exact C2. }
  { apply Nat.le_refl. }
  rewrite <- mergeSteps_records. apply Forall_flat_map.
  unfold mergeSteps, mergeIterations. apply Forall_app. split; [exact F|].
  apply (commonSteps_copy _ _ []); auto. lia.
Qed.

End CommonRegions.

(** * Further properties of the differ *)

Section StringHunks.

Context {T : Type}.
Variable undefined : T.
Variable fastDiff : list T -> list T -> list (DiffOp * list T).

Lemma Separated_snoc (m : list DiffIndicesResult.t)
  (h : DiffIndicesResult.t) :
  Separated m ->
  Forall
    (fun d =>
       upperBound (DiffIndicesResult.a d) < location (DiffIndicesResult.a h))
    m ->
  Separated (m ++ [h]).
Proof.
  induction m as [|d m IH]; intros S F; [exact I|].
  inversion F as [|? ? Fd Fm]; subst.
  destruct m as [|d' m].
  - simpl. split; [exact Fd | exact I].
  - destruct S as (S1 & S2). split; [exact S1 | now apply IH].
Qed.

Lemma flush_separated (st : StringScan) :
  lastA st <= aIndex st ->
  Separated (scanned st) ->
  Forall (fun d => upperBound (DiffIndicesResult.a d) < lastA st)
    (scanned st) ->
  Separated (scanned (flush st))
  /\ Forall (fun d => upperBound (DiffIndicesResult.a d) <= aIndex st)
       (scanned (flush st)).
Proof.
  intros L S F. unfold flush.
  destruct ((aIndex st >? lastA st) || (bIndex st >? lastB st)); simpl.
  - split.
    + apply Separated_snoc; [exact S|]. exact F.
    + apply Forall_app. split.
      * eapply Forall_impl; [|exact F]. intros d Hd. cbv beta in Hd. lia.
      * repeat constructor. unfold upperBound; simpl. lia.
  - split; [exact S|].
    eapply Forall_impl; [|exact F]. intros d Hd. cbv beta in Hd. lia.
Qed.

Lemma flush_aIndex (st : StringScan) : aIndex (flush st) = aIndex st.
Proof.
  unfold flush.
  now destruct ((aIndex st >? lastA st) || (bIndex st >? lastB st)).
Qed.

Lemma scan_separated (pieces : list (DiffOp * list T)) :
  EqualPiecesNonEmpty pieces ->
  forall st,
    lastA st <= aIndex st ->
    Separated (scanned st) ->
    Forall (fun d => upperBound (DiffIndicesResult.a d) < lastA st)
      (scanned st) ->
    Separated (scanned (flush (fold_left (scanPiece T) pieces st))).
Proof.
  induction 1 as [|[type str] pieces Hp _ IH]; intros st L S F.
  - simpl. now apply flush_separated.
  - cbn [fold_left]. destruct type; cbn [scanPiece].
    + destruct (flush_separated st L S F) as (S' & F').
      assert (N : 0 < zlen str).
      { simpl in Hp. specialize (Hp eq_refl). unfold zlen.
        destruct str; [contradiction | simpl; lia]. }
      apply IH; cbn [aIndex lastA scanned]; try lia; [exact S'|].
      eapply Forall_impl; [|exact F']. intros d Hd. cbv beta in Hd.
      rewrite flush_aIndex. lia.
    + apply IH; cbn [aIndex lastA scanned]; assumption.
    + apply IH; cbn [aIndex lastA scanned]; try assumption.
      pose proof (zlen_nonneg str). lia.
Qed.

End StringHunks.

Section ArrayMiddle.

Context {T : Type}.
Variable undefined : T.
Variable areReferenceEqual : T -> T -> bool.
Variable areEqual : T -> T -> bool.
Variable diff_core :
  Z -> Z -> Z -> Z -> (Z -> Z -> bool) -> list (Z * Z * Z * Z).

(** When the elements at [offset] differ, the second loop stops above
    [offset]. *)
Lemma commonSuffix_above (xs ys : list T) (offset : Z) (fuel : nat) :
  areEqual (get undefined xs offset) (get undefined ys offset) = false ->
  forall aLength bLength,
    aLength - offset = bLength - offset ->
    offset < aLength ->
    offset
    < fst (commonSuffix undefined areEqual xs ys offset fuel aLength bLength).
Proof.
  intros Ne. induction fuel as [|fuel IH]; intros aLength bLength E L; simpl;
    [exact L|].
  destruct ((aLength >? offset) && (bLength >? offset)); [|exact L].
  destruct (areEqual (get undefined xs (aLength - 1))
              (get undefined ys (bLength - 1))) eqn:Q; simpl; [|exact L].
  apply IH; [lia|].
  destruct (Z.eq_dec (aLength - 1) offset) as [Ea|Na]; [|lia].
  assert (Eb : bLength - 1 = offset) by lia.
  rewrite Ea, Eb in Q. congruence.
Qed.

(** X12.  For any [areEqual], [diffIndicesArray a b areEqual] answers with
    the empty list, whatever the elements are, when [a] and [b] are one
    reference ([a === b]).  When they are not, it answers with the empty
    list, without calling the differ, when [a] and [b] are as long as each
    other and pair up entirely under [areEqual]; otherwise its hunks are the
    quadruples of [diff_core] on a middle, in the coordinates of the whole
    sequences, such that what is stripped before and after it pairs up
    under [areEqual], the middle is not empty on both sides, and, when it
    is empty on neither, its first elements differ and its last elements
    differ. *)
Theorem diffIndicesArray_middle (a b : ArrayLike T) :
  if identical areReferenceEqual a b
  then diffIndicesArray undefined areReferenceEqual diff_core a b areEqual = []
  else
    (zlen (elems a) = zlen (elems b)
     /\ EqualRun undefined (Holds areEqual) (elems a) (elems b) 0 0
          (zlen (elems a))
     /\ diffIndicesArray undefined areReferenceEqual diff_core a b areEqual
        = [])
    \/ exists offset aLength bLength,
        StrippedMiddle undefined areEqual (elems a) (elems b) offset aLength
          bLength
        /\ diffIndicesArray undefined areReferenceEqual diff_core a b areEqual
           = map pushQuad
               (diff_core offset (aLength - offset) offset
                  (bLength - offset)
                  (fun i j =>
                     areEqual (get undefined (elems a) i)
                       (get undefined (elems b) j))).
Proof.
  unfold diffIndicesArray.
  destruct (identical areReferenceEqual a b); [reflexivity|].
  set (xs := elems a). set (ys := elems b).
  pose proof (zlen_nonneg xs) as Nx. pose proof (zlen_nonneg ys) as Ny.
  destruct (commonPrefix_spec undefined areEqual xs ys (List.length xs) 0)
    as (P1 & P2 & P3); try lia.
  { apply EqualRun_empty. lia. }
  pose proof (commonPrefix_stops undefined areEqual xs ys (List.length xs) 0
                (Z.le_refl 0)) as St.
  cbv zeta in St, P1, P2, P3.
  set (offset := commonPrefix undefined areEqual xs ys (List.length xs) 0)
    in *.
  assert (St' : ((offset <? zlen xs) && (offset <? zlen ys)
                 && areEqual (get undefined xs offset)
                      (get undefined ys offset)) = false)
    by (apply St; unfold zlen; lia).
  clear St.
  destruct ((offset =? zlen xs) && (offset =? zlen ys)) eqn:Full.
  - left. apply andb_true_iff in Full. destruct Full as (F1 & F2).
    apply Z.eqb_eq in F1, F2. split; [lia|].
    split; [now rewrite <- F1 | reflexivity].
  - right.
    destruct (commonSuffix_spec undefined areEqual xs ys offset
                (List.length xs) (zlen xs) (zlen ys))
      as (S1 & S2 & S3 & S4); try lia.
    { apply EqualRun_empty. lia. }
    pose proof (commonSuffix_stops undefined areEqual xs ys offset
                  (List.length xs) (zlen xs) (zlen ys)) as Ss.
    assert (Sa : areEqual (get undefined xs offset) (get undefined ys offset)
                 = false ->
                 zlen xs = zlen ys -> offset < zlen xs ->
                 offset
                 < fst (commonSuffix undefined areEqual xs ys offset
                          (List.length xs) (zlen xs) (zlen ys)))
      by (intros Ne El Lt; apply commonSuffix_above; [exact Ne | lia | lia]).
    cbv zeta in S1, S2, S3, S4, Ss.
    destruct (commonSuffix undefined areEqual xs ys offset (List.length xs)
                (zlen xs) (zlen ys)) as [aLength bLength] eqn:Suf.
    cbn [fst snd] in *.
    exists offset, aLength, bLength. split; [|reflexivity].
    assert (Ss' : ((aLength >? offset) && (bLength >? offset)
                   && areEqual (get undefined xs (aLength - 1))
                        (get undefined ys (bLength - 1))) = false)
      by (apply Ss; unfold zlen; lia).
    clear Ss.
    assert (Mid : offset < aLength \/ offset < bLength).
    { destruct (Z.eq_dec (zlen xs) (zlen ys)) as [El|Nl]; [|lia].
      assert (Lt : offset < zlen xs).
      { apply andb_false_iff in Full. rewrite !Z.eqb_neq in Full. lia. }
      assert (C1 : (offset <? zlen xs) = true) by (apply Z.ltb_lt; lia).
      assert (C2 : (offset <? zlen ys) = true) by (apply Z.ltb_lt; lia).
      rewrite C1, C2 in St'. simpl in St'.
      left. now apply Sa. }
    unfold StrippedMiddle. repeat split; try lia; try assumption.
    + assert (C1 : (offset <? zlen xs) = true) by (apply Z.ltb_lt; lia).
      assert (C2 : (offset <? zlen ys) = true) by (apply Z.ltb_lt; lia).
      rewrite C1, C2 in St'. exact St'.
    + assert (C1 : (aLength >? offset) = true) by lia.
      assert (C2 : (bLength >? offset) = true) by lia.
      rewrite C1, C2 in Ss'. exact Ss'.
Qed.

End ArrayMiddle.

(** ** Diffs against an empty sequence *)

Lemma aligned_empty_first (lenB : Z) (m : list DiffIndicesResult.t) :
  AlignedFrom 0 lenB 0 0 m -> Separated m -> 0 < lenB ->
  m = [DiffIndicesResult.make (makeRange 0 0) (makeRange 0 lenB)].
Proof.
  intros A S L. destruct m as [|h m]; simpl in A; [lia|].
  destruct A as (A1 & A2 & A3 & A4 & A5).
  pose proof (AlignedFrom_le_len _ _ _ _ _ A5) as (U & _).
  destruct h as [[la na] [lb nb]].
  destruct m as [|h' m]; simpl in *; unfold upperBound in *; simpl in *.
  - assert (la = 0) by lia. assert (na = 0) by lia.
    assert (lb = 0) by lia. assert (nb = lenB) by lia. now subst.
  - destruct A5 as (B1 & B2 & B3 & B4 & B5).
    pose proof (AlignedFrom_le_len _ _ _ _ _ B5) as (V & _).
    unfold upperBound in *. exfalso. lia.
Qed.

Lemma aligned_empty_second (lenA : Z) (m : list DiffIndicesResult.t) :
  AlignedFrom lenA 0 0 0 m -> Separated m -> 0 < lenA ->
  m = [DiffIndicesResult.make (makeRange 0 lenA) (makeRange 0 0)].
Proof.
  intros A S L. destruct m as [|h m]; simpl in A; [lia|].
  destruct A as (A1 & A2 & A3 & A4 & A5).
  pose proof (AlignedFrom_le_len _ _ _ _ _ A5) as (_ & U).
  destruct h as [[la na] [lb nb]].
  destruct m as [|h' m]; simpl in *; unfold upperBound in *; simpl in *.
  - assert (la = 0) by lia. assert (na = lenA) by lia.
    assert (lb = 0) by lia. assert (nb = 0) by lia. now subst.
  - destruct A5 as (B1 & B2 & B3 & B4 & B5).
    pose proof (AlignedFrom_le_len _ _ _ _ _ B5) as (_ & V).
    unfold upperBound in *. exfalso. lia.
Qed.

Lemma mergeHunks_empty_base (aLen bLen : Z) :
  0 < aLen -> 0 < bLen ->
  mergeHunks 0 aLen bLen
    [DiffIndicesResult.make (makeRange 0 0) (makeRange 0 aLen)]
    [DiffIndicesResult.make (makeRange 0 0) (makeRange 0 bLen)]
  = [conflict (makeRange 0 aLen) (makeRange 0 0) (makeRange 0 bLen)].
Proof.
  intros A B. unfold mergeHunks, sweep, mergeGroup, mergeConflict, copyCommon.
  cbn. rewrite !Z.min_l, !Z.max_l by lia. cbn.
  repeat f_equal; lia.
Qed.

(** ** The ranges of one side, in order *)

Section SideOrder.

Variables oLen aLen bLen : Z.

Lemma InOrder_from (rs : list Range) (x x' to : Z) :
  x' <= x -> InOrder rs x to -> InOrder rs x' to.
Proof. destruct rs; simpl; intros L H; [lia | intuition lia]. Qed.

Lemma InOrder_app (l1 l2 : list Range) :
  forall x y z, InOrder l1 x y -> InOrder l2 y z -> InOrder (l1 ++ l2) x z.
Proof.
  induction l1 as [|r l1 IH]; simpl; intros x y z H1 H2.
  - eapply InOrder_from; eassumption.
  - destruct H1 as (H & H' & H1). repeat split; auto. eapply IH; eassumption.
Qed.

Lemma sideRanges_app (s : Side) (l1 l2 : list Index) :
  sideRanges s (l1 ++ l2) = sideRanges s l1 ++ sideRanges s l2.
Proof. apply flat_map_app. Qed.

Lemma commonSteps_side_order (targetOffset : Z) (st : MergeState) (s : Side) :
  InOrder (sideRanges s (flat_map emitted (commonSteps targetOffset st)))
    (sideOffset s st) (sideOffset s (copyCommon targetOffset st)).
Proof.
  destruct (commonSteps_shape targetOffset st) as [(E & D & C)|(E & D)];
    rewrite E; simpl.
  - rewrite C. lia.
  - rewrite copyCommon_sideOffset by lia.
    destruct s; simpl; unfold upperBound; simpl; lia.
Qed.

Lemma iteration_side_order (it : Iteration) (s : Side) :
  Inv oLen aLen bLen (before it) (first it :: following it) ->
  InOrder
    (sideRanges s
       (flat_map emitted
          (commonSteps (regionLhs it) (before it)
           ++ [groupStep oLen aLen bLen it])))
    (sideOffset s (before it)) (sideOffset s (after oLen aLen bLen it)).
Proof.
  intros I. rewrite flat_map_app, sideRanges_app.
  eapply InOrder_app; [apply commonSteps_side_order|].
  fold (atGroup it). cbn [flat_map]. rewrite app_nil_r.
  destruct (offsets_advance oLen aLen bLen it s I) as ((P & A) & _).
  destruct (taken it) as [|h2 tk] eqn:E.
  - rewrite (groupStep_single oLen aLen bLen it E). cbn [emitted].
    assert (O : OnlySide (side (first it)) (group it)).
    { unfold group. rewrite E. repeat constructor. }
    destruct (group_one_sided oLen aLen bLen it _ I O)
      as (_ & _ & _ & _ & _ & Sa & _).
    pose proof (first_side_location oLen aLen bLen it _ I eq_refl) as Loc.
    unfold singleRecords.
    destruct (length (sideRange (first it)) >? 0) eqn:L; [|simpl; lia].
    unfold upperBound in Sa.
    destruct (side (first it)), s; simpl in *; unfold upperBound; simpl;
      lia.
  - rewrite (groupStep_conflict_offsets oLen aLen bLen it I) by congruence.
    destruct s; simpl in *; unfold upperBound; simpl; lia.
Qed.

Lemma iterations_side_order (s : Side) (fuel : nat) :
  forall st hs,
    Inv oLen aLen bLen st hs ->
    (List.length hs <= fuel)%nat ->
    InOrder
      (sideRanges s
         (flat_map emitted
            (flat_map
               (fun it =>
                  commonSteps (regionLhs it) (before it)
                  ++ [groupStep oLen aLen bLen it])
               (iterations oLen aLen bLen fuel st hs))))
      (sideOffset s st) (sideOffset s (sweep oLen aLen bLen fuel st hs)).
Proof.
  induction fuel as [|fuel IH]; intros st hs I L.
  - destruct hs; [|simpl in L; lia]. simpl. lia.
  - destruct hs as [|h rest]; [simpl; lia|].
    set (it := mkIteration st h rest).
    pose proof (iteration_side_order it s I) as C1.
    pose proof (remaining_shorter it) as Sh.
    assert (C2 := IH (after oLen aLen bLen it) (remaining it)
                    (inv_after oLen aLen bLen it I)).
    rewrite sweep_unfold. cbn [iterations flat_map]. fold it.
    rewrite flat_map_app, sideRanges_app.
    eapply InOrder_app; [exact C1|]. apply C2. simpl in *. lia.
Qed.

Lemma mergeHunks_side_order (s : Side) (m1 m2 : list DiffIndicesResult.t) :
  WellFormedDiff oLen aLen m1 ->
  WellFormedDiff oLen bLen m2 ->
  InOrder (sideRanges s (mergeHunks oLen aLen bLen m1 m2)) 0
    (sideLen aLen bLen s).
Proof.
  intros W1 W2.
  pose proof (inv_init _ _ _ _ _ W1 W2) as I.
  pose proof (iterations_side_order s _ _ _ I (Nat.le_refl _)) as C1.
  pose proof (sweep_inv _ _ _ _ _ _ I (Nat.le_refl _)) as Fin.
  destruct (inv_done _ _ _ _ Fin) as (D1 & D2 & D3).
  rewrite <- mergeSteps_records. unfold mergeSteps, mergeIterations.
  rewrite flat_map_app, sideRanges_app.
  assert (Z0 : sideOffset s (mkState [] 0 0 0) = 0) by now destruct s.
  rewrite Z0 in C1. eapply InOrder_app; [exact C1|].
  replace (sideLen aLen bLen s)
    with (sideOffset s
            (copyCommon oLen
               (sweep oLen aLen bLen (List.length (sortedHunks m1 m2))
                  (mkState [] 0 0 0) (sortedHunks m1 m2))));
    [apply commonSteps_side_order|].
  rewrite copyCommon_sideOffset by exact D1. destruct s; simpl; lia.
Qed.

End SideOrder.

(** ** A merge without conflict *)

Section CleanMerge.

Variables oLen aLen bLen : Z.

Lemma commonSteps_changes (targetOffset : Z) (st : MergeState) :
  filter (fun r => negb (isCommon r))
    (flat_map emitted (commonSteps targetOffset st)) = [].
Proof.
  destruct (commonSteps_shape targetOffset st) as [(E & _)|(E & _)];
    rewrite E; reflexivity.
Qed.

Lemma singleRecords_changes (h : Hunk) :
  filter (fun r => negb (isCommon r)) (singleRecords h) = singleRecords h.
Proof.
  unfold singleRecords.
  destruct (length (sideRange h) >? 0), (side h); reflexivity.
Qed.

Lemma iterations_clean (its : list Iteration) :
  Forall
    (fun it => Inv oLen aLen bLen (before it) (first it :: following it))
    its ->
  Forall (fun r => isConflict r = false)
    (flat_map emitted
       (flat_map
          (fun it =>
             commonSteps (regionLhs it) (before it)
             ++ [groupStep oLen aLen bLen it])
          its)) ->
  filter (fun r => negb (isCommon r))
    (flat_map emitted
       (flat_map
          (fun it =>
             commonSteps (regionLhs it) (before it)
             ++ [groupStep oLen aLen bLen it])
          its))
  = flat_map singleRecords (List.concat (map group its)).
Proof.
  induction 1 as [|it its I _ IH]; intros N; [reflexivity|].
  cbn [flat_map map List.concat] in *.
  rewrite !flat_map_app in *. cbn [flat_map] in *.
  rewrite app_nil_r in *.
  apply Forall_app in N. destruct N as (N1 & N2).
  apply Forall_app in N1. destruct N1 as (_ & N1).
  rewrite !filter_app, commonSteps_changes, (IH N2). cbn [app].
  f_equal.
  destruct (taken it) as [|h2 tk] eqn:E.
  - unfold group. rewrite E. cbn [flat_map]. rewrite app_nil_r.
    rewrite (groupStep_single oLen aLen bLen it E). cbn [emitted].
    apply singleRecords_changes.
  - exfalso.
    rewrite (groupStep_conflict_offsets oLen aLen bLen it I) in N1
      by congruence.
    inversion N1 as [|? ? C _]. discriminate C.
Qed.

Lemma mergeHunks_clean (m1 m2 : list DiffIndicesResult.t) :
  WellFormedDiff oLen aLen m1 ->
  WellFormedDiff oLen bLen m2 ->
  Forall (fun r => isConflict r = false) (mergeHunks oLen aLen bLen m1 m2) ->
  filter (fun r => negb (isCommon r)) (mergeHunks oLen aLen bLen m1 m2)
  = flat_map singleRecords (sortedHunks m1 m2).
Proof.
  intros W1 W2. rewrite <- mergeSteps_records. unfold mergeSteps.
  rewrite flat_map_app. intros N. apply Forall_app in N.
  destruct N as (N & _).
  rewrite filter_app, commonSteps_changes, app_nil_r.
  rewrite (iterations_clean _ (run_inv _ _ _ _ _ W1 W2) N).
  now rewrite run_groups.
Qed.

End CleanMerge.

(** ** The hunks of a correct differ *)

Section CorrectDiffs.

Context {T : Type}.
Variable undefined : T.
Variable areReferenceEqual : T -> T -> bool.
Variable fastDiff : list T -> list T -> list (DiffOp * list T).
Variable diff_core :
  Z -> Z -> Z -> Z -> (Z -> Z -> bool) -> list (Z * Z * Z * Z).

Lemma CorrectDiff_regions (x y : ArrayLike T) :
  CorrectDiff undefined areReferenceEqual fastDiff diff_core x y ->
  ChangedRegions undefined (sameElement areReferenceEqual) (elems x)
    (elems y)
    (diffIndices undefined areReferenceEqual fastDiff diff_core x y).
Proof.
  intros (Store & Core & _).
  destruct x as [s|r xs] eqn:Ea, y as [t|r' ys] eqn:Eb;
    cbn [diffIndices]; try (apply diffIndicesArray_regions; assumption).
  destruct Core as (Es & Et). cbn [elems].
  eapply RegionsUpTo_impl; [|now apply diffIndicesString_regions].
  intros u v E. now left.
Qed.

Lemma CorrectDiff_wellFormed (x y : ArrayLike T) :
  CorrectDiff undefined areReferenceEqual fastDiff diff_core x y ->
  WellFormedDiff (zlen (elems x)) (zlen (elems y))
    (diffIndices undefined areReferenceEqual fastDiff diff_core x y).
Proof.
  intros C. split; [|exact (proj2 (proj2 C))].
  eapply ChangedRegions_aligned. apply CorrectDiff_regions. exact C.
Qed.

Lemma EqualSequences_no_hunk (x y : ArrayLike T) :
  EqualSequences undefined areReferenceEqual x y ->
  FastDiffOnEqual fastDiff x y ->
  diffIndices undefined areReferenceEqual fastDiff diff_core x y = [].
Proof.
  intros E F.
  destruct x as [s|r xs] eqn:Ea, y as [t|r' ys] eqn:Eb;
    cbn [diffIndices]; try (apply diffIndicesArray_equal; assumption).
  unfold diffIndicesString. now apply scan_equal.
Qed.

Lemma diffIndicesString_apart (s t : list T) :
  EqualPiecesNonEmpty (fastDiff s t) ->
  Separated (diffIndicesString fastDiff s t).
Proof.
  intros E. unfold diffIndicesString.
  apply scan_separated; simpl; auto. lia.
Qed.

End CorrectDiffs.

(** ** What becomes of one hunk *)

Section HunkFate.

Variables oLen aLen bLen : Z.

Lemma chained_In (tk : list Hunk) :
  forall r h,
    Chained r tk -> In h tk ->
    exists p q, tk = p ++ h :: q /\ location (oRange h) <= regionEnd r p.
Proof.
  induction tk as [|x tk IH]; intros r h C H; [contradiction|].
  simpl in C. destruct C as (C1 & C2). destruct H as [->|H].
  - exists [], tk. split; [reflexivity | exact C1].
  - destruct (IH _ _ C2 H) as (p & q & E & L).
    exists (x :: p), q. split; [simpl; now rewrite E | exact L].
Qed.

Lemma aligned_apart (lenA lenB : Z) (m : list DiffIndicesResult.t) :
  forall x y,
    AlignedFrom lenA lenB x y m -> Separated m -> StronglySorted Apart m.
Proof.
  induction m as [|g m IH]; intros x y A S; [constructor|].
  simpl in A. destruct A as (_ & _ & _ & _ & A).
  destruct m as [|h m]; [repeat constructor|].
  destruct S as (S1 & S2). pose proof (IH _ _ A S2) as Sm.
  constructor; [exact Sm|]. constructor; [exact S1|].
  apply StronglySorted_inv in Sm. destruct Sm as (_ & F).
  eapply Forall_impl; [|exact F]. intros k Hk. unfold Apart in *.
  simpl in A. unfold upperBound in *. lia.
Qed.

Lemma StronglySorted_pair {A : Type} (R : A -> A -> Prop)
  (l1 l2 l3 : list A) (g h : A) :
  StronglySorted R (l1 ++ g :: l2 ++ h :: l3) -> R g h.
Proof.
  induction l1 as [|x l1 IH]; simpl; intros S.
  - apply StronglySorted_inv in S. destruct S as (_ & F).
    rewrite Forall_forall in F. apply F. apply in_or_app. right. now left.
  - apply StronglySorted_inv in S. now apply IH.
Qed.

(** Of two hunks of one side still to merge, the one that comes first ends
    before the other starts. *)
Lemma same_side_apart (st : MergeState) (l1 l2 l3 : list Hunk)
  (g h : Hunk) :
  Inv oLen aLen bLen st (l1 ++ g :: l2 ++ h :: l3) ->
  side g = side h ->
  upperBound (oRange g) < location (oRange h).
Proof.
  intros I E. destruct (inv_side _ _ _ _ _ (side h) I) as (A & S).
  pose proof (aligned_apart _ _ _ _ _ A S) as Sm.
  rewrite sideHunks_app in Sm. unfold sideHunks at 2 in Sm.
  cbn [filter] in Sm. rewrite E in Sm.
  assert (Q : Side_eqb (side h) (side h) = true) by now destruct (side h).
  rewrite Q in Sm. fold (sideHunks (side h) (l2 ++ h :: l3)) in Sm.
  rewrite sideHunks_app in Sm. unfold sideHunks at 3 in Sm.
  cbn [filter] in Sm. rewrite Q in Sm.
  rewrite map_app in Sm. cbn [map] in Sm. rewrite map_app in Sm.
  cbn [map] in Sm. apply StronglySorted_pair in Sm. exact Sm.
Qed.

(** In a group of several hunks every hunk touches a hunk of the other
    side. *)
Lemma conflict_group_touch (it : Iteration) (h : Hunk) :
  Inv oLen aLen bLen (before it) (first it :: following it) ->
  taken it <> [] ->
  In h (group it) ->
  exists h',
    In h' (group it) /\ side h' <> side h
    /\ location (oRange h) <= upperBound (oRange h')
    /\ location (oRange h') <= upperBound (oRange h).
Proof.
  intros I N H. destruct H as [<-|H].
  - destruct (taken it) as [|h2 tk] eqn:E; [contradiction|].
    destruct (group_opens_with_touch oLen aLen bLen it h2 tk I E)
      as (Sd & T1 & T2).
    exists h2. unfold group. rewrite E.
    repeat split; auto. right. now left.
  - destruct (chained_In _ _ _ (taken_chained it) H) as (p & q & E & L).
    pose proof (inv_sorted _ _ _ _ _ I) as S.
    pose proof (inv_bounds _ _ _ _ _ I) as B.
    rewrite group_split in S, B, I. unfold group in S, B, I.
    rewrite E in S, B, I.
    assert (Len : 0 <= length (oRange h)).
    { rewrite Forall_forall in B.
      apply (B h). right. apply in_or_app. left. apply in_or_app. right.
      now left. }
    assert (G : exists l1 g l2,
               first it :: p = l1 ++ g :: l2
               /\ location (oRange h) <= upperBound (oRange g)).
    { destruct (regionEnd_In p (upperBound (oRange (first it)))) as [R|R].
      - exists [], (first it), p. split; [reflexivity | lia].
      - apply in_map_iff in R. destruct R as (g & Eg & Hg).
        apply in_split in Hg. destruct Hg as (l1 & l2 & ->).
        exists (first it :: l1), g, l2. split; [reflexivity | lia]. }
    destruct G as (l1 & g & l2 & Eg & Lg).
    assert (Whole : (first it :: p ++ h :: q) ++ remaining it
                    = l1 ++ g :: l2 ++ h :: (q ++ remaining it)).
    { change (first it :: p ++ h :: q) with ((first it :: p) ++ h :: q).
      rewrite Eg, <- !app_assoc. reflexivity. }
    rewrite Whole in S, I.
    pose proof (StronglySorted_pair _ _ _ _ _ _ S) as Sg.
    unfold byLocation in Sg.
    exists g. split.
    { unfold group. rewrite E.
      change (first it :: p ++ h :: q) with ((first it :: p) ++ h :: q).
      rewrite Eg. apply in_or_app. left. apply in_or_app. right. now left. }
    split.
    { intros Sd. pose proof (same_side_apart _ _ _ _ _ _ I Sd). lia. }
    unfold upperBound in *. lia.
Qed.

(** A hunk of a group with hunks of both sides lies within the conflict
    record of the group. *)
Lemma group_conflict_holds (it : Iteration) (h : Hunk) :
  Inv oLen aLen bLen (before it) (first it :: following it) ->
  BothSides (group it) ->
  In h (group it) ->
  exists aR oR bR,
    emitted (groupStep oLen aLen bLen it) = [conflict aR oR bR]
    /\ RangeInside (oRange h) oR
    /\ RangeInside (sideRange h) (conflictRange (side h) aR bR).
Proof.
  intros I B H.
  destruct (group_conflict oLen aLen bLen it I B)
    as (aR & oR & bR & Em & (Mn & Mx) & Ca & Cb).
  exists aR, oR, bR. split; [exact Em|]. split.
  - destruct Mn as (_ & Mn), Mx as (_ & Mx).
    rewrite Forall_forall in Mn, Mx. split.
    + apply Mn. apply in_map_iff. now exists h.
    + apply Z.ge_le. apply Mx. apply in_map_iff. now exists h.
  - assert (C : SkewedCover (sideHunks (side h) (group it)) (location oR)
                  (upperBound oR) (conflictRange (side h) aR bR))
      by (destruct (side h); assumption).
    destruct C as (lo & hi & oLo & oHi & (_ & Mlo) & (_ & Mhi) & _ & _
                   & L1 & L2 & E1 & E2).
    pose proof (sideHunks_In (side h) h _ H eq_refl) as Hs.
    rewrite Forall_forall in Mlo, Mhi.
    assert (P1 : lo <= location (sideRange h))
      by (apply Mlo; apply in_map_iff; now exists h).
    assert (P2 : hi >= upperBound (sideRange h))
      by (apply Mhi; apply in_map_iff; now exists h).
    split; lia.
Qed.

Lemma sideDiff_In_group (m1 m2 : list DiffIndicesResult.t) (s : Side)
  (h : DiffIndicesResult.t) :
  In h (sideDiff s m1 m2) ->
  exists it,
    In it (mergeIterations oLen aLen bLen m1 m2)
    /\ In (addHunk h s) (group it).
Proof.
  intros H. apply sortedHunks_In in H.
  rewrite <- (run_groups oLen aLen bLen m1 m2) in H.
  apply in_concat in H. destruct H as (g & Hg & Hh).
  apply in_map_iff in Hg. destruct Hg as (it & <- & Hit).
  now exists it.
Qed.

Lemma mergeHunks_touching_held (m1 m2 : list DiffIndicesResult.t)
  (s : Side) (h : DiffIndicesResult.t) :
  WellFormedDiff oLen aLen m1 ->
  WellFormedDiff oLen bLen m2 ->
  In h (sideDiff s m1 m2) ->
  TouchesOneOf h (sideDiff (otherSide s) m1 m2) ->
  HeldByConflict s h (mergeHunks oLen aLen bLen m1 m2).
Proof.
  intros W1 W2 H (h' & H' & T1 & T2).
  pose proof (run_inv _ _ _ _ _ W1 W2) as Is.
  rewrite Forall_forall in Is.
  pose proof (sortedHunks_In m1 m2 s h H) as G.
  pose proof (sortedHunks_In m1 m2 (otherSide s) h' H') as G'.
  destruct (iterations_touching oLen aLen bLen (addHunk h s)
              (addHunk h' (otherSide s))
              (List.length (sortedHunks m1 m2)) T1 T2 (mkState [] 0 0 0)
              (sortedHunks m1 m2) (sortHunks_sorted _) (Nat.le_refl _)
              G G') as (it & Hit & I1 & I2).
  fold (mergeIterations oLen aLen bLen m1 m2) in Hit.
  assert (B : BothSides (group it)).
  { pose proof (sideHunks_In s _ _ I1 eq_refl) as X1.
    pose proof (sideHunks_In (otherSide s) _ _ I2 eq_refl) as X2.
    destruct s; cbn [otherSide] in X2; split; intros N;
      first [rewrite N in X1; contradiction | rewrite N in X2; contradiction]. }
  destruct (group_conflict_holds it _ (Is it Hit) B I1)
    as (aR & oR & bR & Em & R1 & R2).
  exists aR, oR, bR. split.
  - apply (proj2 (groupStep_In oLen aLen bLen m1 m2 it Hit)).
    rewrite Em. now left.
  - split; [exact R1 | exact R2].
Qed.

Lemma mergeHunks_apart_alone (m1 m2 : list DiffIndicesResult.t)
  (s : Side) (h : DiffIndicesResult.t) :
  WellFormedDiff oLen aLen m1 ->
  WellFormedDiff oLen bLen m2 ->
  In h (sideDiff s m1 m2) ->
  ~ TouchesOneOf h (sideDiff (otherSide s) m1 m2) ->
  incl (singleRecords (addHunk h s)) (mergeHunks oLen aLen bLen m1 m2).
Proof.
  intros W1 W2 H N.
  pose proof (run_inv _ _ _ _ _ W1 W2) as Is.
  rewrite Forall_forall in Is.
  destruct (sideDiff_In_group m1 m2 s h H) as (it & Hit & Hg).
  destruct (taken it) as [|h2 tk] eqn:E.
  - unfold group in Hg. rewrite E in Hg. destruct Hg as [Hg|[]].
    intros r Hr. apply (proj2 (groupStep_In oLen aLen bLen m1 m2 it Hit)).
    rewrite (groupStep_single oLen aLen bLen it E). cbn [emitted].
    now rewrite Hg.
  - exfalso. apply N.
    destruct (conflict_group_touch it (addHunk h s) (Is it Hit))
      as (g & Gg & Sd & T1 & T2); [congruence | exact Hg |].
    assert (Gs : In g (sortedHunks m1 m2)).
    { rewrite <- (run_groups oLen aLen bLen m1 m2). apply in_concat.
      exists (group it). split; [now apply in_map | exact Gg]. }
    destruct (sortedHunks_origin _ _ _ Gs) as (d & Ed & Hd).
    assert (So : side g = otherSide s)
      by (simpl in Sd; destruct (side g), s; simpl; congruence).
    rewrite So in Hd, Ed. exists d. split; [exact Hd|].
    rewrite Ed in T1, T2. simpl in T1, T2. now split.
Qed.

End HunkFate.

(** ** A common region between two groups *)

Section Alternation.

Variables oLen aLen bLen : Z.

Lemma CommonBetween_after_common (c : Index) (l : list Index) :
  isCommon c = true -> CommonBetween l -> CommonBetween (c :: l).
Proof. intros C L. destruct l; simpl; auto. Qed.

Lemma CommonBetween_before_common (g : Index) (l : list Index) :
  StartsCommon l -> CommonBetween l -> CommonBetween (g :: l).
Proof. intros S L. destruct l; simpl; auto. Qed.

Lemma groupStep_one_record (it : Iteration) :
  emitted (groupStep oLen aLen bLen it) = []
  \/ exists r, emitted (groupStep oLen aLen bLen it) = [r].
Proof.
  destruct (taken it) as [|h2 tk] eqn:E.
  - rewrite (groupStep_single oLen aLen bLen it E). cbn [emitted].
    unfold singleRecords.
    destruct (length (sideRange (first it)) >? 0), (side (first it)); eauto.
  - destruct (groupStep_conflict oLen aLen bLen it) as (aR & bR & ->);
      [congruence|].
    right. eexists. reflexivity.
Qed.

Lemma commonSteps_one_record (targetOffset : Z) (st : MergeState) :
  flat_map emitted (commonSteps targetOffset st) = []
  /\ targetOffset <= oOffset st
  \/ exists r,
      flat_map emitted (commonSteps targetOffset st) = [r]
      /\ isCommon r = true.
Proof.
  destruct (commonSteps_shape targetOffset st) as [(E & D & _)|(E & D)];
    rewrite E; simpl.
  - left. split; [reflexivity | lia].
  - right. eexists. split; reflexivity.
Qed.

Lemma sweep_alternates (fuel : nat) :
  forall st hs,
    StronglySorted byLocation hs ->
    (List.length hs <= fuel)%nat ->
    CommonBetween
      (flat_map emitted
         (flat_map
            (fun it =>
               commonSteps (regionLhs it) (before it)
               ++ [groupStep oLen aLen bLen it])
            (iterations oLen aLen bLen fuel st hs)
          ++ commonSteps oLen (sweep oLen aLen bLen fuel st hs)))
    /\ (Forall (fun h => oOffset st < location (oRange h)) hs ->
        StartsCommon
          (flat_map emitted
             (flat_map
                (fun it =>
                   commonSteps (regionLhs it) (before it)
                   ++ [groupStep oLen aLen bLen it])
                (iterations oLen aLen bLen fuel st hs)
              ++ commonSteps oLen (sweep oLen aLen bLen fuel st hs)))).
Proof.
  assert (Last : forall fuel st,
             CommonBetween
               (flat_map emitted
                  (commonSteps oLen (sweep oLen aLen bLen fuel st [])))
             /\ StartsCommon
                  (flat_map emitted
                     (commonSteps oLen (sweep oLen aLen bLen fuel st [])))).
  { intros f st.
    assert (E : sweep oLen aLen bLen f st [] = st) by now destruct f.
    rewrite E.
    destruct (commonSteps_one_record oLen st) as [(-> & _)|(r & -> & C)];
      simpl; auto. }
  induction fuel as [|fuel IH]; intros st hs S L.
  - destruct hs; [|simpl in L; lia]. cbn [iterations flat_map app].
    destruct (Last 0%nat st) as (L1 & L2). split; auto.
  - destruct hs as [|h rest].
    { cbn [iterations flat_map app].
      destruct (Last (Datatypes.S fuel) st) as (L1 & L2). split; auto. }
    set (it := mkIteration st h rest).
    pose proof (remaining_shorter it) as Sh.
    pose proof (remaining_all_beyond it S) as Bey.
    assert (Sr : StronglySorted byLocation (remaining it)).
    { change (h :: rest) with (first it :: following it) in S.
      rewrite group_split in S. now apply StronglySorted_app_r in S. }
    destruct (IH (after oLen aLen bLen it) (remaining it) Sr) as (C' & S').
    { simpl in *. lia. }
    rewrite (oOffset_after oLen aLen bLen it) in S'. specialize (S' Bey).
    rewrite sweep_unfold. cbn [iterations flat_map]. fold it.
    rewrite <- app_assoc, flat_map_app, flat_map_app.
    cbn [flat_map]. rewrite app_nil_r.
    set (rest' :=
           flat_map emitted
             (flat_map
                (fun it0 =>
                   commonSteps (regionLhs it0) (before it0)
                   ++ [groupStep oLen aLen bLen it0])
                (iterations oLen aLen bLen fuel (after oLen aLen bLen it)
                   (remaining it))
              ++ commonSteps oLen
                   (sweep oLen aLen bLen fuel (after oLen aLen bLen it)
                      (remaining it)))) in *.
    assert (G : CommonBetween (emitted (groupStep oLen aLen bLen it) ++ rest')).
    { destruct (groupStep_one_record it) as [->|(r & ->)]; [exact C'|].
      now apply CommonBetween_before_common. }
    destruct (commonSteps_one_record (regionLhs it) (before it))
      as [(-> & Le)|(c & -> & Cc)]; cbn [app].
    + split; [exact G|]. intros F. inversion F as [|? ? Lt _]; subst.
      unfold regionLhs in Le. simpl in Le. lia.
    + split; [now apply CommonBetween_after_common | intros _; exact Cc].
Qed.

Lemma mergeHunks_alternates (m1 m2 : list DiffIndicesResult.t) :
  CommonBetween (mergeHunks oLen aLen bLen m1 m2).
Proof.
  rewrite <- mergeSteps_records. unfold mergeSteps, mergeIterations.
  apply sweep_alternates; [apply sortHunks_sorted | apply Nat.le_refl].
Qed.

End Alternation.

(** ** What a change of one side replaces *)

Section OtherSide.

Context {T : Type}.
Variable undefined : T.
Variable R : T -> T -> Prop.
Variables os xs ys : list T.

Let oLen := zlen os.
Let aLen := zlen xs.
Let bLen := zlen ys.

Lemma iterations_regions (fuel : nat) :
  forall st hs,
    Inv oLen aLen bLen st hs ->
    SideRegions undefined R os xs SideA st hs ->
    SideRegions undefined R os ys SideB st hs ->
    Forall
      (fun it =>
         forall s,
           SideRegions undefined R os (sideSeq xs ys s) s (before it)
             (first it :: following it))
      (iterations oLen aLen bLen fuel st hs).
Proof.
  induction fuel as [|fuel IH]; intros st hs I Ga Gb; [constructor|].
  destruct hs as [|h rest]; [constructor|].
  cbn [iterations]. set (it := mkIteration st h rest).
  constructor; [intros [|]; assumption|].
  pose proof (regions_copyCommon undefined R os xs ys SideA st h rest I Ga)
    as Ga'.
  pose proof (regions_copyCommon undefined R os xs ys SideB st h rest I Gb)
    as Gb'.
  apply IH.
  - now apply (inv_after oLen aLen bLen it).
  - exact (regions_after undefined R os xs ys SideA it I Ga').
  - exact (regions_after undefined R os xs ys SideB it I Gb').
Qed.

Lemma OnlySide_other_none (s : Side) (g : list Hunk) :
  OnlySide s g -> sideHunks (otherSide s) g = [].
Proof.
  intros O. unfold sideHunks.
  induction O as [|h g Hh _ IH]; simpl; [reflexivity|].
  rewrite Hh. destruct s; simpl; exact IH.
Qed.

(** Where a group of one side lies, the other side has the elements of the
    base. *)
Lemma one_sided_other_unchanged (it : Iteration) (s : Side) :
  Inv oLen aLen bLen (before it) (first it :: following it) ->
  SideRegions undefined R os (sideSeq xs ys (otherSide s)) (otherSide s)
    (before it) (first it :: following it) ->
  OnlySide s (group it) ->
  0 <= sideOffset (otherSide s) (atGroup it)
  /\ sideOffset (otherSide s) (atGroup it) + (regionRhs it - regionLhs it)
     <= zlen (sideSeq xs ys (otherSide s))
  /\ EqualRun undefined R os (sideSeq xs ys (otherSide s)) (regionLhs it)
       (sideOffset (otherSide s) (atGroup it))
       (regionRhs it - regionLhs it).
Proof.
  intros I G O.
  destruct (atGroup_inv oLen aLen bLen it I) as (I' & Eo).
  pose proof (regions_copyCommon undefined R os xs ys (otherSide s) _ _ _ I G)
    as G'.
  fold (regionLhs it) in G'. fold (atGroup it) in G'.
  unfold SideRegions in G'.
  rewrite Eo, group_split, sideHunks_app, (OnlySide_other_none s _ O) in G'.
  cbn [app] in G'.
  destruct (group_one_sided oLen aLen bLen it s I O)
    as (_ & _ & _ & _ & Oa & _ & Adv & _).
  pose proof (inv_le _ _ _ _ _ (inv_after oLen aLen bLen it I))
    as (Lo & La & Lb).
  pose proof (inv_sideOffset _ _ _ _ _ (otherSide s) I') as P.
  rewrite Oa in Lo. rewrite Oa, Eo in Adv.
  split; [exact P|]. split.
  - rewrite <- sideLen_sideSeq. fold aLen bLen.
    destruct s; simpl in *; lia.
  - eapply RegionsUpTo_head_run; [exact G'|].
    pose proof (remaining_all_beyond it (inv_sorted _ _ _ _ _ I)) as Bey.
    destruct (sideHunks (otherSide s) (remaining it)) as [|h1 l] eqn:Er;
      simpl.
    + fold oLen. lia.
    + assert (Hin : In h1 (remaining it)).
      { assert (X : In h1 (sideHunks (otherSide s) (remaining it)))
          by (rewrite Er; now left).
        apply filter_In in X. tauto. }
      rewrite Forall_forall in Bey. specialize (Bey h1 Hin). lia.
Qed.

Lemma change_record_from_single (m1 m2 : list DiffIndicesResult.t)
  (s : Side) (r : Index) :
  In r (mergeHunks oLen aLen bLen m1 m2) ->
  isChangeOf s r = true ->
  exists it,
    In it (mergeIterations oLen aLen bLen m1 m2)
    /\ taken it = []
    /\ side (first it) = s
    /\ singleRecords (first it) = [r].
Proof.
  rewrite <- mergeSteps_records. unfold mergeSteps.
  rewrite flat_map_app. intros H C. apply in_app_or in H.
  assert (NC : forall t st,
             ~ In r (flat_map emitted (commonSteps t st))).
  { intros t st Hin.
    destruct (commonSteps_shape t st) as [(E & _)|(E & _)];
      rewrite E in Hin; simpl in Hin; [contradiction|].
    destruct Hin as [<-|[]]. destruct s; discriminate C. }
  destruct H as [H|H]; [|now apply NC in H].
  apply in_flat_map in H. destruct H as (st & Hs & Hin).
  apply in_flat_map in Hs. destruct Hs as (it & Hit & Hs).
  apply in_app_or in Hs. destruct Hs as [Hs|[<-|[]]].
  - exfalso. apply (NC (regionLhs it) (before it)).
    apply in_flat_map. now exists st.
  - exists it. split; [exact Hit|].
    destruct (taken it) as [|h2 tk] eqn:E.
    + rewrite (groupStep_single oLen aLen bLen it E) in Hin.
      cbn [emitted] in Hin. unfold singleRecords in *.
      destruct (length (sideRange (first it)) >? 0); [|contradiction].
      destruct (side (first it)); destruct Hin as [<-|[]];
        destruct s; try discriminate C; auto.
    + exfalso.
      destruct (groupStep_conflict oLen aLen bLen it) as (aR & bR & Rr);
        [congruence|].
      rewrite Rr in Hin. destruct Hin as [<-|[]]. destruct s; discriminate C.
Qed.

Lemma mergeHunks_change_unchanged (m1 m2 : list DiffIndicesResult.t)
  (s : Side) (r : Index) :
  ChangedRegions undefined R os xs m1 -> Separated m1 ->
  ChangedRegions undefined R os ys m2 -> Separated m2 ->
  In r (mergeHunks oLen aLen bLen m1 m2) ->
  isChangeOf s r = true ->
  exists h k,
    In h (sideDiff s m1 m2)
    /\ ReplacesUnchanged undefined R os (sideSeq xs ys (otherSide s)) s r
         h k.
Proof.
  intros C1 S1 C2 S2 Hr Cr.
  assert (W1 : WellFormedDiff oLen aLen m1)
    by (split; [eapply ChangedRegions_aligned; exact C1 | exact S1]).
  assert (W2 : WellFormedDiff oLen bLen m2)
    by (split; [eapply ChangedRegions_aligned; exact C2 | exact S2]).
  pose proof (inv_init _ _ _ _ _ W1 W2) as I.
  pose proof (run_inv _ _ _ _ _ W1 W2) as Is.
  destruct W1 as (A1 & _), W2 as (A2 & _).
  destruct (sideHunks_sortedHunks m1 m2 _ _ _ _ _ _ _ A1 A2) as (E1 & E2).
  assert (Rs : Forall
                 (fun it =>
                    forall s,
                      SideRegions undefined R os (sideSeq xs ys s) s
                        (before it) (first it :: following it))
                 (mergeIterations oLen aLen bLen m1 m2)).
  { apply iterations_regions; [exact I | |].
    - unfold SideRegions. rewrite E1, toDiff_addHunk. exact C1.
    - unfold SideRegions. rewrite E2, toDiff_addHunk. exact C2. }
  rewrite Forall_forall in Is, Rs.
  destruct (change_record_from_single m1 m2 s r Hr Cr)
    as (it & Hit & E & Sd & Rec).
  assert (O : OnlySide s (group it)).
  { unfold group. rewrite E. repeat constructor. exact Sd. }
  destruct (one_sided_other_unchanged it s (Is it Hit) (Rs it Hit _) O)
    as (P & L & Run).
  assert (G : In (first it) (sortedHunks m1 m2)).
  { rewrite <- (run_groups oLen aLen bLen m1 m2). apply in_concat.
    exists (group it). split; [now apply in_map | now left]. }
  destruct (sortedHunks_origin _ _ _ G) as (d & Ed & Hd).
  rewrite Sd in Ed, Hd.
  destruct (group_one_sided oLen aLen bLen it s (Is it Hit) O)
    as (_ & _ & _ & Rhs & _).
  assert (Len : regionRhs it - regionLhs it
                = length (DiffIndicesResult.a d)).
  { rewrite Rhs. unfold regionLhs, upperBound. rewrite Ed. simpl. lia. }
  assert (Loc : regionLhs it = location (DiffIndicesResult.a d)).
  { unfold regionLhs. rewrite Ed. reflexivity. }
  rewrite Len in L, Run. rewrite Loc in Run.
  exists d, (sideOffset (otherSide s) (atGroup it)).
  split; [exact Hd|]. unfold ReplacesUnchanged.
  rewrite <- Ed. repeat split; assumption.
Qed.

End OtherSide.

(** * Further properties of [diff3MergeIndices] and of the differs *)

Section Further.

Context {T : Type}.
Variable undefined : T.
Variable areReferenceEqual : T -> T -> bool.
Variable fastDiff : list T -> list T -> list (DiffOp * list T).
Variable diff_core :
  Z -> Z -> Z -> Z -> (Z -> Z -> bool) -> list (Z * Z * Z * Z).

(** X1.  When the two diffs against the base are well formed, every record
    of [diff3MergeIndices o a b] stays within the three sequences: each
    range of a conflict record lies between 0 and the length of its
    sequence, and each index an [okA] or [okB] record defines, with the
    length of the record, lies between 0 and the length of the sequence it
    points into. *)
Theorem merge_records_within_bounds (o a b : ArrayLike T) :
  WellFormedInputs undefined areReferenceEqual fastDiff diff_core o a b ->
  Forall (WithinBounds (zlen (elems o)) (zlen (elems a)) (zlen (elems b)))
    (diff3MergeIndices undefined areReferenceEqual fastDiff diff_core o a b).
Proof.
  intros [W1 W2]. unfold diff3MergeIndices. now apply mergeHunks_within.
Qed.

(** X2.  When the two diffs against the base are well formed, the ranges of
    [a] (of [b]) that the records of [diff3MergeIndices o a b] point at, in
    the order of the records, are in increasing order and do not overlap:
    each starts at or after the end of the one before it, the first at or
    after 0, and the last ends at or before the length of the sequence.  No
    element of a side is handed out twice. *)
Theorem side_ranges_in_order (o a b : ArrayLike T) (s : Side) :
  WellFormedInputs undefined areReferenceEqual fastDiff diff_core o a b ->
  InOrder
    (sideRanges s
       (diff3MergeIndices undefined areReferenceEqual fastDiff diff_core
          o a b))
    0 (sideLen (zlen (elems a)) (zlen (elems b)) s).
Proof.
  intros [W1 W2]. unfold diff3MergeIndices. now apply mergeHunks_side_order.
Qed.

(** X3.  When the diff of the base against one side is empty (that side has
    not changed), [diff3MergeIndices o a b] hands the other side [s]
    through: no record is a conflict, no record carries content of the
    unchanged side, every record points at a range of [s], and these ranges
    follow each other from 0 to the length of [s] without gap or overlap. *)
Theorem unchanged_side_passes_through (o a b : ArrayLike T) (s : Side) :
  WellFormedInputs undefined areReferenceEqual fastDiff diff_core o a b ->
  sideDiff (otherSide s)
    (diffIndices undefined areReferenceEqual fastDiff diff_core o a)
    (diffIndices undefined areReferenceEqual fastDiff diff_core o b) = [] ->
  PassesThrough s (sideLen (zlen (elems a)) (zlen (elems b)) s)
    (diff3MergeIndices undefined areReferenceEqual fastDiff diff_core o a b).
Proof.
  intros [W1 W2] E. unfold diff3MergeIndices.
  now apply mergeHunks_passes_through.
Qed.

(** X4.  When the two diffs against the base are well formed,
    [diff3MergeIndices o a b] returns a conflict record if and only if some
    hunk of the diff against [a] and some hunk of the diff against [b] have
    base ranges that touch, each starting at or before the end of the
    other. *)
Theorem conflict_iff_hunks_touch (o a b : ArrayLike T) :
  WellFormedInputs undefined areReferenceEqual fastDiff diff_core o a b ->
  (exists aR oR bR,
      In (conflict aR oR bR)
        (diff3MergeIndices undefined areReferenceEqual fastDiff diff_core
           o a b))
  <-> (exists ha hb,
          In ha (diffIndices undefined areReferenceEqual fastDiff diff_core
                   o a)
          /\ In hb (diffIndices undefined areReferenceEqual fastDiff
                      diff_core o b)
          /\ Touching ha hb).
Proof.
  intros [W1 W2]. unfold diff3MergeIndices.
  now apply mergeHunks_conflict_iff.
Qed.

(** X5.  When the two diffs against the base are well formed and
    [diff3MergeIndices o a b] returns no conflict record, the records that
    are not copies of a common region are, in the order of the returned
    list, those of the hunks of both diffs sorted by base location: one
    [okA] or [okB] record per hunk whose side range is not empty, with the
    length and the location of that range, and none for a pure deletion. *)
Theorem clean_merge_lists_hunks (o a b : ArrayLike T) :
  WellFormedInputs undefined areReferenceEqual fastDiff diff_core o a b ->
  Forall (fun r => isConflict r = false)
    (diff3MergeIndices undefined areReferenceEqual fastDiff diff_core o a b) ->
  filter (fun r => negb (isCommon r))
    (diff3MergeIndices undefined areReferenceEqual fastDiff diff_core o a b)
  = flat_map singleRecords
      (diff3Hunks undefined areReferenceEqual fastDiff diff_core o a b).
Proof.
  intros [W1 W2] N. unfold diff3MergeIndices, diff3Hunks, diff3Tagged.
  now apply mergeHunks_clean.
Qed.

(** X6.  When the differ is correct on both calls and reports hunks that
    are apart, every record of [diff3MergeIndices o a b] that copies a
    common region (an [okA] with [oIndex] and [bIndex]) points at elements
    of [a] and at elements of [b] that are, one by one, the same as the
    elements of [o] at [oIndex]. *)
Theorem common_records_copy_equal_elements (o a b : ArrayLike T) :
  CorrectDiff undefined areReferenceEqual fastDiff diff_core o a ->
  CorrectDiff undefined areReferenceEqual fastDiff diff_core o b ->
  Forall
    (CopiesCommon undefined (sameElement areReferenceEqual) (elems o)
       (elems a) (elems b))
    (diff3MergeIndices undefined areReferenceEqual fastDiff diff_core o a b).
Proof.
  intros Ca Cb. unfold diff3MergeIndices.
  apply mergeHunks_copy.
  - now apply CorrectDiff_regions.
  - exact (proj2 (proj2 Ca)).
  - now apply CorrectDiff_regions.
  - exact (proj2 (proj2 Cb)).
Qed.

(** X7.  With an empty base and two sides that are not empty, a correct
    differ reporting hunks that are apart makes [diff3MergeIndices o a b]
    return exactly one record: a conflict whose [aRange] is the whole of
    [a], whose [oRange] is empty and whose [bRange] is the whole of [b]. *)
Theorem empty_base_gives_one_conflict (o a b : ArrayLike T) :
  CorrectDiff undefined areReferenceEqual fastDiff diff_core o a ->
  CorrectDiff undefined areReferenceEqual fastDiff diff_core o b ->
  elems o = [] -> elems a <> [] -> elems b <> [] ->
  diff3MergeIndices undefined areReferenceEqual fastDiff diff_core o a b
  = [conflict (makeRange 0 (zlen (elems a))) (makeRange 0 0)
       (makeRange 0 (zlen (elems b)))].
Proof.
  intros Ca Cb Eo Na Nb.
  apply CorrectDiff_wellFormed in Ca, Cb.
  assert (La : 0 < zlen (elems a))
    by (unfold zlen; destruct (elems a); [contradiction | simpl; lia]).
  assert (Lb : 0 < zlen (elems b))
    by (unfold zlen; destruct (elems b); [contradiction | simpl; lia]).
  unfold diff3MergeIndices. rewrite Eo in *.
  change (zlen (@nil T)) with 0 in *.
  destruct Ca as (A1 & S1), Cb as (A2 & S2).
  rewrite (aligned_empty_first _ _ A1 S1 La).
  rewrite (aligned_empty_first _ _ A2 S2 Lb).
  now apply mergeHunks_empty_base.
Qed.

(** X8.  When [a] and [b] are both equal to the base (one reference, or as
    long and equal element by element), [diff3MergeIndices o a b] returns
    one [okA] record that copies the whole base from index 0 of the three
    sequences, and the empty list when the base is empty. *)
Theorem equal_sequences_merge_to_one_copy (o a b : ArrayLike T) :
  EqualSequences undefined areReferenceEqual o a ->
  FastDiffOnEqual fastDiff o a ->
  EqualSequences undefined areReferenceEqual o b ->
  FastDiffOnEqual fastDiff o b ->
  diff3MergeIndices undefined areReferenceEqual fastDiff diff_core o a b
  = if zlen (elems o) >? 0
    then [okA (zlen (elems o)) 0 (Some 0) (Some 0)]
    else [].
Proof.
  intros Ea Fa Eb Fb. unfold diff3MergeIndices.
  rewrite (EqualSequences_no_hunk undefined areReferenceEqual fastDiff
             diff_core o a Ea Fa).
  rewrite (EqualSequences_no_hunk undefined areReferenceEqual fastDiff
             diff_core o b Eb Fb).
  unfold mergeHunks. cbn [map app sortHunks List.length sweep].
  unfold copyCommon. cbn [oOffset aOffset bOffset result].
  rewrite Z.sub_0_r. now destruct (zlen (elems o) >? 0).
Qed.

(** X9.  When the pieces of [fastDiff] spell the two strings and no piece
    tagged [EQUAL] is empty, the hunks of [diffIndicesString] are what the
    merge expects of a diff: in order, within the two strings, with gaps as
    long in one string as in the other, and apart, at least one character
    lying between two consecutive hunks. *)
Theorem diffIndicesString_hunks_apart (s t : list T) :
  textBefore (fastDiff s t) = s ->
  textAfter (fastDiff s t) = t ->
  EqualPiecesNonEmpty (fastDiff s t) ->
  WellFormedDiff (zlen s) (zlen t) (diffIndicesString fastDiff s t).
Proof.
  intros Es Et Ne. split.
  - eapply ChangedRegions_aligned.
    now apply (diffIndicesString_regions undefined fastDiff).
  - now apply diffIndicesString_apart.
Qed.

(** X10.  When the two diffs against the base are well formed, what
    becomes of a hunk [h] of the diff against the side [s] depends on
    whether its base range touches the base range of a hunk of the other
    diff.  If it does, a conflict record of [diff3MergeIndices o a b] holds
    it: the base range of [h] lies within the [oRange] of the record and the
    side range of [h] within its range of [s].  If it does not, the hunk is
    merged alone: its own record, with the length and the location of its
    side range, is in the returned list (a pure deletion has none). *)
Theorem hunk_conflicts_when_it_touches (o a b : ArrayLike T) (s : Side)
  (h : DiffIndicesResult.t) :
  WellFormedInputs undefined areReferenceEqual fastDiff diff_core o a b ->
  In h
    (sideDiff s
       (diffIndices undefined areReferenceEqual fastDiff diff_core o a)
       (diffIndices undefined areReferenceEqual fastDiff diff_core o b)) ->
  (TouchesOneOf h
     (sideDiff (otherSide s)
        (diffIndices undefined areReferenceEqual fastDiff diff_core o a)
        (diffIndices undefined areReferenceEqual fastDiff diff_core o b)) ->
   HeldByConflict s h
     (diff3MergeIndices undefined areReferenceEqual fastDiff diff_core
        o a b))
  /\ (~ TouchesOneOf h
        (sideDiff (otherSide s)
           (diffIndices undefined areReferenceEqual fastDiff diff_core o a)
           (diffIndices undefined areReferenceEqual fastDiff diff_core o b)) ->
      incl (singleRecords (addHunk h s))
        (diff3MergeIndices undefined areReferenceEqual fastDiff diff_core
           o a b)).
Proof.
  intros [W1 W2] H. unfold diff3MergeIndices. split; intros Tc.
  - now apply mergeHunks_touching_held.
  - now apply mergeHunks_apart_alone.
Qed.

(** X11.  Whatever the differs return, of two consecutive records of
    [diff3MergeIndices o a b] one at least copies a common region: two
    groups of hunks are always more than one base element apart, so two
    conflicts, or a conflict and the changed content of one side, or the
    changed contents of two hunks, never follow each other directly. *)
Theorem common_record_between_groups (o a b : ArrayLike T) :
  CommonBetween
    (diff3MergeIndices undefined areReferenceEqual fastDiff diff_core o a b).
Proof.
  unfold diff3MergeIndices. apply mergeHunks_alternates.
Qed.

(** X13.  When the differ is correct on both calls and reports hunks that
    are apart, every record of [diff3MergeIndices o a b] that carries the
    changed content of one side [s] (an [okA] without [oIndex] for [a], an
    [okB] for [b]) is the record of a hunk [h] of the diff against [s], and
    the base elements that [h] replaces stand unchanged in the other side:
    some run of the other side, within its bounds and as long as the base
    range of [h], has the same elements as that range, one by one. *)
Theorem one_sided_change_replaces_unchanged_base (o a b : ArrayLike T)
  (s : Side) (r : Index) :
  CorrectDiff undefined areReferenceEqual fastDiff diff_core o a ->
  CorrectDiff undefined areReferenceEqual fastDiff diff_core o b ->
  In r
    (diff3MergeIndices undefined areReferenceEqual fastDiff diff_core o a b) ->
  isChangeOf s r = true ->
  exists h k,
    In h
      (sideDiff s
         (diffIndices undefined areReferenceEqual fastDiff diff_core o a)
         (diffIndices undefined areReferenceEqual fastDiff diff_core o b))
    /\ ReplacesUnchanged undefined (sameElement areReferenceEqual) (elems o)
         (sideSeq (elems a) (elems b) (otherSide s)) s r h k.
Proof.
  intros Ca Cb Hr Cr. unfold diff3MergeIndices in Hr.
  apply (mergeHunks_change_unchanged undefined
           (sameElement areReferenceEqual) (elems o) (elems a) (elems b)
           _ _ s r); try assumption.
  - now apply CorrectDiff_regions.
  - exact (proj2 (proj2 Ca)).
  - now apply CorrectDiff_regions.
  - exact (proj2 (proj2 Cb)).
Qed.

End Further.

(** * The further properties at concrete sequences *)

(** Closes [CorrectDiff] on computed sequences. *)
Ltac correct_diff :=
  split;
  [first [exact I | simpl; let H := fresh in intros H; discriminate H]
  |split; evaluate].

(** Closes [EqualSequences] on two arrays of three elements. *)
Ltac equal_three :=
  right; split; [reflexivity|];
  let k := fresh "k" in
  let K := fresh "K" in
  intros k K; unfold zlen in K; simpl in K;
  let C := fresh "C" in
  assert (C : k = 0 \/ k = 1 \/ k = 2) by lia;
  destruct C as [->|[->| ->]]; reflexivity.

Lemma merge_records_within_bounds_witness :
  WellFormedInputs JsUndefined strictEquals lcsFastDiff lcsDiffCore
    movesBase movesA movesB
  /\ Forall
       (WithinBounds (zlen (elems movesBase)) (zlen (elems movesA))
          (zlen (elems movesB)))
       (jsDiff3MergeIndices movesBase movesA movesB).
Proof.
  assert (W : WellFormedInputs JsUndefined strictEquals lcsFastDiff
                lcsDiffCore movesBase movesA movesB) by evaluate.
  split; [exact W|].
  exact (merge_records_within_bounds JsUndefined strictEquals lcsFastDiff
           lcsDiffCore movesBase movesA movesB W).
Defined.

Lemma side_ranges_in_order_witness :
  WellFormedInputs JsUndefined strictEquals lcsFastDiff lcsDiffCore
    editsBase editsA editsB
  /\ InOrder (sideRanges SideA (jsDiff3MergeIndices editsBase editsA editsB))
       0 (sideLen (zlen (elems editsA)) (zlen (elems editsB)) SideA).
Proof.
  assert (W : WellFormedInputs JsUndefined strictEquals lcsFastDiff
                lcsDiffCore editsBase editsA editsB) by evaluate.
  split; [exact W|].
  exact (side_ranges_in_order JsUndefined strictEquals lcsFastDiff
           lcsDiffCore editsBase editsA editsB SideA W).
Defined.

Lemma unchanged_side_passes_through_witness :
  WellFormedInputs JsUndefined strictEquals lcsFastDiff lcsDiffCore
    deletionBase deletionA deletionB
  /\ sideDiff (otherSide SideA) (jsDiffIndices deletionBase deletionA)
       (jsDiffIndices deletionBase deletionB) = []
  /\ PassesThrough SideA
       (sideLen (zlen (elems deletionA)) (zlen (elems deletionB)) SideA)
       (jsDiff3MergeIndices deletionBase deletionA deletionB).
Proof.
  assert (W : WellFormedInputs JsUndefined strictEquals lcsFastDiff
                lcsDiffCore deletionBase deletionA deletionB) by evaluate.
  assert (E : sideDiff (otherSide SideA)
                (jsDiffIndices deletionBase deletionA)
                (jsDiffIndices deletionBase deletionB) = [])
    by (vm_compute; reflexivity).
  split; [exact W|]. split; [exact E|].
  exact (unchanged_side_passes_through JsUndefined strictEquals lcsFastDiff
           lcsDiffCore deletionBase deletionA deletionB SideA W E).
Defined.

Lemma conflict_iff_hunks_touch_witness :
  WellFormedInputs JsUndefined strictEquals lcsFastDiff lcsDiffCore
    touchingBase touchingA touchingB
  /\ ((exists aR oR bR,
          In (conflict aR oR bR)
            (jsDiff3MergeIndices touchingBase touchingA touchingB))
      <-> (exists ha hb,
              In ha (jsDiffIndices touchingBase touchingA)
              /\ In hb (jsDiffIndices touchingBase touchingB)
              /\ Touching ha hb)).
Proof.
  assert (W : WellFormedInputs JsUndefined strictEquals lcsFastDiff
                lcsDiffCore touchingBase touchingA touchingB) by evaluate.
  split; [exact W|].
  exact (conflict_iff_hunks_touch JsUndefined strictEquals lcsFastDiff
           lcsDiffCore touchingBase touchingA touchingB W).
Defined.

Lemma clean_merge_lists_hunks_witness :
  WellFormedInputs JsUndefined strictEquals lcsFastDiff lcsDiffCore
    editsBase editsA editsB
  /\ Forall (fun r => isConflict r = false)
       (jsDiff3MergeIndices editsBase editsA editsB)
  /\ filter (fun r => negb (isCommon r))
       (jsDiff3MergeIndices editsBase editsA editsB)
     = flat_map singleRecords
         (diff3Hunks JsUndefined strictEquals lcsFastDiff lcsDiffCore
            editsBase editsA editsB).
Proof.
  assert (W : WellFormedInputs JsUndefined strictEquals lcsFastDiff
                lcsDiffCore editsBase editsA editsB) by evaluate.
  assert (N : Forall (fun r => isConflict r = false)
                (jsDiff3MergeIndices editsBase editsA editsB))
    by (vm_compute; repeat constructor).
  split; [exact W|]. split; [exact N|].
  exact (clean_merge_lists_hunks JsUndefined strictEquals lcsFastDiff
           lcsDiffCore editsBase editsA editsB W N).
Defined.

Lemma common_records_copy_equal_elements_witness :
  CorrectDiff JsUndefined strictEquals lcsFastDiff lcsDiffCore movesBase
    movesA
  /\ CorrectDiff JsUndefined strictEquals lcsFastDiff lcsDiffCore movesBase
       movesB
  /\ Forall
       (CopiesCommon JsUndefined (sameElement strictEquals)
          (elems movesBase) (elems movesA) (elems movesB))
       (jsDiff3MergeIndices movesBase movesA movesB).
Proof.
  assert (Ca : CorrectDiff JsUndefined strictEquals lcsFastDiff lcsDiffCore
                 movesBase movesA) by correct_diff.
  assert (Cb : CorrectDiff JsUndefined strictEquals lcsFastDiff lcsDiffCore
                 movesBase movesB) by correct_diff.
  split; [exact Ca|]. split; [exact Cb|].
  exact (common_records_copy_equal_elements JsUndefined strictEquals
           lcsFastDiff lcsDiffCore movesBase movesA movesB Ca Cb).
Defined.

Lemma empty_base_gives_one_conflict_witness :
  CorrectDiff JsUndefined strictEquals lcsFastDiff lcsDiffCore emptyArray
    pairArray
  /\ CorrectDiff JsUndefined strictEquals lcsFastDiff lcsDiffCore emptyArray
       otherPair
  /\ elems emptyArray = []
  /\ elems pairArray <> []
  /\ elems otherPair <> []
  /\ jsDiff3MergeIndices emptyArray pairArray otherPair
     = [conflict (makeRange 0 (zlen (elems pairArray))) (makeRange 0 0)
          (makeRange 0 (zlen (elems otherPair)))].
Proof.
  assert (Ca : CorrectDiff JsUndefined strictEquals lcsFastDiff lcsDiffCore
                 emptyArray pairArray) by correct_diff.
  assert (Cb : CorrectDiff JsUndefined strictEquals lcsFastDiff lcsDiffCore
                 emptyArray otherPair) by correct_diff.
  assert (Eo : elems emptyArray = []) by reflexivity.
  assert (Na : elems pairArray <> []) by (intros H; discriminate H).
  assert (Nb : elems otherPair <> []) by (intros H; discriminate H).
  split; [exact Ca|]. split; [exact Cb|]. split; [exact Eo|].
  split; [exact Na|]. split; [exact Nb|].
  exact (empty_base_gives_one_conflict JsUndefined strictEquals lcsFastDiff
           lcsDiffCore emptyArray pairArray otherPair Ca Cb Eo Na Nb).
Defined.

Lemma equal_sequences_merge_to_one_copy_witness :
  EqualSequences JsUndefined strictEquals deletionBase deletionCopy
  /\ FastDiffOnEqual lcsFastDiff deletionBase deletionCopy
  /\ EqualSequences JsUndefined strictEquals deletionBase deletionB
  /\ FastDiffOnEqual lcsFastDiff deletionBase deletionB
  /\ jsDiff3MergeIndices deletionBase deletionCopy deletionB
     = (if zlen (elems deletionBase) >? 0
        then [okA (zlen (elems deletionBase)) 0 (Some 0) (Some 0)]
        else []).
Proof.
  assert (Ea : EqualSequences JsUndefined strictEquals deletionBase
                 deletionCopy) by equal_three.
  assert (Fa : FastDiffOnEqual lcsFastDiff deletionBase deletionCopy)
    by exact I.
  assert (Eb : EqualSequences JsUndefined strictEquals deletionBase
                 deletionB) by equal_three.
  assert (Fb : FastDiffOnEqual lcsFastDiff deletionBase deletionB)
    by exact I.
  split; [exact Ea|]. split; [exact Fa|]. split; [exact Eb|].
  split; [exact Fb|].
  exact (equal_sequences_merge_to_one_copy JsUndefined strictEquals
           lcsFastDiff lcsDiffCore deletionBase deletionCopy deletionB
           Ea Fa Eb Fb).
Defined.

Lemma diffIndicesString_hunks_apart_witness :
  textBefore (lcsFastDiff (elems textBase) (elems textA)) = elems textBase
  /\ textAfter (lcsFastDiff (elems textBase) (elems textA)) = elems textA
  /\ EqualPiecesNonEmpty (lcsFastDiff (elems textBase) (elems textA))
  /\ WellFormedDiff (zlen (elems textBase)) (zlen (elems textA))
       (diffIndicesString lcsFastDiff (elems textBase) (elems textA)).
Proof.
  assert (Es : textBefore (lcsFastDiff (elems textBase) (elems textA))
               = elems textBase) by (vm_compute; reflexivity).
  assert (Et : textAfter (lcsFastDiff (elems textBase) (elems textA))
               = elems textA) by (vm_compute; reflexivity).
  assert (Ne : EqualPiecesNonEmpty
                 (lcsFastDiff (elems textBase) (elems textA))).
  { vm_compute. repeat constructor; intros _ H; discriminate H. }
  split; [exact Es|]. split; [exact Et|]. split; [exact Ne|].
  exact (diffIndicesString_hunks_apart JsUndefined lcsFastDiff
           (elems textBase) (elems textA) Es Et Ne).
Defined.

Lemma hunk_conflicts_when_it_touches_witness :
  (WellFormedInputs JsUndefined strictEquals lcsFastDiff lcsDiffCore
     touchingBase touchingA touchingB
   /\ In (DiffIndicesResult.make (makeRange 2 1) (makeRange 2 0))
        (sideDiff SideA (jsDiffIndices touchingBase touchingA)
           (jsDiffIndices touchingBase touchingB))
   /\ TouchesOneOf (DiffIndicesResult.make (makeRange 2 1) (makeRange 2 0))
        (sideDiff (otherSide SideA) (jsDiffIndices touchingBase touchingA)
           (jsDiffIndices touchingBase touchingB))
   /\ HeldByConflict SideA
        (DiffIndicesResult.make (makeRange 2 1) (makeRange 2 0))
        (jsDiff3MergeIndices touchingBase touchingA touchingB))
  /\ (WellFormedInputs JsUndefined strictEquals lcsFastDiff lcsDiffCore
        editsBase editsA editsB
      /\ In (DiffIndicesResult.make (makeRange 2 0) (makeRange 2 1))
           (sideDiff SideB (jsDiffIndices editsBase editsA)
              (jsDiffIndices editsBase editsB))
      /\ ~ TouchesOneOf
            (DiffIndicesResult.make (makeRange 2 0) (makeRange 2 1))
            (sideDiff (otherSide SideB) (jsDiffIndices editsBase editsA)
               (jsDiffIndices editsBase editsB))
      /\ incl
           (singleRecords
              (addHunk
                 (DiffIndicesResult.make (makeRange 2 0) (makeRange 2 1))
                 SideB))
           (jsDiff3MergeIndices editsBase editsA editsB)).
Proof.
  assert (W : WellFormedInputs JsUndefined strictEquals lcsFastDiff
                lcsDiffCore touchingBase touchingA touchingB) by evaluate.
  assert (H : In (DiffIndicesResult.make (makeRange 2 1) (makeRange 2 0))
                (sideDiff SideA (jsDiffIndices touchingBase touchingA)
                   (jsDiffIndices touchingBase touchingB)))
    by (vm_compute; left; reflexivity).
  assert (Tc : TouchesOneOf
                 (DiffIndicesResult.make (makeRange 2 1) (makeRange 2 0))
                 (sideDiff (otherSide SideA)
                    (jsDiffIndices touchingBase touchingA)
                    (jsDiffIndices touchingBase touchingB))).
  { exists (DiffIndicesResult.make (makeRange 1 1) (makeRange 1 0)).
    split; [vm_compute; left; reflexivity|].
    unfold Touching, upperBound; simpl; lia. }
  assert (W' : WellFormedInputs JsUndefined strictEquals lcsFastDiff
                 lcsDiffCore editsBase editsA editsB) by evaluate.
  assert (H' : In (DiffIndicesResult.make (makeRange 2 0) (makeRange 2 1))
                 (sideDiff SideB (jsDiffIndices editsBase editsA)
                    (jsDiffIndices editsBase editsB)))
    by (vm_compute; left; reflexivity).
  assert (N : ~ TouchesOneOf
                (DiffIndicesResult.make (makeRange 2 0) (makeRange 2 1))
                (sideDiff (otherSide SideB) (jsDiffIndices editsBase editsA)
                   (jsDiffIndices editsBase editsB))).
  { intros (h' & Hin & T1 & T2). vm_compute in Hin.
    destruct Hin as [<-|[]]. unfold upperBound in T1, T2. simpl in T1, T2.
    lia. }
  split.
  - split; [exact W|]. split; [exact H|]. split; [exact Tc|].
    exact (proj1
             (hunk_conflicts_when_it_touches JsUndefined strictEquals
                lcsFastDiff lcsDiffCore touchingBase touchingA touchingB
                SideA
                (DiffIndicesResult.make (makeRange 2 1) (makeRange 2 0))
                W H) Tc).
  - split; [exact W'|]. split; [exact H'|]. split; [exact N|].
    exact (proj2
             (hunk_conflicts_when_it_touches JsUndefined strictEquals
                lcsFastDiff lcsDiffCore editsBase editsA editsB SideB
                (DiffIndicesResult.make (makeRange 2 0) (makeRange 2 1))
                W' H') N).
Defined.

Lemma one_sided_change_replaces_unchanged_base_witness :
  CorrectDiff JsUndefined strictEquals lcsFastDiff lcsDiffCore textBase textA
  /\ CorrectDiff JsUndefined strictEquals lcsFastDiff lcsDiffCore textBase
       textB
  /\ In (okA 1 2 None None) (jsDiff3MergeIndices textBase textA textB)
  /\ isChangeOf SideA (okA 1 2 None None) = true
  /\ exists h k,
       In h
         (sideDiff SideA (jsDiffIndices textBase textA)
            (jsDiffIndices textBase textB))
       /\ ReplacesUnchanged JsUndefined (sameElement strictEquals)
            (elems textBase)
            (sideSeq (elems textA) (elems textB) (otherSide SideA)) SideA
            (okA 1 2 None None) h k.
Proof.
  assert (Ca : CorrectDiff JsUndefined strictEquals lcsFastDiff lcsDiffCore
                 textBase textA) by correct_diff.
  assert (Cb : CorrectDiff JsUndefined strictEquals lcsFastDiff lcsDiffCore
                 textBase textB) by correct_diff.
  assert (Hr : In (okA 1 2 None None)
                 (jsDiff3MergeIndices textBase textA textB))
    by (vm_compute; right; left; reflexivity).
  assert (Cr : isChangeOf SideA (okA 1 2 None None) = true) by reflexivity.
  split; [exact Ca|]. split; [exact Cb|]. split; [exact Hr|].
  split; [exact Cr|].
  exact (one_sided_change_replaces_unchanged_base JsUndefined strictEquals
           lcsFastDiff lcsDiffCore textBase textA textB SideA
           (okA 1 2 None None) Ca Cb Hr Cr).
Defined.

(** One array with [NaN] compared with itself has no hunk, although [===]
    does not hold of [NaN] and [NaN]; a second array with the same
    elements differs from it at [NaN]. *)
Example same_reference_nan :
  jsDiffIndices nanArray nanArray = []
  /\ jsDiffIndices nanArray nanCopy
     = [DiffIndicesResult.make (makeRange 0 1) (makeRange 0 1)].
Proof. split; reflexivity. Qed.

(** The merge of the three strings: [b] inserts next to where [a] deletes,
    and the two changes conflict. *)
Example text_run :
  jsDiff3MergeIndices textBase textA textB
  = [okA 2 0 (Some 0) (Some 0);
     okA 1 2 None None;
     okA 1 3 (Some 3) (Some 3);
     conflict (makeRange 4 0) (makeRange 4 1) (makeRange 4 2);
     okA 1 4 (Some 5) (Some 6)].
Proof. reflexivity. Qed.
